(** * Kalyna (DSTU 7624:2014) block cipher: the optimized C engine

    A shallow embedding of [kalyna_optimized.c] and [transformations.h]:
    the context record, the codec, the substitution, permutation and
    diffusion layers, the round-key mixing, the key schedule and the
    encipher / decipher drivers, followed by the properties of the
    specification that concern them.

    Conventions.
    - [uint64_t] and [uint8_t] values are integers of [Z]; every operation
      that can leave the range has its truncation written out ([to_u64],
      [to_u8]).  [u64] and [u8] are the range predicates.
    - [size_t] quantities that only count or index ([nb], [nk], [nr], loop
      counters) are [nat].
    - Arrays are lists; [a[i]] is [nth i a 0] and [a[i] = v] is [upd i v a].
    - A [for] loop is [for_loop lo hi body]; a descending loop is
      [for_down]; a loop with stride 2 is [for_stride2].
    - The constant tables of [tables.h] and the byte order of the host are
      variables of the section that holds the engine. *)

From Stdlib Require Import Ascii String.
From Stdlib Require Import ZArith List Lia Bool Arith Btauto.
Import ListNotations.
Local Open Scope Z_scope.

(** ** Machine integers *)

(** Truncation to [uint8_t] keeps the low eight bits ([to_u8_mod] below). *)
Definition to_u8 (z : Z) : Z := Z.land z 0xFF.
Definition to_u64 (z : Z) : Z := z mod 2 ^ 64.

Definition u8 (z : Z) : Prop := 0 <= z < 2 ^ 8.
Definition u64 (z : Z) : Prop := 0 <= z < 2 ^ 64.

(** ** Arrays and loops *)

Fixpoint upd {A : Type} (i : nat) (v : A) (l : list A) : list A :=
  match l, i with
  | [], _ => []
  | _ :: r, O => v :: r
  | x :: r, S j => x :: upd j v r
  end.

(** [for (i = lo; count-- > 0; ++i) s = body i s] *)
Fixpoint for_from {S : Type} (i count : nat) (body : nat -> S -> S) (s : S) : S :=
  match count with
  | O => s
  | Datatypes.S c => for_from (Datatypes.S i) c body (body i s)
  end.

(** [for (i = lo; i < hi; ++i) s = body i s] *)
Definition for_loop {S : Type} (lo hi : nat) (body : nat -> S -> S) (s : S) : S :=
  for_from lo (hi - lo) body s.

(** [for (i = lo + count - 1; i >= lo; --i) s = body i s] *)
Fixpoint for_down {S : Type} (lo count : nat) (body : nat -> S -> S) (s : S) : S :=
  match count with
  | O => s
  | Datatypes.S c => for_down lo c body (body (lo + c)%nat s)
  end.

(** [for (i = lo; i < lo + distance; i += 2) s = body i s] *)
Fixpoint for_stride2 {S : Type} (distance i : nat) (body : nat -> S -> S) (s : S) : S :=
  match distance with
  | O => s
  | Datatypes.S d =>
      let s := body i s in
      match d with
      | O => s
      | Datatypes.S d' => for_stride2 d' (i + 2)%nat body s
      end
  end.

(** [memcpy (dst + doff, src + soff, n)] on arrays of equal element type;
    [memmove] is the same function, the source being read before the
    destination is written. *)
Definition blit {A : Type} (dst : list A) (doff : nat) (src : list A) (soff n : nat)
  : list A :=
  firstn doff dst ++ firstn n (skipn soff src) ++ skipn (doff + n) dst.

(** ** transformations.h *)

Definition kBITS_IN_WORD : Z := 64.

Definition kNB_128 : Z := 2.
Definition kNB_256 : Z := 4.
Definition kNB_512 : Z := 8.

Definition kNK_128 : Z := 2.
Definition kNK_256 : Z := 4.
Definition kNK_512 : Z := 8.

Definition kBLOCK_128 : Z := kNB_128 * kBITS_IN_WORD.
Definition kBLOCK_256 : Z := kNB_256 * kBITS_IN_WORD.
Definition kBLOCK_512 : Z := kNB_512 * kBITS_IN_WORD.

Definition kKEY_128 : Z := kNK_128 * kBITS_IN_WORD.
Definition kKEY_256 : Z := kNK_256 * kBITS_IN_WORD.
Definition kKEY_512 : Z := kNK_512 * kBITS_IN_WORD.

Definition kNR_128 : nat := 10.
Definition kNR_256 : nat := 14.
Definition kNR_512 : nat := 18.

Definition kREDUCTION_POLYNOMIAL : Z := 0x011d.

Definition MAX_STATE_BYTES : nat := 64.

(** ** Finite-field arithmetic *)

(** One pass of the loop body of [MultiplyGF] on the triple [(x, y, r)].
    [x] and [r] are [uint8_t]: the shift and the XOR with the 9-bit
    polynomial are truncated to 8 bits. *)
Definition MultiplyGF_step (s : Z * Z * Z) : Z * Z * Z :=
  let '(x, y, r) := s in
  let r := if Z.land y 0x1 =? 1 then Z.lxor r x else r in
  let hbit := Z.land x 0x80 in
  let x := to_u8 (Z.shiftl x 1) in
  let x := if hbit =? 0x80 then to_u8 (Z.lxor x kREDUCTION_POLYNOMIAL) else x in
  let y := Z.shiftr y 1 in
  (x, y, r).

Definition MultiplyGF (x y : Z) : Z :=
  let '(_, _, r) := for_loop 0 8 (fun _ => MultiplyGF_step) (x, y, 0) in r.

(** *** Vocabulary of the proofs about [MultiplyGF] *)

Definition all_bytes : list Z := map Z.of_nat (seq 0 256).

(** The doubling that [MultiplyGF_step] applies to [x]. *)
Definition xtime (x : Z) : Z :=
  let s := to_u8 (Z.shiftl x 1) in
  if Z.land x 0x80 =? 0x80 then to_u8 (Z.lxor s kREDUCTION_POLYNOMIAL) else s.

Definition xor_sum (l : list Z) : Z := fold_right Z.lxor 0 l.

(** [f] distributes over XOR on bytes. *)
Definition additive (f : Z -> Z) : Prop :=
  forall a b, u8 a -> u8 b -> f (Z.lxor a b) = Z.lxor (f a) (f b).

(** The bytes with a single bit set, and the part of [x] along one of them. *)
Definition basis : list Z := [1; 2; 4; 8; 16; 32; 64; 128].

Definition bit_part (x e : Z) : Z := if Z.land x e =? 0 then 0 else e.

(** ** The cipher context *)

(** Modelled from the spec: the [kalyna_t] structure of [kalyna.h], which is
    not among the sources.  The specification's Context aggregates [nb],
    [nk], [nr], the cipher state ([nb] words) and the round-key schedule
    ([nr + 1] blocks of [nb] words); the field names are those the C code
    dereferences. *)
Record kalyna_t : Type := mk_kalyna {
  nb : nat;
  nk : nat;
  nr : nat;
  state : list Z;
  round_keys : list (list Z)
}.

(** [ctx->state = s] and [ctx->round_keys[i] = k], the other fields kept. *)
Definition set_state (ctx : kalyna_t) (s : list Z) : kalyna_t :=
  mk_kalyna (nb ctx) (nk ctx) (nr ctx) s (round_keys ctx).

Definition set_round_key (ctx : kalyna_t) (i : nat) (k : list Z) : kalyna_t :=
  mk_kalyna (nb ctx) (nk ctx) (nr ctx) (state ctx) (upd i k (round_keys ctx)).

(** [ctx->round_keys[round]] *)
Definition round_key (ctx : kalyna_t) (round : nat) : list Z :=
  nth round (round_keys ctx) [].

(** The first [n] elements of a stack array that the C code leaves
    uninitialised.  Every element the code reads from such an array has
    been written before, so the initial content is immaterial; the model
    keeps only the prefix that is in use. *)
Definition scratch (n : nat) : list Z := repeat 0 n.

(** ** Context creation *)

(** The parameter selection of [KalynaInit]: [(nb, nk, nr)], or nothing for
    an unsupported block or key size. *)
Definition select_parameters (block_size key_size : Z) : option (nat * nat * nat) :=
  if block_size =? kBLOCK_128 then
    let nb := Z.to_nat (kBLOCK_128 / kBITS_IN_WORD) in
    if key_size =? kKEY_128 then
      Some (nb, Z.to_nat (kKEY_128 / kBITS_IN_WORD), kNR_128)
    else if key_size =? kKEY_256 then
      Some (nb, Z.to_nat (kKEY_256 / kBITS_IN_WORD), kNR_256)
    else None
  else if block_size =? 256 then
    let nb := Z.to_nat (kBLOCK_256 / kBITS_IN_WORD) in
    if key_size =? kKEY_256 then
      Some (nb, Z.to_nat (kKEY_256 / kBITS_IN_WORD), kNR_256)
    else if key_size =? kKEY_512 then
      Some (nb, Z.to_nat (kKEY_512 / kBITS_IN_WORD), kNR_512)
    else None
  else if block_size =? kBLOCK_512 then
    let nb := Z.to_nat (kBLOCK_512 / kBITS_IN_WORD) in
    if key_size =? kKEY_512 then
      Some (nb, Z.to_nat (kKEY_512 / kBITS_IN_WORD), kNR_512)
    else None
  else None.

(** The loop that allocates [round_keys[i]], [i = first, ..., first + count - 1];
    [alloc_ok k] tells whether the [k]-th allocation request of the call
    succeeds (request 0 is the context, 1 the state, 2 the array of round-key
    pointers, [3 + i] round key [i]). *)
Fixpoint alloc_round_keys (alloc_ok : nat -> bool) (nb i count : nat)
  : option (list (list Z)) :=
  match count with
  | O => Some []
  | S c =>
      if alloc_ok (3 + i)%nat then
        match alloc_round_keys alloc_ok nb (S i) c with
        | Some rest => Some (repeat 0 nb :: rest)
        | None => None
        end
      else None
  end.

(** [None] is the [NULL] result. *)
Definition KalynaInit (alloc_ok : nat -> bool) (block_size key_size : Z)
  : option kalyna_t :=
  if negb (alloc_ok 0%nat) then None else
  match select_parameters block_size key_size with
  | None => None
  | Some (nb, nk, nr) =>
      if negb (alloc_ok 1%nat) then None else
      if negb (alloc_ok 2%nat) then None else
      match alloc_round_keys alloc_ok nb 0 (nr + 1) with
      | None => None
      | Some keys => Some (mk_kalyna nb nk nr (repeat 0 nb) keys)
      end
  end.


(** ** Allocation and release *)

(** [KalynaInit] and [KalynaDelete] as the allocator sees them.  A block of
    the heap is named by the number of the request that returned it;
    [alloc_ok k] tells whether request [k] succeeds.  What the two
    functions write to [stderr] is kept as a list of events. *)
Module Allocation.

Record heap : Type := mk_heap {
  allocated : list nat;  (* the blocks that are allocated and not freed *)
  requests : nat;        (* the number of requests made so far *)
  damaged : bool         (* a block that was not allocated has been freed *)
}.

Inductive event : Type :=
| to_stderr (text : string)  (* fprintf (stderr, text) *)
| to_perror (text : string). (* perror (text) *)

Record world : Type := mk_world {
  memory : heap;
  errors : list event
}.

(** [malloc] and [calloc]: the block, or nothing for [NULL]. *)
Definition allocate (alloc_ok : nat -> bool) (w : world) : option nat * world :=
  let h := memory w in
  let k := requests h in
  if alloc_ok k
  then (Some k, mk_world (mk_heap (k :: allocated h) (S k) (damaged h)) (errors w))
  else (None, mk_world (mk_heap (allocated h) (S k) (damaged h)) (errors w)).

Definition free (p : nat) (w : world) : world :=
  let h := memory w in
  if existsb (Nat.eqb p) (allocated h)
  then mk_world (mk_heap (remove Nat.eq_dec p (allocated h)) (requests h) (damaged h))
         (errors w)
  else mk_world (mk_heap (allocated h) (requests h) true) (errors w).

Definition report (e : event) (w : world) : world :=
  mk_world (memory w) (errors w ++ [e]).

Definition newline : string := String "010"%char EmptyString.

Definition unsupported_key_size : string :=
  ("Error: unsupported key size." ++ newline)%string.

Definition unsupported_block_size : string :=
  ("Error: unsupported block size." ++ newline)%string.

Definition no_memory_for_state : string :=
  "Could not allocate memory for cipher state."%string.

Definition no_memory_for_round_keys : string :=
  "Could not allocate memory for cipher round keys."%string.

(** A context in memory: the blocks of the structure, of the state, of the
    array of round-key pointers and of each round key ([None] for a [NULL]
    pointer), and what the context holds. *)
Record handle : Type := mk_handle {
  ctx_block : nat;
  state_block : option nat;
  round_keys_block : option nat;
  round_key_blocks : list (option nat);
  value : kalyna_t
}.

(** The parameter selection of [KalynaInit], with the message of each
    branch that gives up. *)
Definition select (block_size key_size : Z) : (nat * nat * nat) + string :=
  if block_size =? kBLOCK_128 then
    let nb := Z.to_nat (kBLOCK_128 / kBITS_IN_WORD) in
    if key_size =? kKEY_128 then
      inl (nb, Z.to_nat (kKEY_128 / kBITS_IN_WORD), kNR_128)
    else if key_size =? kKEY_256 then
      inl (nb, Z.to_nat (kKEY_256 / kBITS_IN_WORD), kNR_256)
    else inr unsupported_key_size
  else if block_size =? 256 then
    let nb := Z.to_nat (kBLOCK_256 / kBITS_IN_WORD) in
    if key_size =? kKEY_256 then
      inl (nb, Z.to_nat (kKEY_256 / kBITS_IN_WORD), kNR_256)
    else if key_size =? kKEY_512 then
      inl (nb, Z.to_nat (kKEY_512 / kBITS_IN_WORD), kNR_512)
    else inr unsupported_key_size
  else if block_size =? kBLOCK_512 then
    let nb := Z.to_nat (kBLOCK_512 / kBITS_IN_WORD) in
    if key_size =? kKEY_512 then
      inl (nb, Z.to_nat (kKEY_512 / kBITS_IN_WORD), kNR_512)
    else inr unsupported_key_size
  else inr unsupported_block_size.

(** The loop that allocates [round_keys[i]], for [count] more indices from
    [i] on; [keys] holds the blocks of the indices below [i].  When a
    request fails, the loop frees what the call has allocated and the
    function returns [NULL]. *)
Fixpoint allocate_round_keys
  (alloc_ok : nat -> bool) (ctx state round_keys : nat) (i count : nat)
  (keys : list nat) (w : world) : option (list nat) * world :=
  match count with
  | O => (Some keys, w)
  | S c =>
      match allocate alloc_ok w with
      | (Some p, w) =>
          allocate_round_keys alloc_ok ctx state round_keys (S i) c (keys ++ [p]) w
      | (None, w) =>
          let w := report (to_perror no_memory_for_round_keys) w in
          let w := for_loop 0 i (fun j w => free (nth j keys 0%nat) w) w in
          let w := free round_keys w in
          let w := free state w in
          let w := free ctx w in
          (None, w)
      end
  end.

Definition KalynaInit (alloc_ok : nat -> bool) (block_size key_size : Z) (w : world)
  : option handle * world :=
  match allocate alloc_ok w with
  | (None, w) => (None, w)
  | (Some ctx, w) =>
      match select block_size key_size with
      | inr text =>
          let w := report (to_stderr text) w in
          let w := free ctx w in
          (None, w)
      | inl (nb, nk, nr) =>
          match allocate alloc_ok w with
          | (None, w) =>
              let w := report (to_perror no_memory_for_state) w in
              let w := free ctx w in
              (None, w)
          | (Some state, w) =>
              match allocate alloc_ok w with
              | (None, w) =>
                  let w := report (to_perror no_memory_for_round_keys) w in
                  let w := free state w in
                  let w := free ctx w in
                  (None, w)
              | (Some round_keys, w) =>
                  match allocate_round_keys alloc_ok ctx state round_keys
                          0 (nr + 1) [] w with
                  | (None, w) => (None, w)
                  | (Some keys, w) =>
                      (Some (mk_handle ctx (Some state) (Some round_keys)
                               (map Some keys)
                               (mk_kalyna nb nk nr (repeat 0 nb)
                                  (map (fun _ => repeat 0 nb) keys))),
                       w)
                  end
              end
          end
      end
  end.

(** [(result, world)] after [KalynaDelete (ctx)]; [None] is [NULL]. *)
Definition KalynaDelete (ctx : option handle) (w : world) : Z * world :=
  match ctx with
  | None => (0, w)
  | Some ctx =>
      let w :=
        match state_block ctx with
        | Some p => free p w
        | None => w
        end in
      let w :=
        match round_keys_block ctx with
        | Some p =>
            let w :=
              for_loop 0 (nr (value ctx) + 1)
                (fun i w =>
                   match nth i (round_key_blocks ctx) None with
                   | Some q => free q w
                   | None => w
                   end) w in
            free p w
        | None => w
        end in
      let w := free (ctx_block ctx) w in
      (0, w)
  end.

End Allocation.

(** ** Printing *)

Definition hex_digits : list ascii :=
  ["0"; "1"; "2"; "3"; "4"; "5"; "6"; "7"; "8"; "9"; "a"; "b"; "c"; "d"; "e"; "f"]%char.

(** The hexadecimal numeral of [w] in lower case, before [acc]; no digit
    for 0.  [fuel] bounds the number of digits. *)
Fixpoint hexadecimal (fuel : nat) (w : Z) (acc : string) : string :=
  match fuel with
  | O => acc
  | S f =>
      if w =? 0 then acc
      else hexadecimal f (w / 16)
             (String (nth (Z.to_nat (w mod 16)) hex_digits "0"%char) acc)
  end.

Fixpoint zeros (n : nat) : string :=
  match n with
  | O => EmptyString
  | S m => String "0"%char (zeros m)
  end.

(** What [printf ("%16.16llx", w)] writes for an [unsigned long long] of 64
    bits: the numeral, padded with zeros to the precision of 16 digits,
    which is the field width as well. *)
Definition printf_16_16llx (w : Z) : string :=
  let numeral := hexadecimal 16 w EmptyString in
  (zeros (16 - String.length numeral) ++ numeral)%string.

(** [stdout] after [PrintState (length, state)]. *)
Definition PrintState (length : nat) (state : list Z) (stdout : string) : string :=
  let stdout :=
    for_down 1 length
      (fun i stdout => (stdout ++ printf_16_16llx (nth (i - 1) state 0))%string)
      stdout in
  (stdout ++ Allocation.newline)%string.
Section Engine.

(** What [IsBigEndian ()] observes: the byte order of the host. *)
Variable host_big_endian : bool.

(** The tables of [tables.h], which is not among the sources:
    [uint8_t sboxes_enc[4][256]], [sboxes_dec[4][256]],
    [mds_matrix[8][8]] and [mds_inv_matrix[8][8]]. *)
Variables sboxes_enc sboxes_dec : list (list Z).
Variables mds_matrix mds_inv_matrix : list (list Z).

(** [table[t][x]] *)
Definition lookup (table : list (list Z)) (t : nat) (x : Z) : Z :=
  nth (Z.to_nat x) (nth t table []) 0.

(** ** Codec *)

(** The value whose bytes are [bs], least significant first, and the [n]
    low bytes of [w], least significant first. *)
Fixpoint le_word (bs : list Z) : Z :=
  match bs with
  | [] => 0
  | b :: r => Z.lor b (Z.shiftl (le_word r) 8)
  end.

Fixpoint le_bytes (n : nat) (w : Z) : list Z :=
  match n with
  | O => []
  | S m => to_u8 w :: le_bytes m (Z.shiftr w 8)
  end.

(** The bytes of an [n]-byte unsigned object in the host's memory, lowest
    address first, and the object that [n] bytes of memory hold. *)
Definition object_bytes (n : nat) (w : Z) : list Z :=
  if host_big_endian then rev (le_bytes n w) else le_bytes n w.

Definition object_value (bs : list Z) : Z :=
  if host_big_endian then le_word (rev bs) else le_word bs.

(** [unsigned int num = 1; return *((uint8_t* )&num) == 0;] *)
Definition IsBigEndian : bool :=
  nth 0 (object_bytes 4 1) 0 =? 0.

Definition ReverseWord (word : Z) : Z :=
  let src := object_bytes 8 word in
  let dst := object_bytes 8 0 in
  let dst := for_loop 0 8 (fun i dst => upd i (nth (8 - 1 - i) src 0) dst) dst in
  object_value dst.

(** The [uint64_t] objects that [8 * n] bytes of memory hold. *)
Fixpoint memory_words (n : nat) (bytes : list Z) : list Z :=
  match n with
  | O => []
  | S m => object_value (firstn 8 bytes) :: memory_words m (skipn 8 bytes)
  end.

(** The [nb * 8] bytes that [WordsToBytes_Inline] writes to [bytes]. *)
Definition WordsToBytes_Inline (nb : nat) (words : list Z) : list Z :=
  if IsBigEndian then
    flat_map (fun w => object_bytes 8 (ReverseWord w)) (firstn nb words)
  else
    flat_map (object_bytes 8) (firstn nb words).

(** [words] after [BytesToWords_Inline (nb, bytes, words)]. *)
Definition BytesToWords_Inline (nb : nat) (bytes : list Z) (words : list Z) : list Z :=
  let words := blit words 0 (memory_words nb bytes) 0 nb in
  if IsBigEndian then
    for_loop 0 nb (fun i words => upd i (ReverseWord (nth i words 0)) words) words
  else words.

(** ** Substitution layer *)

(** The right-hand side of the assignment in [SubBytes] and [InvSubBytes],
    for the tables [sboxes] and the word [s]. *)
Definition substitute_word (sboxes : list (list Z)) (s : Z) : Z :=
  Z.lor (Z.lor (Z.lor (Z.lor (Z.lor (Z.lor (Z.lor
    (lookup sboxes 0 (Z.land s 0x00000000000000FF))
    (Z.shiftl (lookup sboxes 1 (Z.shiftr (Z.land s 0x000000000000FF00) 8)) 8))
    (Z.shiftl (lookup sboxes 2 (Z.shiftr (Z.land s 0x0000000000FF0000) 16)) 16))
    (Z.shiftl (lookup sboxes 3 (Z.shiftr (Z.land s 0x00000000FF000000) 24)) 24))
    (Z.shiftl (lookup sboxes 0 (Z.shiftr (Z.land s 0x000000FF00000000) 32)) 32))
    (Z.shiftl (lookup sboxes 1 (Z.shiftr (Z.land s 0x0000FF0000000000) 40)) 40))
    (Z.shiftl (lookup sboxes 2 (Z.shiftr (Z.land s 0x00FF000000000000) 48)) 48))
    (Z.shiftl (lookup sboxes 3 (Z.shiftr (Z.land s 0xFF00000000000000) 56)) 56).

(** [s] aliases [ctx->state]: [s[i]] is read from the array being updated. *)
Definition SubBytes (ctx : kalyna_t) : kalyna_t :=
  set_state ctx
    (for_loop 0 (nb ctx)
       (fun i st => upd i (substitute_word sboxes_enc (nth i st 0)) st)
       (state ctx)).

Definition InvSubBytes (ctx : kalyna_t) : kalyna_t :=
  set_state ctx
    (for_loop 0 (nb ctx)
       (fun i st => upd i (substitute_word sboxes_dec (nth i st 0)) st)
       (state ctx)).

(** ** Permutation layer *)

(** The two nested loops of [ShiftRows]; the loop state is [(shift, nstate)]. *)
Definition ShiftRows_loops (nb : nat) (state nstate : list Z) : list Z :=
  snd (for_loop 0 8
         (fun row '(shift, nstate) =>
            let shift :=
              if ((row mod (8 / nb) =? 0) && (0 <? row))%nat
              then (shift + 1)%nat else shift in
            (shift,
             for_loop 0 nb
               (fun col nstate =>
                  upd (row + (col + shift) mod nb * 8)%nat
                      (nth (row + col * 8)%nat state 0) nstate)
               nstate))
         (0%nat, nstate)).

Definition ShiftRows (ctx : kalyna_t) : kalyna_t :=
  let state_bytes := WordsToBytes_Inline (nb ctx) (state ctx) in
  let nstate := ShiftRows_loops (nb ctx) state_bytes (scratch (nb ctx * 8)) in
  set_state ctx (BytesToWords_Inline (nb ctx) nstate (state ctx)).

Definition InvShiftRows_loops (nb : nat) (state nstate : list Z) : list Z :=
  snd (for_loop 0 8
         (fun row '(shift, nstate) =>
            let shift :=
              if ((row mod (8 / nb) =? 0) && (0 <? row))%nat
              then (shift + 1)%nat else shift in
            (shift,
             for_loop 0 nb
               (fun col nstate =>
                  upd (row + col * 8)%nat
                      (nth (row + (col + shift) mod nb * 8)%nat state 0) nstate)
               nstate))
         (0%nat, nstate)).

Definition InvShiftRows (ctx : kalyna_t) : kalyna_t :=
  let state_bytes := WordsToBytes_Inline (nb ctx) (state ctx) in
  let nstate := InvShiftRows_loops (nb ctx) state_bytes (scratch (nb ctx * 8)) in
  set_state ctx (BytesToWords_Inline (nb ctx) nstate (state ctx)).

(** ** Diffusion layer *)

(** [product] after the innermost loop of [MatrixMultiply]. *)
Definition MatrixMultiply_product
  (state : list Z) (matrix : list (list Z)) (col row : nat) : Z :=
  for_down 0 8
    (fun b product =>
       Z.lxor product
         (MultiplyGF (nth (b + col * 8)%nat state 0) (lookup matrix row (Z.of_nat b))))
    0.

(** [result] after the loop over the rows. *)
Definition MatrixMultiply_result
  (state : list Z) (matrix : list (list Z)) (col : nat) : Z :=
  for_down 0 8
    (fun row result =>
       Z.lor result
         (Z.shiftl (MatrixMultiply_product state matrix col row) (Z.of_nat (row * 8))))
    0.

Definition MatrixMultiply (ctx : kalyna_t) (matrix : list (list Z)) : kalyna_t :=
  let state_bytes := WordsToBytes_Inline (nb ctx) (state ctx) in
  set_state ctx
    (for_loop 0 (nb ctx)
       (fun col st => upd col (MatrixMultiply_result state_bytes matrix col) st)
       (state ctx)).

Definition MixColumns (ctx : kalyna_t) : kalyna_t := MatrixMultiply ctx mds_matrix.

Definition InvMixColumns (ctx : kalyna_t) : kalyna_t := MatrixMultiply ctx mds_inv_matrix.

(** ** Round function *)

Definition EncipherRound (ctx : kalyna_t) : kalyna_t :=
  let ctx := SubBytes ctx in
  let ctx := ShiftRows ctx in
  MixColumns ctx.

Definition DecipherRound (ctx : kalyna_t) : kalyna_t :=
  let ctx := InvMixColumns ctx in
  let ctx := InvShiftRows ctx in
  InvSubBytes ctx.

(** ** Round-key mixing *)

Definition AddRoundKey (round : nat) (ctx : kalyna_t) : kalyna_t :=
  set_state ctx
    (for_loop 0 (nb ctx)
       (fun i st => upd i (to_u64 (nth i st 0 + nth i (round_key ctx round) 0)) st)
       (state ctx)).

Definition SubRoundKey (round : nat) (ctx : kalyna_t) : kalyna_t :=
  set_state ctx
    (for_loop 0 (nb ctx)
       (fun i st => upd i (to_u64 (nth i st 0 - nth i (round_key ctx round) 0)) st)
       (state ctx)).

Definition AddRoundKeyExpand (value : list Z) (ctx : kalyna_t) : kalyna_t :=
  set_state ctx
    (for_loop 0 (nb ctx)
       (fun i st => upd i (to_u64 (nth i st 0 + nth i value 0)) st)
       (state ctx)).

Definition XorRoundKey (round : nat) (ctx : kalyna_t) : kalyna_t :=
  set_state ctx
    (for_loop 0 (nb ctx)
       (fun i st => upd i (Z.lxor (nth i st 0) (nth i (round_key ctx round) 0)) st)
       (state ctx)).

Definition XorRoundKeyExpand (value : list Z) (ctx : kalyna_t) : kalyna_t :=
  set_state ctx
    (for_loop 0 (nb ctx)
       (fun i st => upd i (Z.lxor (nth i st 0) (nth i value 0)) st)
       (state ctx)).

Definition Rotate (state_size : nat) (state_value : list Z) : list Z :=
  let temp := nth 0 state_value 0 in
  let state_value :=
    for_loop 1 state_size
      (fun i sv => upd (i - 1) (nth i sv 0) sv) state_value in
  upd (state_size - 1) temp state_value.

Definition ShiftLeft (state_size : nat) (state_value : list Z) : list Z :=
  for_loop 0 state_size
    (fun i sv => upd i (to_u64 (Z.shiftl (nth i sv 0) 1)) sv) state_value.

Definition RotateLeft (state_size : nat) (state_value : list Z) : list Z :=
  let rotate_bytes := (2 * state_size + 3)%nat in
  let bytes_num := (state_size * 8)%nat in
  let bytes := WordsToBytes_Inline state_size state_value in
  let buffer := blit (scratch rotate_bytes) 0 bytes 0 rotate_bytes in
  let bytes := blit bytes 0 bytes rotate_bytes (bytes_num - rotate_bytes) in
  let bytes := blit bytes (bytes_num - rotate_bytes) buffer 0 rotate_bytes in
  BytesToWords_Inline state_size bytes state_value.

(** ** Key schedule *)

(** [(kt, ctx)] after [KeyExpandKt (key, ctx, kt)]; [kt], [k0] and [k1] are
    stack arrays of which the first [nb] words are in use. *)
Definition KeyExpandKt (key : list Z) (ctx : kalyna_t) : list Z * kalyna_t :=
  let n := nb ctx in
  let ctx := set_state ctx (blit (state ctx) 0 (repeat 0 n) 0 n) in
  let ctx :=
    set_state ctx
      (upd 0 (to_u64 (nth 0 (state ctx) 0 + Z.of_nat (nb ctx + nk ctx + 1)))
           (state ctx)) in
  let k0 := blit (scratch n) 0 key 0 n in
  let k1 :=
    if (nb ctx =? nk ctx)%nat
    then blit (scratch n) 0 key 0 n
    else blit (scratch n) 0 key n n in
  let ctx := AddRoundKeyExpand k0 ctx in
  let ctx := EncipherRound ctx in
  let ctx := XorRoundKeyExpand k1 ctx in
  let ctx := EncipherRound ctx in
  let ctx := AddRoundKeyExpand k0 ctx in
  let ctx := EncipherRound ctx in
  (blit (scratch n) 0 (state ctx) 0 n, ctx).

(** The block that [KeyExpandEven] carries out twice in its loop body
    (source lines 364-376, and 386-398 with [initial_data + nb]): derive
    the round key of index [round] from [kt], [tmv] and the [nb] words of
    [initial_data] at [offset], and store it. *)
Definition derive_even_key
  (kt tmv initial_data : list Z) (offset round : nat) (ctx : kalyna_t) : kalyna_t :=
  let n := nb ctx in
  let ctx := set_state ctx (blit (state ctx) 0 kt 0 n) in
  let ctx := AddRoundKeyExpand tmv ctx in
  let kt_round := blit (scratch n) 0 (state ctx) 0 n in
  let ctx := set_state ctx (blit (state ctx) 0 initial_data offset n) in
  let ctx := AddRoundKeyExpand kt_round ctx in
  let ctx := EncipherRound ctx in
  let ctx := XorRoundKeyExpand kt_round ctx in
  let ctx := EncipherRound ctx in
  let ctx := AddRoundKeyExpand kt_round ctx in
  set_round_key ctx round (blit (round_key ctx round) 0 (state ctx) 0 n).

(** The variables that live across iterations of the [while (1)] loop. *)
Record even_loop : Type := mk_even_loop {
  el_round : nat;
  el_tmv : list Z;
  el_initial_data : list Z;
  el_ctx : kalyna_t
}.

(** One pass through the loop body: [inl ctx] when it leaves by [break],
    [inr l] when it reaches the end of the body. *)
Definition KeyExpandEven_body (kt : list Z) (l : even_loop) : kalyna_t + even_loop :=
  let round := el_round l in
  let tmv := el_tmv l in
  let initial_data := el_initial_data l in
  let ctx := derive_even_key kt tmv initial_data 0 round (el_ctx l) in
  if (nr ctx =? round)%nat then inl ctx
  else if negb (nk ctx =? nb ctx)%nat then
    let round := (round + 2)%nat in
    let tmv := ShiftLeft (nb ctx) tmv in
    let ctx := derive_even_key kt tmv initial_data (nb ctx) round ctx in
    if (nr ctx =? round)%nat then inl ctx
    else
      inr (mk_even_loop (round + 2) (ShiftLeft (nb ctx) tmv)
             (Rotate (nk ctx) initial_data) ctx)
  else
    inr (mk_even_loop (round + 2) (ShiftLeft (nb ctx) tmv)
           (Rotate (nk ctx) initial_data) ctx).

(** A pass in two parts.  [KeyExpandEven_pair] is the pass up to the second
    [break] (source lines 364-401), in which the round keys of the pass
    are derived, one when [nk == nb] and two when [nk != nb]: [inl ctx]
    when it leaves by [break], otherwise the variables as they are at the
    end of line 402.  [KeyExpandEven_advance] is the end of the pass
    (source lines 403-405). *)
Definition KeyExpandEven_pair (kt : list Z) (l : even_loop) : kalyna_t + even_loop :=
  let round := el_round l in
  let tmv := el_tmv l in
  let initial_data := el_initial_data l in
  let ctx := derive_even_key kt tmv initial_data 0 round (el_ctx l) in
  if (nr ctx =? round)%nat then inl ctx
  else if negb (nk ctx =? nb ctx)%nat then
    let round := (round + 2)%nat in
    let tmv := ShiftLeft (nb ctx) tmv in
    let ctx := derive_even_key kt tmv initial_data (nb ctx) round ctx in
    if (nr ctx =? round)%nat then inl ctx
    else inr (mk_even_loop round tmv initial_data ctx)
  else inr (mk_even_loop round tmv initial_data ctx).

Definition KeyExpandEven_advance (l : even_loop) : even_loop :=
  let round := (el_round l + 2)%nat in
  let tmv := ShiftLeft (nb (el_ctx l)) (el_tmv l) in
  let initial_data := Rotate (nk (el_ctx l)) (el_initial_data l) in
  mk_even_loop round tmv initial_data (el_ctx l).

(** The [while (1)] loop, for at most [fuel] passes; [None] when the loop has
    not left by then. *)
Fixpoint KeyExpandEven_loop (fuel : nat) (kt : list Z) (l : even_loop)
  : option kalyna_t :=
  match fuel with
  | O => None
  | S f =>
      match KeyExpandEven_body kt l with
      | inl ctx => Some ctx
      | inr l' => KeyExpandEven_loop f kt l'
      end
  end.

(** [round] grows by at least 2 in each pass, so a loop that leaves at all
    leaves within [nr + 1] passes. *)
Definition KeyExpandEven (key kt : list Z) (ctx : kalyna_t) : option kalyna_t :=
  let initial_data := blit (scratch (nk ctx)) 0 key 0 (nk ctx) in
  let tmv :=
    for_loop 0 (nb ctx) (fun i tmv => upd i 0x0001000100010001 tmv)
      (scratch (nb ctx)) in
  KeyExpandEven_loop (S (nr ctx)) kt (mk_even_loop 0 tmv initial_data ctx).

(** The body of the loop of [KeyExpandOdd], for the index [i]. *)
Definition KeyExpandOdd_body (i : nat) (ctx : kalyna_t) : kalyna_t :=
  let ctx :=
    set_round_key ctx i
      (blit (round_key ctx i) 0 (round_key ctx (i - 1)) 0 (nb ctx)) in
  set_round_key ctx i (RotateLeft (nb ctx) (round_key ctx i)).

Definition KeyExpandOdd (ctx : kalyna_t) : kalyna_t :=
  for_stride2 (nr ctx - 1) 1 KeyExpandOdd_body ctx.

(** [None] when [KeyExpandEven] does not return. *)
Definition KalynaKeyExpand (key : list Z) (ctx : kalyna_t) : option kalyna_t :=
  let '(kt, ctx) := KeyExpandKt key ctx in
  match KeyExpandEven key kt ctx with
  | Some ctx => Some (KeyExpandOdd ctx)
  | None => None
  end.

(** ** Encipher and decipher *)

(** [(ciphertext, ctx)] after [KalynaEncipher (plaintext, ctx, ciphertext)]. *)
Definition KalynaEncipher (plaintext : list Z) (ctx : kalyna_t) (ciphertext : list Z)
  : list Z * kalyna_t :=
  let ctx := set_state ctx (blit (state ctx) 0 plaintext 0 (nb ctx)) in
  let ctx := AddRoundKey 0 ctx in
  let ctx :=
    for_loop 1 (nr ctx)
      (fun round ctx => XorRoundKey round (EncipherRound ctx)) ctx in
  let ctx := EncipherRound ctx in
  let ctx := AddRoundKey (nr ctx) ctx in
  (blit ciphertext 0 (state ctx) 0 (nb ctx), ctx).

(** [(plaintext, ctx)] after [KalynaDecipher (ciphertext, ctx, plaintext)].
    The loop runs [round] from [nr - 1] down to 1; [nr] is at least 10 in
    every context that [KalynaInit] returns, so that [nr - 1] does not wrap. *)
Definition KalynaDecipher (ciphertext : list Z) (ctx : kalyna_t) (plaintext : list Z)
  : list Z * kalyna_t :=
  let ctx := set_state ctx (blit (state ctx) 0 ciphertext 0 (nb ctx)) in
  let ctx := SubRoundKey (nr ctx) ctx in
  let ctx :=
    for_down 1 (nr ctx - 1)
      (fun round ctx => XorRoundKey round (DecipherRound ctx)) ctx in
  let ctx := DecipherRound ctx in
  let ctx := SubRoundKey 0 ctx in
  (blit plaintext 0 (state ctx) 0 (nb ctx), ctx).

(** ** The in-place conversions of the original interface *)

(** [WordsToBytes (length, words)] converts the array in place and returns
    its address as a byte pointer.  The result is the pair of the bytes
    that the returned pointer addresses and of [words] after the call: the
    two are the same memory. *)
Definition WordsToBytes (length : nat) (words : list Z) : list Z * list Z :=
  let words :=
    if IsBigEndian then
      for_loop 0 length (fun i words => upd i (ReverseWord (nth i words 0)) words) words
    else words in
  (flat_map (object_bytes 8) words, words).

(** [BytesToWords (length, bytes)], [length] counting bytes: the pair of the
    words that the returned pointer addresses and of [bytes] after the
    call.  The buffer holds [List.length bytes / 8] whole words; the bytes
    behind the last whole word are not part of any. *)
Definition BytesToWords (length : nat) (bytes : list Z) : list Z * list Z :=
  let count := (List.length bytes / 8)%nat in
  let words := memory_words count bytes in
  let words :=
    if IsBigEndian then
      for_loop 0 (length / 8)
        (fun i words => upd i (ReverseWord (nth i words 0)) words) words
    else words in
  (words, flat_map (object_bytes 8) words ++ skipn (count * 8) bytes).

(** ** Vocabulary of the proofs *)

(** [f i x] for the element [x] at index [i], counting from [i0]. *)
Fixpoint imap (f : nat -> Z -> Z) (i0 : nat) (l : list Z) : list Z :=
  match l with
  | [] => []
  | x :: r => f i0 x :: imap f (S i0) r
  end.

(** The canonical (least significant byte first) serialization of words
    and its inverse on [n] words. *)
Definition canonical_bytes (words : list Z) : list Z := flat_map (le_bytes 8) words.

Fixpoint canonical_words (n : nat) (bytes : list Z) : list Z :=
  match n with
  | O => []
  | S m => le_word (firstn 8 bytes) :: canonical_words m (skipn 8 bytes)
  end.

(** [length s = n] and every word in range: what [uint64_t state[n]] says. *)
Definition words_ok (n : nat) (s : list Z) : Prop := length s = n /\ Forall u64 s.

(** [table] has at least [rows] rows of at least [cols] entries, all of
    them [uint8_t] values. *)
Definition table_bytes (table : list (list Z)) (rows cols : nat) : Prop :=
  forall t x, (t < rows)%nat -> 0 <= x < Z.of_nat cols -> u8 (lookup table t x).

(** The bytes of a word, each sent through the table selected by its
    position modulo 4. *)
Definition substitute_bytes (sboxes : list (list Z)) (bs : list Z) : list Z :=
  imap (fun k b => lookup sboxes (k mod 4) b) 0 bs.

(** The block widths of the supported configurations. *)
Definition block_words (n : nat) : Prop := n = 2%nat \/ n = 4%nat \/ n = 8%nat.

(** The product of the 8x8 matrix [matrix] with the column [v] over
    GF(2^8): entry [row] is the XOR of the products [v[b] * matrix[row][b]]. *)
Definition matrix_column (matrix : list (list Z)) (v : list Z) : list Z :=
  map (fun row =>
         xor_sum (map (fun b => MultiplyGF (nth b v 0) (lookup matrix row (Z.of_nat b)))
                      (seq 0 8)))
      (seq 0 8).

(** Entry [(row, b)] of the product [inv * matrix] over GF(2^8). *)
Definition matrix_product_entry (inv matrix : list (list Z)) (row b : nat) : Z :=
  xor_sum (map (fun k => MultiplyGF (lookup matrix k (Z.of_nat b))
                                    (lookup inv row (Z.of_nat k)))
               (seq 0 8)).

(** A context of a supported width whose state and round keys are blocks
    of [nb] [uint64_t] values. *)
Definition ctx_ok (ctx : kalyna_t) : Prop :=
  block_words (nb ctx) /\
  words_ok (nb ctx) (state ctx) /\
  Forall (words_ok (nb ctx)) (round_keys ctx).

(** [ctx'] differs from [ctx] in its state at most. *)
Definition frame (ctx ctx' : kalyna_t) : Prop :=
  nb ctx' = nb ctx /\ nk ctx' = nk ctx /\ nr ctx' = nr ctx /\
  round_keys ctx' = round_keys ctx.

(** What [KalynaEncipher] and [KalynaDecipher] do between loading the
    state and emitting it. *)
Definition encipher_core (ctx : kalyna_t) : kalyna_t :=
  AddRoundKey (nr ctx)
    (EncipherRound
       (for_from 1 (nr ctx - 1)
          (fun round c => XorRoundKey round (EncipherRound c)) (AddRoundKey 0 ctx))).

Definition decipher_core (ctx : kalyna_t) : kalyna_t :=
  SubRoundKey 0
    (DecipherRound
       (for_down 1 (nr ctx - 1)
          (fun round c => XorRoundKey round (DecipherRound c))
          (SubRoundKey (nr ctx) ctx))).

(** The sequence of operations that the specification gives for
    [Encipher], between the load of the plaintext and the emission of the
    ciphertext: [AddRoundKey(0)]; for round = 1 .. nr-1, [EncipherRound]
    then [XorRoundKey(round)]; one final [EncipherRound]; [AddRoundKey(nr)]. *)
Definition encipher_sequence (nr : nat) : list (kalyna_t -> kalyna_t) :=
  [AddRoundKey 0]
  ++ flat_map (fun round => [EncipherRound; XorRoundKey round]) (seq 1 (nr - 1))
  ++ [EncipherRound; AddRoundKey nr].

(** Carrying out a sequence of operations, first to last. *)
Definition perform (ops : list (kalyna_t -> kalyna_t)) (ctx : kalyna_t) : kalyna_t :=
  fold_left (fun c op => op c) ops ctx.

(** [Encipher] as the specification words it. *)
Definition Encipher_as_specified (plaintext : list Z) (ctx : kalyna_t) (ciphertext : list Z)
  : list Z * kalyna_t :=
  let loaded := set_state ctx (blit (state ctx) 0 plaintext 0 (nb ctx)) in
  let final := perform (encipher_sequence (nr ctx)) loaded in
  (blit ciphertext 0 (state final) 0 (nb ctx), final).

(** A byte buffer rotated left by [k] bytes: the first [k] bytes move to
    the end. *)
Definition rotate_left_bytes (k : nat) (bs : list Z) : list Z :=
  skipn k bs ++ firstn k bs.

(** The [n]-word block [ws], seen as [n * 8] bytes in canonical order,
    rotated left by [2 * n + 3] bytes. *)
Definition rotate_left_words (n : nat) (ws : list Z) : list Z :=
  canonical_words n (rotate_left_bytes (2 * n + 3) (canonical_bytes ws)).

(** The round-key array has its [nr + 1] entries. *)
Definition schedule_ok (ctx : kalyna_t) : Prop :=
  length (round_keys ctx) = S (nr ctx).

(** The parameters are those of a supported configuration as far as the
    key schedule depends on them: a single or double length key and an even
    number of rounds. *)
Definition parameters_ok (ctx : kalyna_t) : Prop :=
  (nk ctx = nb ctx \/ nk ctx = (2 * nb ctx)%nat) /\ exists h, nr ctx = (2 * h)%nat.

(** [ctx'] has the parameters of [ctx] and as many round keys. *)
Definition same_shape (ctx ctx' : kalyna_t) : Prop :=
  nb ctx' = nb ctx /\ nk ctx' = nk ctx /\ nr ctx' = nr ctx /\
  length (round_keys ctx') = length (round_keys ctx).

(** What holds of a context in every state of its life cycle, for every
    supported configuration. *)
Definition context_ok (ctx : kalyna_t) : Prop :=
  ctx_ok ctx /\ schedule_ok ctx /\ parameters_ok ctx.

(** The five valid combinations of block size and key size, in bits. *)
Definition supported (block_size key_size : Z) : Prop :=
  (block_size = 128 /\ key_size = 128) \/
  (block_size = 128 /\ key_size = 256) \/
  (block_size = 256 /\ key_size = 256) \/
  (block_size = 256 /\ key_size = 512) \/
  (block_size = 512 /\ key_size = 512).

(** The number of rounds that the specification gives for them: 10, 14,
    14, 18 and 18. *)
Definition specified_rounds (block_size key_size : Z) : nat :=
  if (block_size =? 128) && (key_size =? 128) then 10
  else if (block_size =? 128) && (key_size =? 256) then 14
  else if (block_size =? 256) && (key_size =? 256) then 14
  else if (block_size =? 256) && (key_size =? 512) then 18
  else if (block_size =? 512) && (key_size =? 512) then 18
  else 0.

(** The allocator that never fails. *)
Definition always (k : nat) : bool := true.

(** Every round key of the context is zero, as [KalynaInit] leaves them. *)
Definition zero_keys (ctx : kalyna_t) : Prop :=
  forall round i, nth i (round_key ctx round) 0 = 0.

(** One left shift of a [uint64_t] word by one bit. *)
Definition shift_word (w : Z) : Z := to_u64 (Z.shiftl w 1).

(** [initial_data] at the end of a pass of the loop of [KeyExpandEven], as
    the specification words it: rotated left by [nb] words when
    [nk != nb], not rotated when [nk == nb]. *)
Definition initial_data_as_specified (nb nk : nat) (initial_data : list Z) : list Z :=
  if (nk =? nb)%nat then initial_data
  else skipn nb initial_data ++ firstn nb initial_data.

(** The loop state with which [KeyExpandEven] enters its loop, for a context
    [ctx] and a key [key]. *)
Definition first_pass (ctx : kalyna_t) (key : list Z) : even_loop :=
  mk_even_loop 0 (repeat 0x0001000100010001 (nb ctx)) key ctx.

(** ** Vocabulary of the further properties *)

(** The state buffer has the [nb] words that [KalynaInit] gave it. *)
Definition state_sized (ctx : kalyna_t) : Prop := length (state ctx) = nb ctx.

(** A context that carries a block of [n] words and nothing else, and the
    block that a context carries. *)
Definition block_context (n : nat) (s : list Z) : kalyna_t := mk_kalyna n 0 0 s [].

Definition block_of (ctx : kalyna_t) : kalyna_t := block_context (nb ctx) (state ctx).

(** The intermediate key of the key schedule for [n]-word blocks and a
    [k]-word key: the block [(n + k + 1, 0, ..., 0)] after [+ k0],
    [EncipherRound], [XOR k1], [EncipherRound], [+ k0], [EncipherRound],
    where [k0] is the first [n] words of the key and [k1] the next [n]
    words, or [k0] again for a key of [n] words. *)
Definition intermediate_key (n k : nat) (key : list Z) : list Z :=
  let k0 := firstn n key in
  let k1 := if (n =? k)%nat then firstn n key else firstn n (skipn n key) in
  state
    (EncipherRound
       (AddRoundKeyExpand k0
          (EncipherRound
             (XorRoundKeyExpand k1
                (EncipherRound
                   (AddRoundKeyExpand k0
                      (block_context n (Z.of_nat (n + k + 1) :: repeat 0 (n - 1))))))))).

(** The round key that the key schedule derives from the intermediate key
    [kt], the counter block [tmv] and [n] words [data] of the key: with
    [kt_round = kt + tmv], the block [data] after [+ kt_round],
    [EncipherRound], [XOR kt_round], [EncipherRound], [+ kt_round]. *)
Definition even_round_key (n : nat) (kt tmv data : list Z) : list Z :=
  let kt_round := state (AddRoundKeyExpand tmv (block_context n kt)) in
  state
    (AddRoundKeyExpand kt_round
       (EncipherRound
          (XorRoundKeyExpand kt_round
             (EncipherRound
                (AddRoundKeyExpand kt_round (block_context n data)))))).

(** The counter block of the key schedule after [j] left shifts. *)
Definition counter_block (n j : nat) : list Z :=
  repeat (Nat.iter j shift_word 0x0001000100010001) n.

(** The [n] words of [key] from the index [start] on, taken cyclically. *)
Definition key_window (key : list Z) (n start : nat) : list Z :=
  map (fun i => nth ((start + i) mod length key) key 0) (seq 0 n).

(** The round key of even index [2 * j] that the key schedule derives from
    the intermediate key [kt] and the key [key], for [n]-word blocks and a
    key of [q * n] words. *)
Definition even_key_from (n q : nat) (kt key : list Z) (j : nat) : list Z :=
  even_round_key n kt (counter_block n j) (key_window key n (j / q + j mod q * n)).

(** The same with the intermediate key of [key], for a key of [k] words. *)
Definition even_key_of (n k : nat) (key : list Z) (j : nat) : list Z :=
  even_key_from n (k / n) (intermediate_key n k key) key j.

(** * Properties *)

(** ** Finite-field arithmetic *)

(** *** Exhaustive checks over byte values *)


Lemma all_bytes_In (a : Z) : u8 a -> In a all_bytes.
Proof.
  intros [H0 H1]. unfold all_bytes.
  replace a with (Z.of_nat (Z.to_nat a)) by lia.
  apply in_map, in_seq. change (2 ^ 8) with 256 in H1. lia.
Qed.

Lemma forall_bytes (P : Z -> bool) :
  forallb P all_bytes = true -> forall a, u8 a -> P a = true.
Proof.
  intros H a Ha. rewrite forallb_forall in H. apply H, all_bytes_In, Ha.
Qed.

Lemma forall_bytes2 (P : Z -> Z -> bool) :
  forallb (fun a => forallb (P a) all_bytes) all_bytes = true ->
  forall a b, u8 a -> u8 b -> P a b = true.
Proof.
  intros H a b Ha Hb.
  apply (forall_bytes (P a)); [|exact Hb].
  apply (forall_bytes (fun a => forallb (P a) all_bytes)); assumption.
Qed.

Lemma MultiplyGF_comm_bytes (a b : Z) :
  u8 a -> u8 b -> MultiplyGF a b = MultiplyGF b a.
Proof.
  intros Ha Hb. apply Z.eqb_eq.
  apply (forall_bytes2 (fun a b => MultiplyGF a b =? MultiplyGF b a));
    [vm_compute; reflexivity | exact Ha | exact Hb].
Qed.

Lemma MultiplyGF_1_r (a : Z) : u8 a -> MultiplyGF a 1 = a.
Proof.
  intros Ha. apply Z.eqb_eq.
  apply (forall_bytes (fun a => MultiplyGF a 1 =? a));
    [vm_compute; reflexivity | exact Ha].
Qed.

Lemma MultiplyGF_0_r (a : Z) : u8 a -> MultiplyGF a 0 = 0.
Proof.
  intros Ha. apply Z.eqb_eq.
  apply (forall_bytes (fun a => MultiplyGF a 0 =? 0));
    [vm_compute; reflexivity | exact Ha].
Qed.

Lemma MultiplyGF_u8 (a b : Z) : u8 a -> u8 b -> u8 (MultiplyGF a b).
Proof.
  intros Ha Hb.
  assert (H : ((0 <=? MultiplyGF a b) && (MultiplyGF a b <? 256)) = true).
  { apply (forall_bytes2 (fun a b => (0 <=? MultiplyGF a b) && (MultiplyGF a b <? 256)));
      [vm_compute; reflexivity | exact Ha | exact Hb]. }
  apply andb_true_iff in H. destruct H as [H1 H2].
  apply Z.leb_le in H1. apply Z.ltb_lt in H2. split; [lia|]. exact H2.
Qed.

Lemma to_u8_mod (z : Z) : to_u8 z = z mod 2 ^ 8.
Proof. unfold to_u8. change 0xFF with (Z.ones 8). apply Z.land_ones. lia. Qed.

Lemma to_u8_u8 (z : Z) : u8 (to_u8 z).
Proof. rewrite to_u8_mod. unfold u8. apply Z.mod_pos_bound. lia. Qed.

Lemma lxor_bound (n a b : Z) :
  0 < n -> 0 <= a < 2 ^ n -> 0 <= b < 2 ^ n -> 0 <= Z.lxor a b < 2 ^ n.
Proof.
  intros Hn [Ha0 Ha1] [Hb0 Hb1]. split; [apply Z.lxor_nonneg; lia|].
  destruct (Z.eq_dec (Z.lxor a b) 0) as [E|E]; [rewrite E; lia|].
  assert (P : 0 <= Z.lxor a b) by (apply Z.lxor_nonneg; lia).
  apply Z.log2_lt_pow2; [lia|].
  eapply Z.le_lt_trans; [apply Z.log2_lxor; lia|].
  apply Z.max_lub_lt.
  - destruct (Z.eq_dec a 0) as [->|Na]; [cbn; lia | apply Z.log2_lt_pow2; lia].
  - destruct (Z.eq_dec b 0) as [->|Nb]; [cbn; lia | apply Z.log2_lt_pow2; lia].
Qed.

Lemma lxor_u8 (a b : Z) : u8 a -> u8 b -> u8 (Z.lxor a b).
Proof. apply (lxor_bound 8). reflexivity. Qed.

(** *** Linearity of the multiplication loop *)


Lemma MultiplyGF_step_eq (x y r : Z) :
  MultiplyGF_step (x, y, r) =
  (xtime x, Z.shiftr y 1, if Z.land y 0x1 =? 1 then Z.lxor r x else r).
Proof. reflexivity. Qed.

Lemma xtime_u8 (x : Z) : u8 (xtime x).
Proof. unfold xtime. destruct (_ =? _); apply to_u8_u8. Qed.

Lemma xtime_lxor (a b : Z) :
  u8 a -> u8 b -> xtime (Z.lxor a b) = Z.lxor (xtime a) (xtime b).
Proof.
  intros Ha Hb. apply Z.eqb_eq.
  apply (forall_bytes2 (fun a b => xtime (Z.lxor a b) =? Z.lxor (xtime a) (xtime b)));
    [vm_compute; reflexivity | exact Ha | exact Hb].
Qed.

Lemma MultiplyGF_loop_lxor (n i : nat) (x1 x2 y r1 r2 : Z) :
  u8 x1 -> u8 x2 ->
  snd (for_from i n (fun _ => MultiplyGF_step) (Z.lxor x1 x2, y, Z.lxor r1 r2)) =
  Z.lxor (snd (for_from i n (fun _ => MultiplyGF_step) (x1, y, r1)))
         (snd (for_from i n (fun _ => MultiplyGF_step) (x2, y, r2))).
Proof.
  revert i x1 x2 y r1 r2.
  induction n as [|n IH]; intros i x1 x2 y r1 r2 H1 H2; [reflexivity|].
  cbn [for_from]. rewrite !MultiplyGF_step_eq, xtime_lxor by assumption.
  destruct (Z.land y 1 =? 1).
  - replace (Z.lxor (Z.lxor r1 r2) (Z.lxor x1 x2))
      with (Z.lxor (Z.lxor r1 x1) (Z.lxor r2 x2)).
    + apply IH; apply xtime_u8.
    + rewrite !Z.lxor_assoc. f_equal.
      rewrite <- !Z.lxor_assoc. f_equal. apply Z.lxor_comm.
  - apply IH; apply xtime_u8.
Qed.

Lemma MultiplyGF_snd (x y : Z) :
  MultiplyGF x y = snd (for_from 0 8 (fun _ => MultiplyGF_step) (x, y, 0)).
Proof.
  unfold MultiplyGF, for_loop. cbn [Nat.sub].
  destruct (for_from 0 8 _ _) as [[a b] c]. reflexivity.
Qed.

Lemma MultiplyGF_lxor_l (a b c : Z) :
  u8 a -> u8 b ->
  MultiplyGF (Z.lxor a b) c = Z.lxor (MultiplyGF a c) (MultiplyGF b c).
Proof.
  intros Ha Hb. rewrite !MultiplyGF_snd.
  change 0 with (Z.lxor 0 0) at 1. apply MultiplyGF_loop_lxor; assumption.
Qed.

Lemma MultiplyGF_lxor_r (a b c : Z) :
  u8 a -> u8 b -> u8 c ->
  MultiplyGF c (Z.lxor a b) = Z.lxor (MultiplyGF c a) (MultiplyGF c b).
Proof.
  intros Ha Hb Hc.
  rewrite (MultiplyGF_comm_bytes c (Z.lxor a b)), (MultiplyGF_comm_bytes c a),
    (MultiplyGF_comm_bytes c b); auto using lxor_u8.
  apply MultiplyGF_lxor_l; assumption.
Qed.

(** *** XOR-sums and maps that are additive over XOR *)





Lemma u8_0 : u8 0.
Proof. unfold u8. lia. Qed.

Lemma basis_u8 (e : Z) : In e basis -> u8 e.
Proof. unfold basis, u8. cbn. intuition lia. Qed.

Lemma xor_sum_cons (a : Z) (l : list Z) :
  xor_sum (a :: l) = Z.lxor a (xor_sum l).
Proof. reflexivity. Qed.

Lemma xor_sum_u8 (l : list Z) : Forall u8 l -> u8 (xor_sum l).
Proof.
  induction 1 as [|a l Ha _ IH]; [apply u8_0|].
  rewrite xor_sum_cons. apply lxor_u8; assumption.
Qed.

Lemma byte_decomp (x : Z) : u8 x -> x = xor_sum (map (bit_part x) basis).
Proof.
  intros Hx. apply Z.eqb_eq.
  apply (forall_bytes (fun x => x =? xor_sum (map (bit_part x) basis)));
    [vm_compute; reflexivity | exact Hx].
Qed.

Lemma additive_0 (f : Z -> Z) : additive f -> f 0 = 0.
Proof.
  intros Hf. pose proof (Hf 0 0 u8_0 u8_0) as H.
  cbn in H. rewrite Z.lxor_nilpotent in H. exact H.
Qed.

Lemma additive_xor_sum (f : Z -> Z) (l : list Z) :
  additive f -> Forall u8 l -> f (xor_sum l) = xor_sum (map f l).
Proof.
  intros Hf. induction 1 as [|a l Ha Hl IH].
  - apply additive_0, Hf.
  - cbn [map]. rewrite !xor_sum_cons, Hf by auto using xor_sum_u8.
    rewrite IH. reflexivity.
Qed.

Lemma additive_ext (f g : Z -> Z) :
  additive f -> additive g ->
  (forall e, In e basis -> f e = g e) ->
  forall x, u8 x -> f x = g x.
Proof.
  intros Hf Hg Hb x Hx.
  assert (Hparts : Forall u8 (map (bit_part x) basis)).
  { apply Forall_forall. intros y Hy. apply in_map_iff in Hy.
    destruct Hy as [e [<- He]]. unfold bit_part.
    destruct (_ =? _); [apply u8_0 | apply basis_u8, He]. }
  rewrite (byte_decomp x Hx), !additive_xor_sum by assumption.
  f_equal. rewrite !map_map. apply map_ext_in. intros e He.
  unfold bit_part. destruct (_ =? _).
  - rewrite !additive_0; auto.
  - apply Hb, He.
Qed.

Lemma additive_compose (f g : Z -> Z) :
  additive f -> additive g -> (forall a, u8 a -> u8 (g a)) ->
  additive (fun a => f (g a)).
Proof. intros Hf Hg Hr a b Ha Hb. rewrite Hg by assumption. apply Hf; auto. Qed.

Lemma additive_mul_l (c : Z) : additive (fun a => MultiplyGF a c).
Proof. intros a b Ha Hb. apply MultiplyGF_lxor_l; assumption. Qed.

Lemma additive_mul_r (c : Z) : u8 c -> additive (fun a => MultiplyGF c a).
Proof. intros Hc a b Ha Hb. apply MultiplyGF_lxor_r; assumption. Qed.

(** *** Associativity *)

Lemma MultiplyGF_assoc_basis (x a b : Z) :
  In x basis -> In a basis -> In b basis ->
  MultiplyGF (MultiplyGF x a) b = MultiplyGF x (MultiplyGF a b).
Proof.
  intros Hx Ha Hb.
  assert (H : forallb (fun x => forallb (fun a => forallb (fun b =>
            MultiplyGF (MultiplyGF x a) b =? MultiplyGF x (MultiplyGF a b))
            basis) basis) basis = true) by (vm_compute; reflexivity).
  rewrite forallb_forall in H. specialize (H x Hx).
  rewrite forallb_forall in H. specialize (H a Ha).
  rewrite forallb_forall in H. specialize (H b Hb).
  apply Z.eqb_eq, H.
Qed.

Lemma MultiplyGF_assoc (x a b : Z) :
  u8 x -> u8 a -> u8 b ->
  MultiplyGF (MultiplyGF x a) b = MultiplyGF x (MultiplyGF a b).
Proof.
  intros Hx Ha Hb.
  assert (S1 : forall x a, In x basis -> In a basis -> forall b, u8 b ->
            MultiplyGF (MultiplyGF x a) b = MultiplyGF x (MultiplyGF a b)).
  { intros x0 a0 Hx0 Ha0.
    apply (additive_ext (fun b => MultiplyGF (MultiplyGF x0 a0) b)
                        (fun b => MultiplyGF x0 (MultiplyGF a0 b))).
    - apply additive_mul_r, MultiplyGF_u8; apply basis_u8; assumption.
    - apply (additive_compose (fun c => MultiplyGF x0 c) (fun b => MultiplyGF a0 b)).
      + apply additive_mul_r, basis_u8, Hx0.
      + apply additive_mul_r, basis_u8, Ha0.
      + intros c Hc. apply MultiplyGF_u8; [apply basis_u8|]; assumption.
    - intros e He. apply MultiplyGF_assoc_basis; assumption. }
  assert (S2 : forall x b, In x basis -> u8 b -> forall a, u8 a ->
            MultiplyGF (MultiplyGF x a) b = MultiplyGF x (MultiplyGF a b)).
  { intros x0 b0 Hx0 Hb0.
    apply (additive_ext (fun a => MultiplyGF (MultiplyGF x0 a) b0)
                        (fun a => MultiplyGF x0 (MultiplyGF a b0))).
    - apply (additive_compose (fun c => MultiplyGF c b0) (fun a => MultiplyGF x0 a)).
      + apply additive_mul_l.
      + apply additive_mul_r, basis_u8, Hx0.
      + intros c Hc. apply MultiplyGF_u8; [apply basis_u8|]; assumption.
    - apply (additive_compose (fun c => MultiplyGF x0 c) (fun a => MultiplyGF a b0)).
      + apply additive_mul_r, basis_u8, Hx0.
      + apply additive_mul_l.
      + intros c Hc. apply MultiplyGF_u8; assumption.
    - intros e He. apply S1; assumption. }
  revert x Hx.
  apply (additive_ext (fun x => MultiplyGF (MultiplyGF x a) b)
                      (fun x => MultiplyGF x (MultiplyGF a b))).
  - apply (additive_compose (fun c => MultiplyGF c b) (fun x => MultiplyGF x a)).
    + apply additive_mul_l.
    + apply additive_mul_l.
    + intros c Hc. apply MultiplyGF_u8; assumption.
  - apply additive_mul_l.
  - intros e He. apply S2; assumption.
Qed.

(** ** Arrays and loops *)

Lemma upd_length {A : Type} (i : nat) (v : A) (l : list A) :
  length (upd i v l) = length l.
Proof.
  revert i. induction l as [|x r IH]; intros [|j]; cbn; auto.
Qed.

Lemma upd_middle {A : Type} (pre : list A) (x v : A) (r : list A) :
  upd (length pre) v (pre ++ x :: r) = pre ++ v :: r.
Proof. induction pre as [|y pre IH]; cbn; [reflexivity | now rewrite IH]. Qed.

Lemma nth_upd_same {A : Type} (i : nat) (v d : A) (l : list A) :
  (i < length l)%nat -> nth i (upd i v l) d = v.
Proof.
  revert i. induction l as [|x r IH]; intros [|j] H; cbn in *; try lia; auto.
  apply IH. lia.
Qed.

Lemma nth_upd_other {A : Type} (i j : nat) (v d : A) (l : list A) :
  i <> j -> nth j (upd i v l) d = nth j l d.
Proof.
  revert i j. induction l as [|x r IH]; intros [|i] [|j] H; cbn; auto; try lia.
Qed.

Lemma for_from_fold {T : Type} (body : nat -> T -> T) (n i : nat) (s : T) :
  for_from i n body s = fold_left (fun a k => body k a) (seq i n) s.
Proof.
  revert i s. induction n as [|n IH]; intros i s; cbn; [reflexivity | apply IH].
Qed.

Lemma for_down_fold {T : Type} (body : nat -> T -> T) (n lo : nat) (s : T) :
  for_down lo n body s = fold_left (fun a k => body k a) (rev (seq lo n)) s.
Proof.
  revert s. induction n as [|n IH]; intros s; [reflexivity|].
  rewrite seq_S, rev_app_distr. cbn. apply IH.
Qed.

Lemma imap_length (f : nat -> Z -> Z) (i : nat) (l : list Z) :
  length (imap f i l) = length l.
Proof. revert i. induction l as [|x r IH]; intros i; cbn; auto. Qed.

Lemma nth_imap (f : nat -> Z -> Z) (l : list Z) (i k : nat) (d : Z) :
  (k < length l)%nat -> nth k (imap f i l) d = f (i + k)%nat (nth k l d).
Proof.
  revert i k. induction l as [|x r IH]; intros i [|k] H; cbn in *; try lia.
  - now rewrite Nat.add_0_r.
  - rewrite IH by lia. f_equal. lia.
Qed.

Lemma imap_map (f : nat -> Z -> Z) (g : Z -> Z) (l : list Z) (i : nat) :
  (forall k x, f k x = g x) -> imap f i l = map g l.
Proof.
  intros H. revert i. induction l as [|x r IH]; intros i; cbn; [reflexivity|].
  now rewrite H, IH.
Qed.

Lemma imap_Forall (P : Z -> Prop) (f : nat -> Z -> Z) (l : list Z) (i : nat) :
  (forall k x, P (f k x)) -> Forall P (imap f i l).
Proof.
  intros H. revert i. induction l as [|x r IH]; intros i; cbn; constructor; auto.
Qed.

(** A loop that rewrites each element of a stretch of the array from its
    own old value. *)
Lemma for_from_pointwise (f : nat -> Z -> Z) (r pre post : list Z) :
  for_from (length pre) (length r)
    (fun k s => upd k (f k (nth k s 0)) s) (pre ++ r ++ post) =
  pre ++ imap f (length pre) r ++ post.
Proof.
  revert pre. induction r as [|x r IH]; intros pre; [reflexivity|].
  cbn [length for_from imap app].
  rewrite nth_middle, upd_middle.
  change (pre ++ f (length pre) x :: r ++ post)
    with (pre ++ [f (length pre) x] ++ r ++ post).
  rewrite app_assoc.
  replace (S (length pre)) with (length (pre ++ [f (length pre) x]))
    by (rewrite length_app; cbn; lia).
  rewrite IH, <- app_assoc. reflexivity.
Qed.

Lemma for_loop_pointwise (f : nat -> Z -> Z) (n : nat) (l : list Z) :
  length l = n ->
  for_loop 0 n (fun k s => upd k (f k (nth k s 0)) s) l = imap f 0 l.
Proof.
  intros <-. unfold for_loop. rewrite Nat.sub_0_r.
  pose proof (for_from_pointwise f l [] []) as H.
  cbn [length app] in H. rewrite !app_nil_r in H. exact H.
Qed.

Lemma blit_all {A : Type} (dst src : list A) (n : nat) :
  length dst = n -> (n <= length src)%nat -> blit dst 0 src 0 n = firstn n src.
Proof.
  intros Hd Hs. unfold blit. cbn [firstn skipn app Nat.add].
  rewrite (skipn_all2 dst) by lia. apply app_nil_r.
Qed.

(** A copy that fills the whole destination does not depend on what the
    destination held. *)
Lemma blit_overwrite {A : Type} (dst src : list A) (off n : nat) :
  length dst = n -> blit dst 0 src off n = firstn n (skipn off src).
Proof.
  intros L. unfold blit. cbn [firstn app Nat.add].
  rewrite (skipn_all2 dst) by lia. apply app_nil_r.
Qed.

Lemma blit_scratch (src : list Z) (off n : nat) :
  blit (scratch n) 0 src off n = firstn n (skipn off src).
Proof.
  unfold blit, scratch. cbn [firstn app Nat.add].
  rewrite (skipn_all2 (repeat 0 n)) by (rewrite repeat_length; lia).
  apply app_nil_r.
Qed.

(** ** Codec *)

Lemma le_bytes_length (n : nat) (w : Z) : length (le_bytes n w) = n.
Proof. revert w. induction n as [|n IH]; intros w; cbn; auto. Qed.

Lemma le_bytes_u8 (n : nat) (w : Z) : Forall u8 (le_bytes n w).
Proof.
  revert w. induction n as [|n IH]; intros w; cbn; constructor; auto using to_u8_u8.
Qed.

Lemma lor_low_high (w : Z) : Z.lor (to_u8 w) (Z.shiftl (Z.shiftr w 8) 8) = w.
Proof.
  unfold to_u8. change 0xFF with (Z.ones 8).
  rewrite <- Z.ldiff_ones_r by lia. rewrite Z.lor_comm. apply Z.lor_ldiff_and.
Qed.

Lemma le_word_le_bytes (n : nat) (w : Z) :
  0 <= w < 2 ^ (8 * Z.of_nat n) -> le_word (le_bytes n w) = w.
Proof.
  revert w. induction n as [|n IH]; intros w Hw.
  - cbn in *. lia.
  - cbn [le_bytes le_word]. rewrite IH; [apply lor_low_high|].
    rewrite Z.shiftr_div_pow2 by lia.
    replace (8 * Z.of_nat (S n)) with (8 + 8 * Z.of_nat n) in Hw by lia.
    rewrite Z.pow_add_r in Hw by lia. split.
    + apply Z.div_pos; lia.
    + apply Z.div_lt_upper_bound; lia.
Qed.

Lemma land_u8_shiftl (b r : Z) : u8 b -> Z.land b (Z.shiftl r 8) = 0.
Proof.
  intros Hb.
  assert (E : b = Z.land b (Z.ones 8)).
  { rewrite Z.land_ones by lia. symmetry. apply Z.mod_small. exact Hb. }
  rewrite E, <- Z.land_assoc, (Z.land_comm (Z.ones 8)), Z.land_ones by lia.
  rewrite Z.shiftl_mul_pow2, Z.mod_mul by lia. apply Z.land_0_r.
Qed.

Lemma u8_low (b r : Z) : u8 b -> to_u8 (Z.lor b (Z.shiftl r 8)) = b.
Proof.
  intros Hb. unfold to_u8. change 0xFF with (Z.ones 8).
  rewrite Z.land_lor_distr_l, !Z.land_ones by lia.
  rewrite Z.shiftl_mul_pow2, Z.mod_mul, Z.lor_0_r by lia.
  apply Z.mod_small. exact Hb.
Qed.

Lemma u8_high (b r : Z) : u8 b -> Z.shiftr (Z.lor b (Z.shiftl r 8)) 8 = r.
Proof.
  intros Hb. rewrite Z.shiftr_lor, Z.shiftr_shiftl_l by lia.
  rewrite Z.shiftr_div_pow2, Z.div_small by (try exact Hb; lia).
  cbn. reflexivity.
Qed.

Lemma le_bytes_le_word (bs : list Z) :
  Forall u8 bs -> le_bytes (length bs) (le_word bs) = bs.
Proof.
  induction 1 as [|b r Hb Hr IH]; [reflexivity|].
  cbn [length le_word le_bytes]. rewrite u8_low, u8_high, IH by assumption.
  reflexivity.
Qed.

Lemma le_word_bound (bs : list Z) :
  Forall u8 bs -> 0 <= le_word bs < 2 ^ (8 * Z.of_nat (length bs)).
Proof.
  induction 1 as [|b r Hb Hr IH]; [cbn; lia|].
  cbn [length le_word].
  rewrite <- Z.lxor_lor, <- Z.add_nocarry_lxor by (apply land_u8_shiftl, Hb).
  rewrite Z.shiftl_mul_pow2 by lia.
  replace (8 * Z.of_nat (S (length r))) with (8 * Z.of_nat (length r) + 8) by lia.
  rewrite Z.pow_add_r by lia. unfold u8 in Hb. nia.
Qed.

Lemma le_word_u64 (bs : list Z) : Forall u8 bs -> length bs = 8%nat -> u64 (le_word bs).
Proof. intros H L. pose proof (le_word_bound bs H) as B. rewrite L in B. exact B. Qed.

Lemma reverse_loop (src dst : list Z) :
  length src = 8%nat -> length dst = 8%nat ->
  for_loop 0 8 (fun i dst => upd i (nth (8 - 1 - i) src 0) dst) dst = rev src.
Proof.
  intros Hs Hd.
  do 9 (destruct src as [|? src]; try discriminate Hs).
  do 9 (destruct dst as [|? dst]; try discriminate Hd).
  reflexivity.
Qed.

Lemma IsBigEndian_eq : IsBigEndian = host_big_endian.
Proof. unfold IsBigEndian, object_bytes. destruct host_big_endian; reflexivity. Qed.

Lemma ReverseWord_eq (w : Z) : ReverseWord w = le_word (rev (le_bytes 8 w)).
Proof.
  unfold ReverseWord, object_value, object_bytes.
  destruct host_big_endian;
    rewrite reverse_loop by (rewrite ?length_rev; apply le_bytes_length);
    rewrite ?rev_involutive; reflexivity.
Qed.

Lemma le_bytes_reversed (bs : list Z) :
  Forall u8 bs -> length bs = 8%nat -> le_bytes 8 (le_word (rev bs)) = rev bs.
Proof.
  intros H L. rewrite <- (le_bytes_le_word (rev bs)) at 2 by (apply Forall_rev, H).
  rewrite length_rev, L. reflexivity.
Qed.

(** Both byte orders of the host give the canonical serialization. *)
Lemma WordsToBytes_Inline_eq (n : nat) (words : list Z) :
  WordsToBytes_Inline n words = canonical_bytes (firstn n words).
Proof.
  unfold WordsToBytes_Inline, canonical_bytes, object_bytes.
  rewrite IsBigEndian_eq. destruct host_big_endian; [|reflexivity].
  apply flat_map_ext. intros w.
  rewrite ReverseWord_eq, le_bytes_reversed, rev_involutive;
    auto using le_bytes_u8, le_bytes_length.
Qed.

Lemma memory_words_length (n : nat) (bytes : list Z) :
  length (memory_words n bytes) = n.
Proof. revert bytes. induction n as [|n IH]; intros bytes; cbn; auto. Qed.

Lemma canonical_words_length (n : nat) (bytes : list Z) :
  length (canonical_words n bytes) = n.
Proof. revert bytes. induction n as [|n IH]; intros bytes; cbn; auto. Qed.

Lemma Forall_firstn {A : Type} (P : A -> Prop) (n : nat) (l : list A) :
  Forall P l -> Forall P (firstn n l).
Proof.
  intros H. rewrite <- (firstn_skipn n l) in H. apply Forall_app in H. tauto.
Qed.

Lemma Forall_skipn {A : Type} (P : A -> Prop) (n : nat) (l : list A) :
  Forall P l -> Forall P (skipn n l).
Proof.
  intros H. rewrite <- (firstn_skipn n l) in H. apply Forall_app in H. tauto.
Qed.

Lemma memory_words_reversed (n : nat) (bytes : list Z) :
  host_big_endian = true ->
  Forall u8 bytes -> (8 * n <= length bytes)%nat ->
  map ReverseWord (memory_words n bytes) = canonical_words n bytes.
Proof.
  intros E. revert bytes.
  induction n as [|n IH]; intros bytes Hb Hl; [reflexivity|].
  cbn [memory_words canonical_words map]. f_equal.
  - unfold object_value. rewrite E, ReverseWord_eq, le_bytes_reversed.
    + now rewrite rev_involutive.
    + apply Forall_firstn, Hb.
    + apply firstn_length_le. lia.
  - apply IH; [apply Forall_skipn, Hb | rewrite length_skipn; lia].
Qed.

Lemma memory_words_le (n : nat) (bytes : list Z) :
  host_big_endian = false -> memory_words n bytes = canonical_words n bytes.
Proof.
  intros E. revert bytes. induction n as [|n IH]; intros bytes; [reflexivity|].
  cbn [memory_words canonical_words]. unfold object_value. rewrite E, IH.
  reflexivity.
Qed.

Lemma BytesToWords_Inline_eq (n : nat) (bytes words : list Z) :
  Forall u8 bytes -> (8 * n <= length bytes)%nat ->
  BytesToWords_Inline n bytes words = canonical_words n bytes ++ skipn n words.
Proof.
  intros Hb Hl. unfold BytesToWords_Inline, blit.
  cbn [firstn skipn app Nat.add].
  rewrite firstn_all2 by (rewrite memory_words_length; lia).
  rewrite IsBigEndian_eq. destruct host_big_endian eqn:E.
  - unfold for_loop. rewrite Nat.sub_0_r.
    pose proof (for_from_pointwise (fun _ => ReverseWord)
                  (memory_words n bytes) [] (skipn n words)) as H.
    cbn [length app] in H. rewrite memory_words_length in H. rewrite H.
    rewrite (imap_map _ ReverseWord) by reflexivity.
    rewrite memory_words_reversed by assumption. reflexivity.
  - rewrite memory_words_le by assumption. reflexivity.
Qed.

Lemma canonical_bytes_length (ws : list Z) :
  length (canonical_bytes ws) = (8 * length ws)%nat.
Proof.
  induction ws as [|w ws IH]; [reflexivity|].
  unfold canonical_bytes in *. cbn [flat_map length].
  rewrite length_app, le_bytes_length, IH. lia.
Qed.

Lemma canonical_bytes_u8 (ws : list Z) : Forall u8 (canonical_bytes ws).
Proof.
  induction ws as [|w ws IH]; [constructor|].
  unfold canonical_bytes in *. cbn [flat_map].
  apply Forall_app. split; [apply le_bytes_u8 | exact IH].
Qed.

Lemma canonical_words_bytes (ws : list Z) :
  Forall u64 ws -> canonical_words (length ws) (canonical_bytes ws) = ws.
Proof.
  induction 1 as [|w ws Hw Hws IH]; [reflexivity|].
  unfold canonical_bytes in *. cbn [length canonical_words flat_map].
  rewrite firstn_app, skipn_app, le_bytes_length, Nat.sub_diag.
  rewrite firstn_all2, skipn_all2 by (rewrite le_bytes_length; lia).
  cbn [firstn skipn app]. rewrite app_nil_r, IH, le_word_le_bytes; [reflexivity|].
  exact Hw.
Qed.

Lemma canonical_bytes_words (n : nat) (bs : list Z) :
  Forall u8 bs -> length bs = (8 * n)%nat ->
  canonical_bytes (canonical_words n bs) = bs.
Proof.
  revert bs. induction n as [|n IH]; intros bs Hb Hl.
  - destruct bs; [reflexivity | discriminate].
  - unfold canonical_bytes in *. cbn [canonical_words flat_map].
    rewrite IH by (try apply Forall_skipn; try rewrite length_skipn; auto; lia).
    assert (L8 : length (firstn 8 bs) = 8%nat) by (apply firstn_length_le; lia).
    rewrite <- L8 at 1. rewrite le_bytes_le_word by (apply Forall_firstn, Hb).
    apply firstn_skipn.
Qed.

Lemma canonical_words_u64 (n : nat) (bs : list Z) :
  Forall u8 bs -> (8 * n <= length bs)%nat -> Forall u64 (canonical_words n bs).
Proof.
  revert bs. induction n as [|n IH]; intros bs Hb Hl; [constructor|].
  cbn [canonical_words]. constructor.
  - apply le_word_u64; [apply Forall_firstn, Hb | apply firstn_length_le; lia].
  - apply IH; [apply Forall_skipn, Hb | rewrite length_skipn; lia].
Qed.

(** ** The context record *)

Lemma set_state_set_state (ctx : kalyna_t) (a b : list Z) :
  set_state (set_state ctx a) b = set_state ctx b.
Proof. reflexivity. Qed.

Lemma set_state_same (ctx : kalyna_t) : set_state ctx (state ctx) = ctx.
Proof. destruct ctx; reflexivity. Qed.

Lemma words_ok_imap (f : nat -> Z -> Z) (n : nat) (s : list Z) :
  (forall k x, u64 (f k x)) -> length s = n -> words_ok n (imap f 0 s).
Proof.
  intros Hf Hl. split; [now rewrite imap_length | now apply imap_Forall].
Qed.

(** ** Substitution layer *)

Hypothesis sboxes_enc_bytes : table_bytes sboxes_enc 4 256.
Hypothesis sboxes_dec_bytes : table_bytes sboxes_dec 4 256.

(** The contract of the tables: [sboxes_dec[t][sboxes_enc[t][x]] == x]. *)
Hypothesis sboxes_inverse :
  forall t x, (t < 4)%nat -> u8 x -> lookup sboxes_dec t (lookup sboxes_enc t x) = x.

Lemma le_word8_flat (c0 c1 c2 c3 c4 c5 c6 c7 : Z) :
  le_word [c0; c1; c2; c3; c4; c5; c6; c7] =
  Z.lor (Z.lor (Z.lor (Z.lor (Z.lor (Z.lor (Z.lor c0
    (Z.shiftl c1 8)) (Z.shiftl c2 16)) (Z.shiftl c3 24)) (Z.shiftl c4 32))
    (Z.shiftl c5 40)) (Z.shiftl c6 48)) (Z.shiftl c7 56).
Proof.
  cbn [le_word]. rewrite Z.shiftl_0_l, Z.lor_0_r.
  rewrite !Z.shiftl_lor, !Z.shiftl_shiftl by lia. cbn [Z.add Pos.add Pos.succ].
  rewrite !Z.lor_assoc. reflexivity.
Qed.

Lemma le_bytes8_flat (s : Z) :
  le_bytes 8 s =
  [to_u8 s; to_u8 (Z.shiftr s 8); to_u8 (Z.shiftr s 16); to_u8 (Z.shiftr s 24);
   to_u8 (Z.shiftr s 32); to_u8 (Z.shiftr s 40); to_u8 (Z.shiftr s 48);
   to_u8 (Z.shiftr s 56)].
Proof.
  cbn [le_bytes]. rewrite !Z.shiftr_shiftr by lia. reflexivity.
Qed.

Lemma masked_byte (s m : Z) (k : Z) :
  0 <= k -> Z.shiftr m k = 0xFF ->
  Z.shiftr (Z.land s m) k = to_u8 (Z.shiftr s k).
Proof. intros Hk Hm. rewrite Z.shiftr_land, Hm. reflexivity. Qed.

Lemma substitute_word_eq (sboxes : list (list Z)) (s : Z) :
  substitute_word sboxes s = le_word (substitute_bytes sboxes (le_bytes 8 s)).
Proof.
  rewrite le_bytes8_flat. unfold substitute_bytes. cbn [imap].
  rewrite le_word8_flat. unfold substitute_word.
  rewrite !masked_byte by (try lia; reflexivity).
  reflexivity.
Qed.

Lemma substitute_bytes_u8 (sboxes : list (list Z)) (bs : list Z) :
  table_bytes sboxes 4 256 -> Forall u8 bs -> Forall u8 (substitute_bytes sboxes bs).
Proof.
  intros Ht Hb. apply Forall_nth. intros i d Hi.
  unfold substitute_bytes in *. rewrite imap_length in Hi.
  rewrite nth_imap by exact Hi. apply Ht.
  - apply Nat.mod_upper_bound. lia.
  - rewrite Forall_nth in Hb. apply (Hb i d Hi).
Qed.

Lemma substitute_word_u64 (sboxes : list (list Z)) (s : Z) :
  table_bytes sboxes 4 256 -> u64 (substitute_word sboxes s).
Proof.
  intros Ht. rewrite substitute_word_eq. apply le_word_u64.
  - apply substitute_bytes_u8; [exact Ht | apply le_bytes_u8].
  - unfold substitute_bytes. rewrite imap_length. apply le_bytes_length.
Qed.

(** Substituting through [t1] and then through [t2] gives the word back
    when [t2] undoes [t1] on every byte. *)
Lemma substitute_word_cancel (t1 t2 : list (list Z)) (s : Z) :
  table_bytes t1 4 256 ->
  (forall t x, (t < 4)%nat -> u8 x -> lookup t2 t (lookup t1 t x) = x) ->
  u64 s -> substitute_word t2 (substitute_word t1 s) = s.
Proof.
  intros Hb Hinv Hs. rewrite !substitute_word_eq.
  assert (L : length (substitute_bytes t1 (le_bytes 8 s)) = 8%nat)
    by (unfold substitute_bytes; rewrite imap_length; apply le_bytes_length).
  rewrite <- L at 1.
  rewrite le_bytes_le_word
    by (apply substitute_bytes_u8; [exact Hb | apply le_bytes_u8]).
  replace (substitute_bytes t2 (substitute_bytes t1 (le_bytes 8 s)))
    with (le_bytes 8 s); [apply le_word_le_bytes; exact Hs|].
  apply nth_ext with (d := 0) (d' := 0).
  - unfold substitute_bytes. now rewrite !imap_length.
  - intros i Hi. rewrite le_bytes_length in Hi. unfold substitute_bytes.
    rewrite !nth_imap by (rewrite ?imap_length, le_bytes_length; exact Hi).
    rewrite Hinv; [reflexivity | apply Nat.mod_upper_bound; lia |].
    pose proof (le_bytes_u8 8 s) as B. rewrite Forall_nth in B.
    apply B. now rewrite le_bytes_length.
Qed.

Lemma all_bytes_u8 (x : Z) : In x all_bytes -> u8 x.
Proof.
  unfold all_bytes. intros H. apply in_map_iff in H. destruct H as [n [<- Hn]].
  apply in_seq in Hn. unfold u8. change (2 ^ 8) with 256. lia.
Qed.

Lemma all_bytes_NoDup : NoDup all_bytes.
Proof.
  unfold all_bytes. apply NoDup_map_NoDup_ForallPairs; [|apply seq_NoDup].
  intros a b _ _ H. apply Nat2Z.inj, H.
Qed.

(** A map of the bytes to the bytes that has a left inverse has it as a
    right inverse too, there being as many values as arguments. *)
Lemma left_inverse_right_inverse (f g : Z -> Z) :
  (forall x, u8 x -> u8 (f x)) -> (forall x, u8 x -> g (f x) = x) ->
  forall y, u8 y -> f (g y) = y.
Proof.
  intros Hf Hgf y Hy.
  assert (N : NoDup (map f all_bytes)).
  { apply NoDup_map_NoDup_ForallPairs; [|apply all_bytes_NoDup].
    intros a b Ha Hb E. apply all_bytes_u8 in Ha, Hb.
    rewrite <- (Hgf a Ha), <- (Hgf b Hb), E. reflexivity. }
  assert (I : incl (map f all_bytes) all_bytes).
  { intros z Hz. apply in_map_iff in Hz. destruct Hz as [x [<- Hx]].
    apply all_bytes_In, Hf, all_bytes_u8, Hx. }
  assert (S : In y (map f all_bytes)).
  { apply (@NoDup_length_incl Z (map f all_bytes) all_bytes N);
      [rewrite length_map; apply le_n | exact I | apply all_bytes_In, Hy]. }
  apply in_map_iff in S. destruct S as [x [<- Hx]].
  rewrite Hgf by (apply all_bytes_u8, Hx). reflexivity.
Qed.

Lemma sboxes_inverse_r (t : nat) (y : Z) :
  (t < 4)%nat -> u8 y -> lookup sboxes_enc t (lookup sboxes_dec t y) = y.
Proof.
  intros Ht. apply left_inverse_right_inverse.
  - intros x Hx. apply sboxes_enc_bytes; [exact Ht | exact Hx].
  - intros x Hx. apply sboxes_inverse; assumption.
Qed.

Lemma SubBytes_eq (ctx : kalyna_t) :
  length (state ctx) = nb ctx ->
  SubBytes ctx = set_state ctx (map (substitute_word sboxes_enc) (state ctx)).
Proof.
  intros L. unfold SubBytes.
  rewrite (for_loop_pointwise (fun _ => substitute_word sboxes_enc)) by exact L.
  rewrite (imap_map _ (substitute_word sboxes_enc)) by reflexivity. reflexivity.
Qed.

Lemma InvSubBytes_eq (ctx : kalyna_t) :
  length (state ctx) = nb ctx ->
  InvSubBytes ctx = set_state ctx (map (substitute_word sboxes_dec) (state ctx)).
Proof.
  intros L. unfold InvSubBytes.
  rewrite (for_loop_pointwise (fun _ => substitute_word sboxes_dec)) by exact L.
  rewrite (imap_map _ (substitute_word sboxes_dec)) by reflexivity. reflexivity.
Qed.

Lemma words_ok_map (f : Z -> Z) (n : nat) (s : list Z) :
  (forall x, u64 (f x)) -> length s = n -> words_ok n (map f s).
Proof.
  intros Hf Hl. split; [now rewrite length_map|].
  apply Forall_forall. intros y Hy. apply in_map_iff in Hy.
  destruct Hy as [x [<- _]]. apply Hf.
Qed.

Lemma SubBytes_ok (ctx : kalyna_t) :
  length (state ctx) = nb ctx -> words_ok (nb ctx) (state (SubBytes ctx)).
Proof.
  intros L. rewrite SubBytes_eq by exact L. cbn [state set_state].
  apply words_ok_map; [|exact L].
  intros x. apply substitute_word_u64, sboxes_enc_bytes.
Qed.

Lemma InvSubBytes_ok (ctx : kalyna_t) :
  length (state ctx) = nb ctx -> words_ok (nb ctx) (state (InvSubBytes ctx)).
Proof.
  intros L. rewrite InvSubBytes_eq by exact L. cbn [state set_state].
  apply words_ok_map; [|exact L].
  intros x. apply substitute_word_u64, sboxes_dec_bytes.
Qed.

Lemma InvSubBytes_SubBytes (ctx : kalyna_t) :
  words_ok (nb ctx) (state ctx) -> InvSubBytes (SubBytes ctx) = ctx.
Proof.
  intros [L R]. rewrite (SubBytes_eq ctx L).
  rewrite InvSubBytes_eq by (cbn [state set_state nb]; now rewrite length_map).
  destruct ctx as [n k r s rk]. unfold set_state.
  cbn [state nb nk nr round_keys] in *. f_equal.
  rewrite map_map. rewrite <- (map_id s) at 2. apply map_ext_in.
  intros w Hw.
  apply (substitute_word_cancel sboxes_enc sboxes_dec w sboxes_enc_bytes sboxes_inverse).
  rewrite Forall_forall in R. apply R, Hw.
Qed.

Lemma SubBytes_InvSubBytes (ctx : kalyna_t) :
  words_ok (nb ctx) (state ctx) -> SubBytes (InvSubBytes ctx) = ctx.
Proof.
  intros [L R]. rewrite (InvSubBytes_eq ctx L).
  rewrite SubBytes_eq by (cbn [state set_state nb]; now rewrite length_map).
  destruct ctx as [n k r s rk]. unfold set_state.
  cbn [state nb nk nr round_keys] in *. f_equal.
  rewrite map_map. rewrite <- (map_id s) at 2. apply map_ext_in.
  intros w Hw.
  apply (substitute_word_cancel sboxes_dec sboxes_enc w sboxes_dec_bytes sboxes_inverse_r).
  rewrite Forall_forall in R. apply R, Hw.
Qed.

(** ** Permutation layer *)

(** Names the elements of a list [l] whose length [L] says is [n - 1]. *)
Tactic Notation "explode" ident(l) hyp(L) integer(n) :=
  do n (destruct l as [|? l]; try discriminate L).

Lemma for_from_invariant {T : Type} (Inv : T -> Prop) (body : nat -> T -> T) :
  (forall i s, Inv s -> Inv (body i s)) ->
  forall n i s, Inv s -> Inv (for_from i n body s).
Proof.
  intros Hb. induction n as [|n IH]; intros i s Hs; cbn; auto.
Qed.

Lemma for_loop_invariant {T : Type} (Inv : T -> Prop) (body : nat -> T -> T)
  (lo hi : nat) (s : T) :
  (forall i s, Inv s -> Inv (body i s)) -> Inv s -> Inv (for_loop lo hi body s).
Proof. intros Hb Hs. unfold for_loop. now apply for_from_invariant. Qed.

Lemma upd_Forall {A : Type} (P : A -> Prop) (i : nat) (v : A) (l : list A) :
  P v -> Forall P l -> Forall P (upd i v l).
Proof.
  intros Hv. revert i. induction l as [|x r IH]; intros i H; [destruct i; exact H|].
  inversion H; subst. destruct i; cbn; constructor; auto.
Qed.

Lemma nth_Forall (P : Z -> Prop) (i : nat) (l : list Z) :
  P 0 -> Forall P l -> P (nth i l 0).
Proof.
  intros H0 H. destruct (Nat.lt_ge_cases i (length l)) as [Hi|Hi].
  - rewrite Forall_nth in H. now apply H.
  - now rewrite nth_overflow.
Qed.

(** The byte-moving loops keep the length of [nstate] and only store bytes
    read from [state]. *)
Lemma ShiftRows_loops_ok (n : nat) (bytes nstate : list Z) :
  Forall u8 bytes -> Forall u8 nstate ->
  Forall u8 (ShiftRows_loops n bytes nstate) /\
  length (ShiftRows_loops n bytes nstate) = length nstate.
Proof.
  intros Hb Hn. unfold ShiftRows_loops.
  apply (for_loop_invariant
           (fun s : nat * list Z => Forall u8 (snd s) /\ length (snd s) = length nstate));
    [|split; [exact Hn | reflexivity]].
  intros row [shift ns] Hs. cbn [snd] in *.
  apply (for_loop_invariant (fun s => Forall u8 s /\ length s = length nstate));
    [|exact Hs].
  intros col s [H1 H2]. split.
  - apply upd_Forall; [apply nth_Forall; [apply u8_0 | exact Hb] | exact H1].
  - now rewrite upd_length.
Qed.

Lemma InvShiftRows_loops_ok (n : nat) (bytes nstate : list Z) :
  Forall u8 bytes -> Forall u8 nstate ->
  Forall u8 (InvShiftRows_loops n bytes nstate) /\
  length (InvShiftRows_loops n bytes nstate) = length nstate.
Proof.
  intros Hb Hn. unfold InvShiftRows_loops.
  apply (for_loop_invariant
           (fun s : nat * list Z => Forall u8 (snd s) /\ length (snd s) = length nstate));
    [|split; [exact Hn | reflexivity]].
  intros row [shift ns] Hs. cbn [snd] in *.
  apply (for_loop_invariant (fun s => Forall u8 s /\ length s = length nstate));
    [|exact Hs].
  intros col s [H1 H2]. split.
  - apply upd_Forall; [apply nth_Forall; [apply u8_0 | exact Hb] | exact H1].
  - now rewrite upd_length.
Qed.

Lemma scratch_u8 (n : nat) : Forall u8 (scratch n).
Proof. unfold scratch. apply Forall_forall. intros x Hx.
  apply repeat_spec in Hx. subst. apply u8_0. Qed.

Lemma scratch_length (n : nat) : length (scratch n) = n.
Proof. apply repeat_length. Qed.

(** The prefixes of the scratch buffers that the model keeps fit the
    [MAX_STATE_BYTES] bytes that the C code reserves for them. *)
Lemma scratch_fits (n : nat) :
  block_words n ->
  (n * 8 <= MAX_STATE_BYTES)%nat /\ (2 * n + 3 <= MAX_STATE_BYTES)%nat.
Proof. unfold block_words, MAX_STATE_BYTES. lia. Qed.

(** On the byte matrix of each supported width the two permutations undo
    each other; the matrix entries are left symbolic. *)
Lemma InvShiftRows_loops_ShiftRows_loops (n : nat) (bytes : list Z) :
  block_words n -> length bytes = (n * 8)%nat ->
  InvShiftRows_loops n (ShiftRows_loops n bytes (scratch (n * 8))) (scratch (n * 8))
  = bytes.
Proof.
  intros [-> | [-> | ->]] L.
  - explode bytes L 17.
    vm_compute. reflexivity.
  - explode bytes L 33.
    vm_compute. reflexivity.
  - explode bytes L 65.
    vm_compute. reflexivity.
Qed.

Lemma ShiftRows_loops_InvShiftRows_loops (n : nat) (bytes : list Z) :
  block_words n -> length bytes = (n * 8)%nat ->
  ShiftRows_loops n (InvShiftRows_loops n bytes (scratch (n * 8))) (scratch (n * 8))
  = bytes.
Proof.
  intros [-> | [-> | ->]] L.
  - explode bytes L 17.
    vm_compute. reflexivity.
  - explode bytes L 33.
    vm_compute. reflexivity.
  - explode bytes L 65.
    vm_compute. reflexivity.
Qed.

(** Every byte of [nstate] is overwritten: what the buffer held before is
    immaterial. *)
Lemma ShiftRows_loops_overwrite (n : nat) (bytes nstate : list Z) :
  block_words n -> length bytes = (n * 8)%nat -> length nstate = (n * 8)%nat ->
  ShiftRows_loops n bytes nstate = ShiftRows_loops n bytes (scratch (n * 8)) /\
  InvShiftRows_loops n bytes nstate = InvShiftRows_loops n bytes (scratch (n * 8)).
Proof.
  intros [-> | [-> | ->]] L L'.
  - explode bytes L 17.
    explode nstate L' 17.
    split; vm_compute; reflexivity.
  - explode bytes L 33.
    explode nstate L' 33.
    split; vm_compute; reflexivity.
  - explode bytes L 65.
    explode nstate L' 65.
    split; vm_compute; reflexivity.
Qed.

Lemma ShiftRows_eq (ctx : kalyna_t) :
  length (state ctx) = nb ctx ->
  ShiftRows ctx =
  set_state ctx
    (canonical_words (nb ctx)
       (ShiftRows_loops (nb ctx) (canonical_bytes (state ctx)) (scratch (nb ctx * 8)))).
Proof.
  intros L. unfold ShiftRows.
  rewrite WordsToBytes_Inline_eq, firstn_all2 by lia.
  destruct (ShiftRows_loops_ok (nb ctx) (canonical_bytes (state ctx))
              (scratch (nb ctx * 8)) (canonical_bytes_u8 _) (scratch_u8 _)) as [U Len].
  rewrite scratch_length in Len.
  rewrite BytesToWords_Inline_eq by (try exact U; lia).
  rewrite skipn_all2 by lia. now rewrite app_nil_r.
Qed.

Lemma InvShiftRows_eq (ctx : kalyna_t) :
  length (state ctx) = nb ctx ->
  InvShiftRows ctx =
  set_state ctx
    (canonical_words (nb ctx)
       (InvShiftRows_loops (nb ctx) (canonical_bytes (state ctx)) (scratch (nb ctx * 8)))).
Proof.
  intros L. unfold InvShiftRows.
  rewrite WordsToBytes_Inline_eq, firstn_all2 by lia.
  destruct (InvShiftRows_loops_ok (nb ctx) (canonical_bytes (state ctx))
              (scratch (nb ctx * 8)) (canonical_bytes_u8 _) (scratch_u8 _)) as [U Len].
  rewrite scratch_length in Len.
  rewrite BytesToWords_Inline_eq by (try exact U; lia).
  rewrite skipn_all2 by lia. now rewrite app_nil_r.
Qed.

Lemma ShiftRows_ok (ctx : kalyna_t) :
  length (state ctx) = nb ctx -> words_ok (nb ctx) (state (ShiftRows ctx)).
Proof.
  intros L. rewrite ShiftRows_eq by exact L. cbn [state set_state].
  destruct (ShiftRows_loops_ok (nb ctx) (canonical_bytes (state ctx))
              (scratch (nb ctx * 8)) (canonical_bytes_u8 _) (scratch_u8 _)) as [U Len].
  rewrite scratch_length in Len. split.
  - apply canonical_words_length.
  - apply canonical_words_u64; [exact U | lia].
Qed.

Lemma InvShiftRows_ok (ctx : kalyna_t) :
  length (state ctx) = nb ctx -> words_ok (nb ctx) (state (InvShiftRows ctx)).
Proof.
  intros L. rewrite InvShiftRows_eq by exact L. cbn [state set_state].
  destruct (InvShiftRows_loops_ok (nb ctx) (canonical_bytes (state ctx))
              (scratch (nb ctx * 8)) (canonical_bytes_u8 _) (scratch_u8 _)) as [U Len].
  rewrite scratch_length in Len. split.
  - apply canonical_words_length.
  - apply canonical_words_u64; [exact U | lia].
Qed.

Lemma InvShiftRows_ShiftRows (ctx : kalyna_t) :
  block_words (nb ctx) -> words_ok (nb ctx) (state ctx) ->
  InvShiftRows (ShiftRows ctx) = ctx.
Proof.
  intros B [L R]. rewrite (ShiftRows_eq ctx L).
  rewrite InvShiftRows_eq by (cbn [state set_state nb]; apply canonical_words_length).
  destruct (ShiftRows_loops_ok (nb ctx) (canonical_bytes (state ctx))
              (scratch (nb ctx * 8)) (canonical_bytes_u8 _) (scratch_u8 _)) as [U Len].
  rewrite scratch_length in Len.
  destruct ctx as [n k r s rk]. unfold set_state.
  cbn [state nb nk nr round_keys] in *. f_equal.
  rewrite canonical_bytes_words by (try exact U; lia).
  rewrite InvShiftRows_loops_ShiftRows_loops
    by (try exact B; rewrite canonical_bytes_length; lia).
  subst n. apply canonical_words_bytes, R.
Qed.

Lemma ShiftRows_InvShiftRows (ctx : kalyna_t) :
  block_words (nb ctx) -> words_ok (nb ctx) (state ctx) ->
  ShiftRows (InvShiftRows ctx) = ctx.
Proof.
  intros B [L R]. rewrite (InvShiftRows_eq ctx L).
  rewrite ShiftRows_eq by (cbn [state set_state nb]; apply canonical_words_length).
  destruct (InvShiftRows_loops_ok (nb ctx) (canonical_bytes (state ctx))
              (scratch (nb ctx * 8)) (canonical_bytes_u8 _) (scratch_u8 _)) as [U Len].
  rewrite scratch_length in Len.
  destruct ctx as [n k r s rk]. unfold set_state.
  cbn [state nb nk nr round_keys] in *. f_equal.
  rewrite canonical_bytes_words by (try exact U; lia).
  rewrite ShiftRows_loops_InvShiftRows_loops
    by (try exact B; rewrite canonical_bytes_length; lia).
  subst n. apply canonical_words_bytes, R.
Qed.

(** ** Diffusion layer *)

Hypothesis mds_matrix_bytes : table_bytes mds_matrix 8 8.
Hypothesis mds_inv_matrix_bytes : table_bytes mds_inv_matrix 8 8.

(** [mds_inv_matrix] is the inverse of [mds_matrix] over GF(2^8). *)
Hypothesis mds_inverse :
  forall row b, (row < 8)%nat -> (b < 8)%nat ->
  matrix_product_entry mds_inv_matrix mds_matrix row b = if (row =? b)%nat then 1 else 0.

(** ... on both sides. *)
Hypothesis mds_inverse_r :
  forall row b, (row < 8)%nat -> (b < 8)%nat ->
  matrix_product_entry mds_matrix mds_inv_matrix row b = if (row =? b)%nat then 1 else 0.

Lemma xor_sum_zeros {A : Type} (l : list A) : xor_sum (map (fun _ => 0) l) = 0.
Proof. induction l as [|a l IH]; [reflexivity|]. cbn [map]. now rewrite xor_sum_cons, IH. Qed.

Lemma xor_sum_map_lxor {A : Type} (f g : A -> Z) (l : list A) :
  xor_sum (map (fun j => Z.lxor (f j) (g j)) l) =
  Z.lxor (xor_sum (map f l)) (xor_sum (map g l)).
Proof.
  induction l as [|a l IH]; [reflexivity|].
  cbn [map]. rewrite !xor_sum_cons, IH.
  rewrite !Z.lxor_assoc. f_equal.
  rewrite <- !Z.lxor_assoc. f_equal. apply Z.lxor_comm.
Qed.

Lemma xor_sum_swap {A B : Type} (f : A -> B -> Z) (la : list A) (lb : list B) :
  xor_sum (map (fun i => xor_sum (map (f i) lb)) la) =
  xor_sum (map (fun j => xor_sum (map (fun i => f i j) la)) lb).
Proof.
  induction la as [|a la IH].
  - cbn [map]. now rewrite xor_sum_zeros.
  - cbn [map]. rewrite xor_sum_cons, IH.
    rewrite <- xor_sum_map_lxor. reflexivity.
Qed.

Lemma fold_lxor_rev {A : Type} (g : A -> Z) (l : list A) (a : Z) :
  fold_left (fun p k => Z.lxor p (g k)) (rev l) a = Z.lxor a (xor_sum (map g l)).
Proof.
  induction l as [|x l IH].
  - cbn. now rewrite Z.lxor_0_r.
  - cbn [rev map]. rewrite fold_left_app, IH, xor_sum_cons. cbn [fold_left].
    rewrite Z.lxor_assoc. f_equal. apply Z.lxor_comm.
Qed.

Lemma MatrixMultiply_product_eq (bytes : list Z) (matrix : list (list Z)) (col row : nat) :
  MatrixMultiply_product bytes matrix col row =
  xor_sum (map (fun b => MultiplyGF (nth (b + col * 8)%nat bytes 0)
                                    (lookup matrix row (Z.of_nat b)))
               (seq 0 8)).
Proof.
  unfold MatrixMultiply_product. rewrite for_down_fold.
  rewrite (fold_lxor_rev
             (fun b => MultiplyGF (nth (b + col * 8)%nat bytes 0)
                                  (lookup matrix row (Z.of_nat b)))).
  apply Z.lxor_0_l.
Qed.

Lemma MatrixMultiply_result_eq (bytes : list Z) (matrix : list (list Z)) (col : nat) :
  MatrixMultiply_result bytes matrix col =
  le_word (map (MatrixMultiply_product bytes matrix col) (seq 0 8)).
Proof.
  unfold MatrixMultiply_result. cbn [for_down seq map Nat.add].
  rewrite le_word8_flat. cbn [Nat.mul Nat.add Z.of_nat Pos.of_succ_nat Pos.succ].
  rewrite Z.shiftl_0_r, Z.lor_0_l.
  apply Z.bits_inj'. intros n Hn. rewrite !Z.lor_spec. btauto.
Qed.

Lemma nth_map_seq {A : Type} (f : nat -> A) (n k : nat) (d : A) :
  (k < n)%nat -> nth k (map f (seq 0 n)) d = f k.
Proof.
  intros H. rewrite (nth_indep _ d (f 0%nat)) by (rewrite length_map, length_seq; exact H).
  rewrite map_nth, seq_nth by exact H. reflexivity.
Qed.

Lemma nth_map_in (f : Z -> Z) (l : list Z) (k : nat) :
  (k < length l)%nat -> nth k (map f l) 0 = f (nth k l 0).
Proof.
  intros H. rewrite (nth_indep _ 0 (f 0)) by (rewrite length_map; exact H).
  apply map_nth.
Qed.

Lemma nth_canonical_bytes (ws : list Z) (col b : nat) :
  (col < length ws)%nat -> (b < 8)%nat ->
  nth (b + col * 8)%nat (canonical_bytes ws) 0 = nth b (le_bytes 8 (nth col ws 0)) 0.
Proof.
  revert col. induction ws as [|w ws IH]; intros col Hc Hb; [cbn in Hc; lia|].
  unfold canonical_bytes in *. cbn [flat_map]. destruct col as [|col].
  - rewrite Nat.add_0_r. apply app_nth1. rewrite le_bytes_length. exact Hb.
  - rewrite app_nth2 by (rewrite le_bytes_length; lia).
    rewrite le_bytes_length.
    replace (b + S col * 8 - 8)%nat with (b + col * 8)%nat by lia.
    apply IH; [cbn in Hc; lia | exact Hb].
Qed.

Lemma MatrixMultiply_eq (ctx : kalyna_t) (matrix : list (list Z)) :
  length (state ctx) = nb ctx ->
  MatrixMultiply ctx matrix =
  set_state ctx
    (map (fun w => le_word (matrix_column matrix (le_bytes 8 w))) (state ctx)).
Proof.
  intros L. unfold MatrixMultiply. f_equal.
  rewrite WordsToBytes_Inline_eq, firstn_all2 by lia.
  rewrite (for_loop_pointwise
             (fun col _ => MatrixMultiply_result (canonical_bytes (state ctx)) matrix col))
    by exact L.
  apply nth_ext with (d := 0) (d' := 0);
    [now rewrite imap_length, length_map|].
  intros col Hc. rewrite imap_length in Hc.
  rewrite nth_imap by exact Hc. cbn [Nat.add].
  rewrite nth_map_in by exact Hc. rewrite MatrixMultiply_result_eq. f_equal.
  unfold matrix_column. apply map_ext. intros row.
  rewrite MatrixMultiply_product_eq. f_equal.
  apply map_ext_in. intros b Hb. apply in_seq in Hb.
  rewrite nth_canonical_bytes by (try exact Hc; lia). reflexivity.
Qed.

Lemma matrix_column_length (matrix : list (list Z)) (v : list Z) :
  length (matrix_column matrix v) = 8%nat.
Proof. unfold matrix_column. now rewrite length_map, length_seq. Qed.

Lemma matrix_column_u8 (matrix : list (list Z)) (v : list Z) :
  table_bytes matrix 8 8 -> Forall u8 v -> Forall u8 (matrix_column matrix v).
Proof.
  intros Hm Hv. unfold matrix_column.
  apply Forall_forall. intros y Hy. apply in_map_iff in Hy.
  destruct Hy as [row [<- Hrow]]. apply in_seq in Hrow.
  apply xor_sum_u8. apply Forall_forall. intros z Hz. apply in_map_iff in Hz.
  destruct Hz as [b [<- Hb]]. apply in_seq in Hb.
  apply MultiplyGF_u8; [apply nth_Forall; [apply u8_0 | exact Hv]|].
  apply Hm; lia.
Qed.

Lemma xor_sum_select (v : list Z) (row : nat) :
  (row < 8)%nat ->
  xor_sum (map (fun b => if (row =? b)%nat then nth b v 0 else 0) (seq 0 8)) = nth row v 0.
Proof.
  intros H.
  do 8 (destruct row as [|row];
        [cbn; rewrite ?Z.lxor_0_r, ?Z.lxor_0_l; reflexivity|]).
  lia.
Qed.

(** Multiplying a column by [m] and then by [n] gives the column back when
    the product of [n] and [m] is the identity matrix. *)
Lemma matrix_column_cancel (m n : list (list Z)) (v : list Z) :
  table_bytes m 8 8 -> table_bytes n 8 8 ->
  (forall row b, (row < 8)%nat -> (b < 8)%nat ->
     matrix_product_entry n m row b = if (row =? b)%nat then 1 else 0) ->
  Forall u8 v -> length v = 8%nat ->
  matrix_column n (matrix_column m v) = v.
Proof.
  intros Hm Hn Hinv Hv Lv.
  apply nth_ext with (d := 0) (d' := 0); [now rewrite matrix_column_length|].
  intros row Hrow. rewrite matrix_column_length in Hrow.
  unfold matrix_column at 1. rewrite nth_map_seq by exact Hrow.
  rewrite <- (xor_sum_select v row Hrow).
  transitivity
    (xor_sum (map (fun k => xor_sum (map (fun b =>
       MultiplyGF (nth b v 0)
         (MultiplyGF (lookup m k (Z.of_nat b))
                     (lookup n row (Z.of_nat k)))) (seq 0 8))) (seq 0 8))).
  - f_equal. apply map_ext_in. intros k Hk. apply in_seq in Hk.
    unfold matrix_column. rewrite nth_map_seq by lia.
    rewrite (additive_xor_sum
               (fun a => MultiplyGF a (lookup n row (Z.of_nat k)))).
    + rewrite map_map. f_equal. apply map_ext_in. intros b Hb. apply in_seq in Hb.
      apply MultiplyGF_assoc.
      * apply nth_Forall; [apply u8_0 | exact Hv].
      * apply Hm; lia.
      * apply Hn; lia.
    + apply additive_mul_l.
    + apply Forall_forall. intros z Hz. apply in_map_iff in Hz.
      destruct Hz as [b [<- Hb]]. apply in_seq in Hb.
      apply MultiplyGF_u8; [apply nth_Forall; [apply u8_0 | exact Hv]|].
      apply Hm; lia.
  - rewrite xor_sum_swap. f_equal. apply map_ext_in. intros b Hb. apply in_seq in Hb.
    rewrite <- (map_map (fun k => MultiplyGF (lookup m k (Z.of_nat b))
                                   (lookup n row (Z.of_nat k)))
                        (fun c => MultiplyGF (nth b v 0) c)).
    rewrite <- (additive_xor_sum (fun c => MultiplyGF (nth b v 0) c)).
    + fold (matrix_product_entry n m row b).
      rewrite Hinv by lia.
      assert (Hu : u8 (nth b v 0)) by (apply nth_Forall; [apply u8_0 | exact Hv]).
      destruct (row =? b)%nat; [apply MultiplyGF_1_r | apply MultiplyGF_0_r]; exact Hu.
    + apply additive_mul_r. apply nth_Forall; [apply u8_0 | exact Hv].
    + apply Forall_forall. intros z Hz. apply in_map_iff in Hz.
      destruct Hz as [k [<- Hk]]. apply in_seq in Hk.
      apply MultiplyGF_u8; [apply Hm | apply Hn]; lia.
Qed.

Lemma MatrixMultiply_ok (ctx : kalyna_t) (matrix : list (list Z)) :
  table_bytes matrix 8 8 -> length (state ctx) = nb ctx ->
  words_ok (nb ctx) (state (MatrixMultiply ctx matrix)).
Proof.
  intros Hm L. rewrite MatrixMultiply_eq by exact L. cbn [state set_state].
  apply words_ok_map; [|exact L]. intros w. apply le_word_u64.
  - apply matrix_column_u8; [exact Hm | apply le_bytes_u8].
  - apply matrix_column_length.
Qed.

Lemma InvMixColumns_MixColumns (ctx : kalyna_t) :
  words_ok (nb ctx) (state ctx) -> InvMixColumns (MixColumns ctx) = ctx.
Proof.
  intros [L R]. unfold InvMixColumns, MixColumns.
  rewrite (MatrixMultiply_eq ctx _ L).
  rewrite MatrixMultiply_eq by (cbn [state set_state nb]; now rewrite length_map).
  destruct ctx as [n k r s rk]. unfold set_state.
  cbn [state nb nk nr round_keys] in *. f_equal.
  rewrite map_map. rewrite <- (map_id s) at 2. apply map_ext_in. intros w Hw.
  assert (L8 : length (matrix_column mds_matrix (le_bytes 8 w)) = 8%nat)
    by apply matrix_column_length.
  rewrite <- L8 at 1.
  rewrite le_bytes_le_word
    by (apply matrix_column_u8; [exact mds_matrix_bytes | apply le_bytes_u8]).
  rewrite (matrix_column_cancel mds_matrix mds_inv_matrix)
    by (try apply le_bytes_u8; try apply le_bytes_length; assumption).
  apply le_word_le_bytes. rewrite Forall_forall in R. apply R, Hw.
Qed.

Lemma MixColumns_InvMixColumns (ctx : kalyna_t) :
  words_ok (nb ctx) (state ctx) -> MixColumns (InvMixColumns ctx) = ctx.
Proof.
  intros [L R]. unfold InvMixColumns, MixColumns.
  rewrite (MatrixMultiply_eq ctx _ L).
  rewrite MatrixMultiply_eq by (cbn [state set_state nb]; now rewrite length_map).
  destruct ctx as [n k r s rk]. unfold set_state.
  cbn [state nb nk nr round_keys] in *. f_equal.
  rewrite map_map. rewrite <- (map_id s) at 2. apply map_ext_in. intros w Hw.
  assert (L8 : length (matrix_column mds_inv_matrix (le_bytes 8 w)) = 8%nat)
    by apply matrix_column_length.
  rewrite <- L8 at 1.
  rewrite le_bytes_le_word
    by (apply matrix_column_u8; [exact mds_inv_matrix_bytes | apply le_bytes_u8]).
  rewrite (matrix_column_cancel mds_inv_matrix mds_matrix)
    by (try apply le_bytes_u8; try apply le_bytes_length; assumption).
  apply le_word_le_bytes. rewrite Forall_forall in R. apply R, Hw.
Qed.

(** ** Round function *)

Lemma EncipherRound_ok (ctx : kalyna_t) :
  length (state ctx) = nb ctx -> words_ok (nb ctx) (state (EncipherRound ctx)).
Proof.
  intros L. unfold EncipherRound, MixColumns.
  apply (MatrixMultiply_ok (ShiftRows (SubBytes ctx)) mds_matrix mds_matrix_bytes).
  apply (ShiftRows_ok (SubBytes ctx)). apply (SubBytes_ok ctx L).
Qed.

Lemma DecipherRound_ok (ctx : kalyna_t) :
  length (state ctx) = nb ctx -> words_ok (nb ctx) (state (DecipherRound ctx)).
Proof.
  intros L. unfold DecipherRound.
  apply (InvSubBytes_ok (InvShiftRows (InvMixColumns ctx))).
  apply (InvShiftRows_ok (InvMixColumns ctx)).
  apply (MatrixMultiply_ok ctx mds_inv_matrix mds_inv_matrix_bytes L).
Qed.

Lemma DecipherRound_EncipherRound (ctx : kalyna_t) :
  block_words (nb ctx) -> words_ok (nb ctx) (state ctx) ->
  DecipherRound (EncipherRound ctx) = ctx.
Proof.
  intros B W. unfold DecipherRound, EncipherRound.
  pose proof (SubBytes_ok ctx (proj1 W)) as W1.
  pose proof (ShiftRows_ok (SubBytes ctx) (proj1 W1)) as W2.
  rewrite InvMixColumns_MixColumns by exact W2.
  rewrite InvShiftRows_ShiftRows by (try exact W1; exact B).
  apply InvSubBytes_SubBytes, W.
Qed.

Lemma EncipherRound_DecipherRound (ctx : kalyna_t) :
  block_words (nb ctx) -> words_ok (nb ctx) (state ctx) ->
  EncipherRound (DecipherRound ctx) = ctx.
Proof.
  intros B W. unfold DecipherRound, EncipherRound.
  pose proof (MatrixMultiply_ok ctx mds_inv_matrix mds_inv_matrix_bytes (proj1 W)) as W1.
  fold (InvMixColumns ctx) in W1.
  pose proof (InvShiftRows_ok (InvMixColumns ctx) (proj1 W1)) as W2.
  rewrite SubBytes_InvSubBytes by exact W2.
  rewrite ShiftRows_InvShiftRows by (try exact W1; exact B).
  apply MixColumns_InvMixColumns, W.
Qed.

Lemma EncipherRound_ctx_ok (ctx : kalyna_t) : ctx_ok ctx -> ctx_ok (EncipherRound ctx).
Proof.
  intros (B & W & K). split; [exact B|]. split; [|exact K].
  apply (EncipherRound_ok ctx (proj1 W)).
Qed.

Lemma DecipherRound_ctx_ok (ctx : kalyna_t) : ctx_ok ctx -> ctx_ok (DecipherRound ctx).
Proof.
  intros (B & W & K). split; [exact B|]. split; [|exact K].
  apply (DecipherRound_ok ctx (proj1 W)).
Qed.

(** ** Round-key mixing *)

Lemma lxor_u64 (a b : Z) : u64 a -> u64 b -> u64 (Z.lxor a b).
Proof. apply (lxor_bound 64). reflexivity. Qed.

Lemma to_u64_u64 (z : Z) : u64 (to_u64 z).
Proof. apply Z.mod_pos_bound. lia. Qed.

Lemma u64_0 : u64 0.
Proof. unfold u64. lia. Qed.

Lemma AddRoundKeyExpand_eq (value : list Z) (ctx : kalyna_t) :
  length (state ctx) = nb ctx ->
  AddRoundKeyExpand value ctx =
  set_state ctx (imap (fun i x => to_u64 (x + nth i value 0)) 0 (state ctx)).
Proof.
  intros L. unfold AddRoundKeyExpand.
  now rewrite (for_loop_pointwise (fun i x => to_u64 (x + nth i value 0))).
Qed.

Lemma XorRoundKeyExpand_eq (value : list Z) (ctx : kalyna_t) :
  length (state ctx) = nb ctx ->
  XorRoundKeyExpand value ctx =
  set_state ctx (imap (fun i x => Z.lxor x (nth i value 0)) 0 (state ctx)).
Proof.
  intros L. unfold XorRoundKeyExpand.
  now rewrite (for_loop_pointwise (fun i x => Z.lxor x (nth i value 0))).
Qed.

Lemma AddRoundKey_eq (round : nat) (ctx : kalyna_t) :
  length (state ctx) = nb ctx ->
  AddRoundKey round ctx =
  set_state ctx
    (imap (fun i x => to_u64 (x + nth i (round_key ctx round) 0)) 0 (state ctx)).
Proof. apply (AddRoundKeyExpand_eq (round_key ctx round) ctx). Qed.

Lemma SubRoundKey_eq (round : nat) (ctx : kalyna_t) :
  length (state ctx) = nb ctx ->
  SubRoundKey round ctx =
  set_state ctx
    (imap (fun i x => to_u64 (x - nth i (round_key ctx round) 0)) 0 (state ctx)).
Proof.
  intros L. unfold SubRoundKey.
  now rewrite (for_loop_pointwise (fun i x => to_u64 (x - nth i (round_key ctx round) 0))).
Qed.

Lemma XorRoundKey_eq (round : nat) (ctx : kalyna_t) :
  length (state ctx) = nb ctx ->
  XorRoundKey round ctx =
  set_state ctx
    (imap (fun i x => Z.lxor x (nth i (round_key ctx round) 0)) 0 (state ctx)).
Proof. apply (XorRoundKeyExpand_eq (round_key ctx round) ctx). Qed.

Lemma imap_id (f : nat -> Z -> Z) (l : list Z) (i : nat) :
  (forall k x, In x l -> f k x = x) -> imap f i l = l.
Proof.
  revert i. induction l as [|x r IH]; intros i H; [reflexivity|].
  cbn [imap]. rewrite H by (left; reflexivity).
  rewrite IH; [reflexivity|]. intros k y Hy. apply H. right. exact Hy.
Qed.

Lemma imap_imap (f g : nat -> Z -> Z) (l : list Z) (i : nat) :
  imap g i (imap f i l) = imap (fun k x => g k (f k x)) i l.
Proof.
  revert i. induction l as [|x r IH]; intros i; [reflexivity|].
  cbn [imap]. now rewrite IH.
Qed.

Lemma AddRoundKeyExpand_ok (value : list Z) (ctx : kalyna_t) :
  length (state ctx) = nb ctx ->
  words_ok (nb ctx) (state (AddRoundKeyExpand value ctx)).
Proof.
  intros L. rewrite AddRoundKeyExpand_eq by exact L. cbn [state set_state].
  apply words_ok_imap; [intros; apply to_u64_u64 | exact L].
Qed.

Lemma imap_Forall_in (P : Z -> Prop) (f : nat -> Z -> Z) (l : list Z) (i : nat) :
  (forall k x, In x l -> P (f k x)) -> Forall P (imap f i l).
Proof.
  revert i. induction l as [|x r IH]; intros i H; cbn [imap]; constructor.
  - apply H. left. reflexivity.
  - apply IH. intros k y Hy. apply H. right. exact Hy.
Qed.

Lemma XorRoundKeyExpand_ok (value : list Z) (ctx : kalyna_t) :
  Forall u64 value -> words_ok (nb ctx) (state ctx) ->
  words_ok (nb ctx) (state (XorRoundKeyExpand value ctx)).
Proof.
  intros Hv [L R]. rewrite XorRoundKeyExpand_eq by exact L. cbn [state set_state].
  split; [now rewrite imap_length|].
  apply imap_Forall_in. intros k x Hx. apply lxor_u64.
  - rewrite Forall_forall in R. apply R, Hx.
  - apply nth_Forall; [apply u64_0 | exact Hv].
Qed.

Lemma round_key_u64 (ctx : kalyna_t) (round : nat) :
  Forall (words_ok (nb ctx)) (round_keys ctx) -> Forall u64 (round_key ctx round).
Proof.
  intros K. unfold round_key.
  destruct (Nat.lt_ge_cases round (length (round_keys ctx))) as [H|H].
  - rewrite Forall_nth in K. apply (K round [] H).
  - rewrite nth_overflow by exact H. constructor.
Qed.

Lemma AddRoundKey_ctx_ok (round : nat) (ctx : kalyna_t) :
  ctx_ok ctx -> ctx_ok (AddRoundKey round ctx).
Proof.
  intros (B & W & K). split; [exact B|]. split; [|exact K].
  apply (AddRoundKeyExpand_ok (round_key ctx round) ctx (proj1 W)).
Qed.

Lemma SubRoundKey_ctx_ok (round : nat) (ctx : kalyna_t) :
  ctx_ok ctx -> ctx_ok (SubRoundKey round ctx).
Proof.
  intros (B & W & K). split; [exact B|]. split; [|exact K].
  rewrite SubRoundKey_eq by apply W. cbn [state set_state nb].
  apply words_ok_imap; [intros; apply to_u64_u64 | apply W].
Qed.

Lemma XorRoundKey_ctx_ok (round : nat) (ctx : kalyna_t) :
  ctx_ok ctx -> ctx_ok (XorRoundKey round ctx).
Proof.
  intros (B & W & K). split; [exact B|]. split; [|exact K].
  apply (XorRoundKeyExpand_ok (round_key ctx round) ctx); [|exact W].
  apply round_key_u64, K.
Qed.

Lemma SubRoundKey_AddRoundKey (round : nat) (ctx : kalyna_t) :
  words_ok (nb ctx) (state ctx) -> SubRoundKey round (AddRoundKey round ctx) = ctx.
Proof.
  intros [L R]. rewrite (AddRoundKey_eq round ctx L).
  rewrite SubRoundKey_eq by (cbn [state set_state nb]; now rewrite imap_length).
  destruct ctx as [n k r s rk]. unfold set_state, round_key.
  cbn [state nb nk nr round_keys] in *. f_equal.
  rewrite imap_imap. apply imap_id. intros i x Hx.
  unfold to_u64. rewrite Zminus_mod_idemp_l.
  replace (x + nth i (nth round rk []) 0 - nth i (nth round rk []) 0) with x by lia.
  apply Z.mod_small. rewrite Forall_forall in R. apply R, Hx.
Qed.

Lemma XorRoundKey_involutive (round : nat) (ctx : kalyna_t) :
  length (state ctx) = nb ctx -> XorRoundKey round (XorRoundKey round ctx) = ctx.
Proof.
  intros L. rewrite (XorRoundKey_eq round ctx L).
  rewrite XorRoundKey_eq by (cbn [state set_state nb]; now rewrite imap_length).
  destruct ctx as [n k r s rk]. unfold set_state, round_key.
  cbn [state nb nk nr round_keys] in *. f_equal.
  rewrite imap_imap. apply imap_id. intros i x Hx.
  now rewrite Z.lxor_assoc, Z.lxor_nilpotent, Z.lxor_0_r.
Qed.

(** ** Encipher and decipher *)

Lemma frame_refl (ctx : kalyna_t) : frame ctx ctx.
Proof. repeat split. Qed.

Lemma frame_trans (a b c : kalyna_t) : frame a b -> frame b c -> frame a c.
Proof.
  unfold frame. intros (A1 & A2 & A3 & A4) (B1 & B2 & B3 & B4).
  repeat split; congruence.
Qed.

Lemma frame_set_state (ctx : kalyna_t) (s : list Z) : frame ctx (set_state ctx s).
Proof. repeat split. Qed.

Lemma EncipherRound_frame (ctx : kalyna_t) : frame ctx (EncipherRound ctx).
Proof. repeat split. Qed.

Lemma DecipherRound_frame (ctx : kalyna_t) : frame ctx (DecipherRound ctx).
Proof. repeat split. Qed.

Lemma XorRoundKey_frame (round : nat) (ctx : kalyna_t) : frame ctx (XorRoundKey round ctx).
Proof. repeat split. Qed.

Lemma for_from_frame (body : nat -> kalyna_t -> kalyna_t) (n i : nat) (ctx : kalyna_t) :
  (forall k c, frame c (body k c)) -> frame ctx (for_from i n body ctx).
Proof.
  intros H. apply (for_from_invariant (frame ctx)); [|apply frame_refl].
  intros k c Hc. eapply frame_trans; [exact Hc | apply H].
Qed.

Lemma for_down_invariant {T : Type} (Inv : T -> Prop) (body : nat -> T -> T) :
  (forall i s, Inv s -> Inv (body i s)) ->
  forall n lo s, Inv s -> Inv (for_down lo n body s).
Proof.
  intros Hb. induction n as [|n IH]; intros lo s Hs; cbn; auto.
Qed.

Lemma for_down_frame (body : nat -> kalyna_t -> kalyna_t) (n lo : nat) (ctx : kalyna_t) :
  (forall k c, frame c (body k c)) -> frame ctx (for_down lo n body ctx).
Proof.
  intros H. apply (for_down_invariant (frame ctx)); [|apply frame_refl].
  intros k c Hc. eapply frame_trans; [exact Hc | apply H].
Qed.

Lemma for_from_last {T : Type} (body : nat -> T -> T) (n i : nat) (s : T) :
  for_from i (S n) body s = body (i + n)%nat (for_from i n body s).
Proof.
  revert i s. induction n as [|n IH]; intros i s.
  - cbn. now rewrite Nat.add_0_r.
  - change (for_from i (S (S n)) body s) with (for_from (S i) (S n) body (body i s)).
    rewrite IH. cbn [for_from]. f_equal. lia.
Qed.

Lemma encipher_rounds_frame (n : nat) (ctx : kalyna_t) :
  frame ctx (for_from 1 n (fun round c => XorRoundKey round (EncipherRound c)) ctx).
Proof. apply for_from_frame. intros k c. repeat split. Qed.

Lemma decipher_rounds_frame (n : nat) (ctx : kalyna_t) :
  frame ctx (for_down 1 n (fun round c => XorRoundKey round (DecipherRound c)) ctx).
Proof. apply for_down_frame. intros k c. repeat split. Qed.

Lemma encipher_rounds_ok (n : nat) (ctx : kalyna_t) :
  ctx_ok ctx ->
  ctx_ok (for_from 1 n (fun round c => XorRoundKey round (EncipherRound c)) ctx).
Proof.
  apply for_from_invariant. intros k c Hc.
  apply XorRoundKey_ctx_ok, EncipherRound_ctx_ok, Hc.
Qed.

Lemma decipher_rounds_ok (n : nat) (ctx : kalyna_t) :
  ctx_ok ctx ->
  ctx_ok (for_down 1 n (fun round c => XorRoundKey round (DecipherRound c)) ctx).
Proof.
  apply for_down_invariant. intros k c Hc.
  apply XorRoundKey_ctx_ok, DecipherRound_ctx_ok, Hc.
Qed.

Lemma for_down_S {T : Type} (body : nat -> T -> T) (n lo : nat) (s : T) :
  for_down lo (S n) body s = for_down lo n body (body (lo + n)%nat s).
Proof. reflexivity. Qed.

(** The interior rounds of the decipher loop undo those of the encipher
    loop, up to the final [EncipherRound]. *)
Lemma rounds_cancel (n : nat) (ctx : kalyna_t) :
  ctx_ok ctx ->
  for_down 1 n (fun round c => XorRoundKey round (DecipherRound c))
    (EncipherRound
       (for_from 1 n (fun round c => XorRoundKey round (EncipherRound c)) ctx))
  = EncipherRound ctx.
Proof.
  intros Hc. induction n as [|n IH]; [reflexivity|].
  rewrite for_from_last, for_down_S.
  pose proof (encipher_rounds_ok n ctx Hc) as Oc.
  pose proof (XorRoundKey_ctx_ok (1 + n) _ (EncipherRound_ctx_ok _ Oc)) as O1.
  rewrite (DecipherRound_EncipherRound _ (proj1 O1) (proj1 (proj2 O1))).
  rewrite (XorRoundKey_involutive (1 + n) _
             (proj1 (proj1 (proj2 (EncipherRound_ctx_ok _ Oc))))).
  exact IH.
Qed.

Lemma encipher_core_ok (ctx : kalyna_t) : ctx_ok ctx -> ctx_ok (encipher_core ctx).
Proof.
  intros H. unfold encipher_core.
  apply AddRoundKey_ctx_ok, EncipherRound_ctx_ok, encipher_rounds_ok,
    AddRoundKey_ctx_ok, H.
Qed.

Lemma encipher_core_frame (ctx : kalyna_t) : frame ctx (encipher_core ctx).
Proof.
  unfold encipher_core.
  eapply frame_trans; [|apply frame_set_state].
  eapply frame_trans; [|apply EncipherRound_frame].
  eapply frame_trans; [|apply encipher_rounds_frame].
  apply frame_set_state.
Qed.

Lemma decipher_core_frame (ctx : kalyna_t) : frame ctx (decipher_core ctx).
Proof.
  unfold decipher_core.
  eapply frame_trans; [|apply frame_set_state].
  eapply frame_trans; [|apply DecipherRound_frame].
  eapply frame_trans; [|apply decipher_rounds_frame].
  apply frame_set_state.
Qed.

Lemma decipher_core_encipher_core (ctx : kalyna_t) :
  ctx_ok ctx -> decipher_core (encipher_core ctx) = ctx.
Proof.
  intros H. unfold decipher_core.
  destruct (encipher_core_frame ctx) as (_ & _ & -> & _).
  unfold encipher_core.
  set (c2 := AddRoundKey 0 ctx).
  set (c3 := for_from 1 (nr ctx - 1) _ c2).
  assert (O2 : ctx_ok c2) by (apply AddRoundKey_ctx_ok, H).
  assert (O3 : ctx_ok c3) by (apply encipher_rounds_ok, O2).
  assert (O4 : ctx_ok (EncipherRound c3)) by (apply EncipherRound_ctx_ok, O3).
  rewrite SubRoundKey_AddRoundKey by apply O4.
  unfold c3. rewrite rounds_cancel by exact O2.
  rewrite DecipherRound_EncipherRound by apply O2.
  apply SubRoundKey_AddRoundKey, H.
Qed.

Lemma nr_AddRoundKey (round : nat) (ctx : kalyna_t) : nr (AddRoundKey round ctx) = nr ctx.
Proof. reflexivity. Qed.

Lemma nr_EncipherRound (ctx : kalyna_t) : nr (EncipherRound ctx) = nr ctx.
Proof. reflexivity. Qed.

Lemma nb_AddRoundKey (round : nat) (ctx : kalyna_t) : nb (AddRoundKey round ctx) = nb ctx.
Proof. reflexivity. Qed.

Lemma nb_SubRoundKey (round : nat) (ctx : kalyna_t) : nb (SubRoundKey round ctx) = nb ctx.
Proof. reflexivity. Qed.

Lemma encipher_steps (c1 : kalyna_t) (ciphertext : list Z) :
  (let ctx := AddRoundKey 0 c1 in
   let ctx :=
     for_loop 1 (nr ctx)
       (fun round ctx => XorRoundKey round (EncipherRound ctx)) ctx in
   let ctx := EncipherRound ctx in
   let ctx := AddRoundKey (nr ctx) ctx in
   (blit ciphertext 0 (state ctx) 0 (nb ctx), ctx)) =
  (blit ciphertext 0 (state (encipher_core c1)) 0 (nb c1), encipher_core c1).
Proof.
  cbv zeta. unfold for_loop.
  rewrite !nr_AddRoundKey, !nb_AddRoundKey, !nr_EncipherRound.
  destruct (encipher_rounds_frame (nr c1 - 1) (AddRoundKey 0 c1)) as (E1 & _ & E & _).
  rewrite E, !nr_AddRoundKey.
  destruct (EncipherRound_frame
              (for_from 1 (nr c1 - 1)
                 (fun round c => XorRoundKey round (EncipherRound c))
                 (AddRoundKey 0 c1))) as (E2 & _).
  rewrite E2, E1, nb_AddRoundKey. reflexivity.
Qed.

Lemma KalynaEncipher_eq (plaintext : list Z) (ctx : kalyna_t) (ciphertext : list Z) :
  KalynaEncipher plaintext ctx ciphertext =
  (blit ciphertext 0
     (state (encipher_core (set_state ctx (blit (state ctx) 0 plaintext 0 (nb ctx)))))
     0 (nb ctx),
   encipher_core (set_state ctx (blit (state ctx) 0 plaintext 0 (nb ctx)))).
Proof.
  exact (encipher_steps (set_state ctx (blit (state ctx) 0 plaintext 0 (nb ctx)))
           ciphertext).
Qed.

Lemma nr_SubRoundKey (round : nat) (ctx : kalyna_t) : nr (SubRoundKey round ctx) = nr ctx.
Proof. reflexivity. Qed.

Lemma decipher_steps (c1 : kalyna_t) (plaintext : list Z) :
  (let ctx := SubRoundKey (nr c1) c1 in
   let ctx :=
     for_down 1 (nr ctx - 1)
       (fun round ctx => XorRoundKey round (DecipherRound ctx)) ctx in
   let ctx := DecipherRound ctx in
   let ctx := SubRoundKey 0 ctx in
   (blit plaintext 0 (state ctx) 0 (nb ctx), ctx)) =
  (blit plaintext 0 (state (decipher_core c1)) 0 (nb c1), decipher_core c1).
Proof.
  cbv zeta. rewrite !nr_SubRoundKey, !nb_SubRoundKey.
  destruct (DecipherRound_frame
              (for_down 1 (nr c1 - 1)
                 (fun round c => XorRoundKey round (DecipherRound c))
                 (SubRoundKey (nr c1) c1))) as (E2 & _).
  destruct (decipher_rounds_frame (nr c1 - 1) (SubRoundKey (nr c1) c1)) as (E1 & _).
  rewrite E2, E1, nb_SubRoundKey. reflexivity.
Qed.

Lemma KalynaDecipher_eq (ciphertext : list Z) (ctx : kalyna_t) (plaintext : list Z) :
  KalynaDecipher ciphertext ctx plaintext =
  (blit plaintext 0
     (state (decipher_core (set_state ctx (blit (state ctx) 0 ciphertext 0 (nb ctx)))))
     0 (nb ctx),
   decipher_core (set_state ctx (blit (state ctx) 0 ciphertext 0 (nb ctx)))).
Proof.
  exact (decipher_steps (set_state ctx (blit (state ctx) 0 ciphertext 0 (nb ctx)))
           plaintext).
Qed.

Lemma blit_full {A : Type} (dst src : list A) (n : nat) :
  length dst = n -> length src = n -> blit dst 0 src 0 n = src.
Proof.
  intros Hd Hs. rewrite blit_all by lia. apply firstn_all2. lia.
Qed.

Lemma load_ok (ctx : kalyna_t) (block : list Z) :
  ctx_ok ctx -> words_ok (nb ctx) block ->
  set_state ctx (blit (state ctx) 0 block 0 (nb ctx)) = set_state ctx block /\
  ctx_ok (set_state ctx block).
Proof.
  intros (B & W & K) Hb. split.
  - rewrite blit_full; [reflexivity | apply W | apply Hb].
  - split; [exact B|]. split; [exact Hb | exact K].
Qed.

(** Deciphering what has been enciphered gives the plaintext back, on every
    well-formed context. *)
Lemma KalynaDecipher_KalynaEncipher
  (ctx : kalyna_t) (plaintext cbuf pbuf : list Z) :
  ctx_ok ctx -> words_ok (nb ctx) plaintext ->
  length cbuf = nb ctx -> length pbuf = nb ctx ->
  fst (KalynaDecipher (fst (KalynaEncipher plaintext ctx cbuf))
                      (snd (KalynaEncipher plaintext ctx cbuf)) pbuf) = plaintext.
Proof.
  intros Hc Hp Lc Lp. rewrite KalynaEncipher_eq. cbn [fst snd].
  destruct (load_ok ctx plaintext Hc Hp) as [-> O1].
  set (c1 := set_state ctx plaintext) in *.
  pose proof (encipher_core_ok c1 O1) as O5.
  destruct (encipher_core_frame c1) as (N5 & _).
  change (nb c1) with (nb ctx) in N5.
  rewrite KalynaDecipher_eq. cbn [fst snd]. rewrite N5.
  assert (L5 : length (state (encipher_core c1)) = nb ctx)
    by (rewrite <- N5; apply O5).
  rewrite (blit_full cbuf) by assumption.
  rewrite (blit_full (state (encipher_core c1))) by assumption.
  rewrite set_state_same, decipher_core_encipher_core by exact O1.
  apply blit_full; [exact Lp | apply Hp].
Qed.


(** ** Key schedule: the helpers *)

Lemma last_cons (y d : Z) (m : list Z) : last (y :: m) d = last m y.
Proof.
  revert y d. induction m as [|z m IH]; intros y d; [reflexivity|].
  change (last (y :: z :: m) d) with (last (z :: m) d).
  rewrite (IH z d), (IH z y). reflexivity.
Qed.

Lemma Rotate_loop (mid pre post : list Z) (junk : Z) :
  for_from (S (length pre)) (length mid)
    (fun i sv => upd (i - 1) (nth i sv 0) sv) (pre ++ junk :: mid ++ post) =
  pre ++ mid ++ last mid junk :: post.
Proof.
  revert pre junk. induction mid as [|y mid IH]; intros pre junk; [reflexivity|].
  cbn [length for_from].
  replace (S (length pre) - 1)%nat with (length pre) by lia.
  replace (nth (S (length pre)) (pre ++ junk :: (y :: mid) ++ post) 0) with y.
  - rewrite upd_middle.
    change (pre ++ y :: (y :: mid) ++ post) with (pre ++ [y] ++ y :: mid ++ post).
    rewrite app_assoc.
    replace (S (S (length pre))) with (S (length (pre ++ [y])))
      by (rewrite length_app; cbn; lia).
    rewrite IH, <- app_assoc, last_cons. reflexivity.
  - rewrite app_nth2 by lia.
    replace (S (length pre) - length pre)%nat with 1%nat by lia. reflexivity.
Qed.

(** [Rotate] moves the first word to the end: a rotation by one word. *)
Lemma Rotate_eq (x : Z) (r : list Z) : Rotate (S (length r)) (x :: r) = r ++ [x].
Proof.
  unfold Rotate, for_loop. cbn [nth].
  replace (S (length r) - 1)%nat with (length r) by lia.
  pose proof (Rotate_loop r [] [] x) as H. cbn [length app] in H.
  rewrite app_nil_r in H. rewrite H. apply upd_middle.
Qed.

Lemma Rotate_length (n : nat) (l : list Z) : length (Rotate n l) = length l.
Proof.
  unfold Rotate. rewrite upd_length.
  apply (for_loop_invariant (fun s => length s = length l)); [|reflexivity].
  intros i s Hs. now rewrite upd_length.
Qed.

Lemma ShiftLeft_eq (n : nat) (l : list Z) :
  length l = n -> ShiftLeft n l = map (fun w => to_u64 (Z.shiftl w 1)) l.
Proof.
  intros L. unfold ShiftLeft.
  rewrite (for_loop_pointwise (fun _ w => to_u64 (Z.shiftl w 1))) by exact L.
  now apply imap_map.
Qed.

Lemma RotateLeft_eq (n : nat) (ws : list Z) :
  (1 <= n)%nat -> length ws = n -> RotateLeft n ws = rotate_left_words n ws.
Proof.
  intros Hn L. unfold RotateLeft, rotate_left_words, rotate_left_bytes.
  rewrite WordsToBytes_Inline_eq, firstn_all2 by lia.
  set (bytes := canonical_bytes ws).
  assert (Lb : length bytes = (n * 8)%nat)
    by (unfold bytes; rewrite canonical_bytes_length; lia).
  assert (Ub : Forall u8 bytes) by apply canonical_bytes_u8.
  set (rb := (2 * n + 3)%nat). assert (Hrb : (rb <= n * 8)%nat) by (unfold rb; lia).
  rewrite blit_scratch. cbn [skipn].
  assert (E : blit (blit bytes 0 bytes rb (n * 8 - rb)) (n * 8 - rb) (firstn rb bytes) 0 rb
              = skipn rb bytes ++ firstn rb bytes).
  { unfold blit. cbn [firstn skipn app Nat.add].
    rewrite (firstn_all2 (skipn rb bytes)) by (rewrite length_skipn; lia).
    rewrite firstn_app, length_skipn.
    rewrite (firstn_all2 (skipn rb bytes)) by (rewrite length_skipn; lia).
    replace (n * 8 - rb - (length bytes - rb))%nat with 0%nat by lia.
    cbn [firstn]. rewrite app_nil_r.
    rewrite (firstn_all2 (firstn rb bytes)) by (rewrite length_firstn; lia).
    rewrite (skipn_all2 (skipn rb bytes ++ skipn (n * 8 - rb) bytes));
      [now rewrite app_nil_r|].
    rewrite length_app, !length_skipn. lia. }
  rewrite E.
  rewrite BytesToWords_Inline_eq.
  - rewrite (skipn_all2 ws) by lia. apply app_nil_r.
  - apply Forall_app. split; [apply Forall_skipn | apply Forall_firstn]; exact Ub.
  - rewrite length_app, length_skipn, length_firstn. lia.
Qed.

Lemma rotate_left_words_ok (n : nat) (ws : list Z) :
  (1 <= n)%nat -> length ws = n -> words_ok n (rotate_left_words n ws).
Proof.
  intros Hn L. unfold rotate_left_words, rotate_left_bytes. split.
  - apply canonical_words_length.
  - apply canonical_words_u64.
    + apply Forall_app. split; [apply Forall_skipn | apply Forall_firstn];
        apply canonical_bytes_u8.
    + rewrite length_app, length_skipn, length_firstn, canonical_bytes_length. lia.
Qed.

(** ** Key schedule: the intermediate key and the even round keys *)

Lemma AddRoundKeyExpand_ctx_ok (value : list Z) (ctx : kalyna_t) :
  ctx_ok ctx -> ctx_ok (AddRoundKeyExpand value ctx).
Proof.
  intros (B & W & K). split; [exact B|]. split; [|exact K].
  apply (AddRoundKeyExpand_ok value ctx (proj1 W)).
Qed.

Lemma XorRoundKeyExpand_ctx_ok (value : list Z) (ctx : kalyna_t) :
  Forall u64 value -> ctx_ok ctx -> ctx_ok (XorRoundKeyExpand value ctx).
Proof.
  intros V (B & W & K). split; [exact B|]. split; [|exact K].
  apply (XorRoundKeyExpand_ok value ctx V W).
Qed.

Lemma set_state_ctx_ok (ctx : kalyna_t) (s : list Z) :
  ctx_ok ctx -> words_ok (nb ctx) s -> ctx_ok (set_state ctx s).
Proof. intros (B & W & K) Hs. split; [exact B|]. split; [exact Hs | exact K]. Qed.

Lemma same_shape_refl (ctx : kalyna_t) : same_shape ctx ctx.
Proof. repeat split. Qed.

Lemma same_shape_trans (a b c : kalyna_t) :
  same_shape a b -> same_shape b c -> same_shape a c.
Proof.
  unfold same_shape. intros (A1 & A2 & A3 & A4) (B1 & B2 & B3 & B4).
  repeat split; congruence.
Qed.

Lemma frame_same_shape (a b : kalyna_t) : frame a b -> same_shape a b.
Proof.
  unfold frame, same_shape. intros (A1 & A2 & A3 & A4).
  repeat split; congruence.
Qed.

Lemma repeat_words_ok (n : nat) : words_ok n (repeat 0 n).
Proof.
  split; [apply repeat_length|].
  apply Forall_forall. intros x Hx. apply repeat_spec in Hx. subst. apply u64_0.
Qed.

Lemma KeyExpandKt_frame (key : list Z) (ctx : kalyna_t) :
  frame ctx (snd (KeyExpandKt key ctx)).
Proof. repeat split. Qed.

Lemma KeyExpandKt_ok (key : list Z) (ctx : kalyna_t) :
  ctx_ok ctx -> Forall u64 key ->
  ctx_ok (snd (KeyExpandKt key ctx)) /\
  length (fst (KeyExpandKt key ctx)) = nb ctx.
Proof.
  intros Hc Hk. unfold KeyExpandKt. cbv zeta. cbn [fst snd].
  set (n := nb ctx).
  set (c1 := set_state ctx (blit (state ctx) 0 (repeat 0 n) 0 n)).
  assert (O1 : ctx_ok c1).
  { apply set_state_ctx_ok; [exact Hc|].
    rewrite blit_full; [apply repeat_words_ok | apply Hc | apply repeat_length]. }
  set (c2 := set_state c1 _).
  assert (O2 : ctx_ok c2).
  { apply set_state_ctx_ok; [exact O1|]. destruct O1 as (_ & [L R] & _). split.
    - now rewrite upd_length.
    - apply upd_Forall; [apply to_u64_u64 | exact R]. }
  set (k0 := blit (scratch n) 0 key 0 n).
  set (k1 := if (nb c2 =? nk c2)%nat then _ else _).
  assert (U1 : Forall u64 k1).
  { unfold k1, k0. destruct (_ =? _)%nat; rewrite blit_scratch;
      apply Forall_firstn, Forall_skipn, Hk. }
  set (c8 := EncipherRound _).
  assert (O8 : ctx_ok c8).
  { unfold c8.
    apply EncipherRound_ctx_ok, AddRoundKeyExpand_ctx_ok, EncipherRound_ctx_ok,
      XorRoundKeyExpand_ctx_ok, EncipherRound_ctx_ok, AddRoundKeyExpand_ctx_ok;
      assumption. }
  split; [exact O8|].
  rewrite blit_scratch. cbn [skipn].
  destruct O8 as (_ & [L _] & _). change (nb c8) with n in L.
  rewrite firstn_all2 by lia. exact L.
Qed.

Lemma derive_even_key_shape
  (kt tmv initial_data : list Z) (offset round : nat) (ctx : kalyna_t) :
  same_shape ctx (derive_even_key kt tmv initial_data offset round ctx) /\
  nb (derive_even_key kt tmv initial_data offset round ctx) = nb ctx /\
  nk (derive_even_key kt tmv initial_data offset round ctx) = nk ctx /\
  nr (derive_even_key kt tmv initial_data offset round ctx) = nr ctx.
Proof.
  assert (L : length (round_keys (derive_even_key kt tmv initial_data offset round ctx))
              = length (round_keys ctx)).
  { unfold derive_even_key, set_round_key. cbv zeta. cbn [round_keys].
    now rewrite upd_length. }
  repeat split; exact L.
Qed.

Lemma derive_even_key_ok
  (kt tmv initial_data : list Z) (offset round : nat) (ctx : kalyna_t) :
  ctx_ok ctx -> length kt = nb ctx ->
  (offset + nb ctx <= length initial_data)%nat ->
  ctx_ok (derive_even_key kt tmv initial_data offset round ctx).
Proof.
  intros Hc Lk Li. unfold derive_even_key. cbv zeta.
  set (n := nb ctx).
  set (c1 := set_state ctx (blit (state ctx) 0 kt 0 n)).
  assert (L1 : length (state c1) = nb c1).
  { unfold c1. cbn [state set_state nb]. rewrite blit_full; [exact Lk | apply Hc | exact Lk]. }
  assert (O1 : ctx_ok (AddRoundKeyExpand tmv c1)).
  { destruct Hc as (B & W & K). split; [exact B|]. split; [|exact K].
    apply (AddRoundKeyExpand_ok tmv c1 L1). }
  set (c2 := AddRoundKeyExpand tmv c1) in *.
  set (kt_round := blit (scratch n) 0 (state c2) 0 n).
  assert (Ukt : Forall u64 kt_round).
  { unfold kt_round. rewrite blit_scratch. apply Forall_firstn, Forall_skipn, O1. }
  set (c3 := set_state c2 (blit (state c2) 0 initial_data offset n)).
  assert (L3 : length (state c3) = nb c3).
  { unfold c3. cbn [state set_state nb]. unfold blit. cbn [firstn app Nat.add].
    destruct O1 as (_ & [L2 _] & _).
    rewrite length_app, length_firstn, !length_skipn.
    change (nb c2) with n in *. lia. }
  assert (O4 : ctx_ok (AddRoundKeyExpand kt_round c3)).
  { destruct Hc as (B & W & K). split; [exact B|]. split; [|exact K].
    apply (AddRoundKeyExpand_ok kt_round c3 L3). }
  set (c9 := AddRoundKeyExpand kt_round (EncipherRound _)).
  assert (O9 : ctx_ok c9).
  { unfold c9.
    apply AddRoundKeyExpand_ctx_ok, EncipherRound_ctx_ok, XorRoundKeyExpand_ctx_ok,
      EncipherRound_ctx_ok; assumption. }
  destruct O9 as (B & W & K). split; [exact B|]. split; [exact W|].
  unfold set_round_key. cbn [round_keys nb].
  apply upd_Forall; [|exact K].
  unfold blit. cbn [firstn skipn app Nat.add].
  assert (Lr : (length (round_key c9 round) <= nb c9)%nat).
  { unfold round_key.
    destruct (Nat.lt_ge_cases round (length (round_keys c9))) as [H|H].
    - rewrite Forall_nth in K. destruct (K round [] H) as [-> _]. lia.
    - rewrite nth_overflow by exact H. cbn. lia. }
  change (nb c9) with n in *.
  rewrite (skipn_all2 (round_key c9 round)) by lia. rewrite app_nil_r.
  rewrite firstn_all2 by (destruct W as [-> _]; lia). exact W.
Qed.

Lemma KeyExpandEven_loop_ok (fuel : nat) (kt : list Z) :
  forall l : even_loop,
  ctx_ok (el_ctx l) -> length kt = nb (el_ctx l) ->
  (nk (el_ctx l) = nb (el_ctx l) \/ nk (el_ctx l) = (2 * nb (el_ctx l))%nat) ->
  length (el_initial_data l) = nk (el_ctx l) ->
  (exists h, nr (el_ctx l) = (el_round l + 2 * h)%nat /\ (h < fuel)%nat) ->
  exists ctx',
    KeyExpandEven_loop fuel kt l = Some ctx' /\ ctx_ok ctx' /\ same_shape (el_ctx l) ctx'.
Proof.
  induction fuel as [|fuel IH]; intros [round tmv id c] Hc Lk Hnk Lid [h [Hh Hf]];
    cbn [el_round el_tmv el_initial_data el_ctx] in *; [lia|].
  cbn [KeyExpandEven_loop]. unfold KeyExpandEven_body.
  cbn [el_round el_tmv el_initial_data el_ctx]. cbv zeta.
  set (c1 := derive_even_key kt tmv id 0 round c).
  destruct (derive_even_key_shape kt tmv id 0 round c) as (S1 & B1 & K1 & R1).
  fold c1 in S1, B1, K1, R1.
  assert (O1 : ctx_ok c1) by (apply derive_even_key_ok; [exact Hc | exact Lk | lia]).
  rewrite R1, K1, B1.
  destruct (nr c =? round)%nat eqn:E1.
  { exists c1. auto. }
  apply Nat.eqb_neq in E1.
  destruct (nk c =? nb c)%nat eqn:E2; cbn [negb].
  - apply Nat.eqb_eq in E2.
    destruct (IH (mk_even_loop (round + 2) (ShiftLeft (nb c) tmv) (Rotate (nk c) id) c1))
      as (ctx' & L' & O' & S'); cbn [el_round el_tmv el_initial_data el_ctx].
    + exact O1.
    + congruence.
    + rewrite K1, B1. exact Hnk.
    + rewrite Rotate_length, K1. exact Lid.
    + exists (h - 1)%nat. rewrite R1. lia.
    + exists ctx'. cbn [el_ctx] in S'. split; [exact L'|]. split; [exact O'|].
      eapply same_shape_trans; eassumption.
  - apply Nat.eqb_neq in E2.
    set (c2 := derive_even_key kt (ShiftLeft (nb c) tmv) id (nb c) (round + 2) c1).
    destruct (derive_even_key_shape kt (ShiftLeft (nb c) tmv) id (nb c) (round + 2) c1)
      as (S2 & B2 & K2 & R2).
    fold c2 in S2, B2, K2, R2.
    assert (O2 : ctx_ok c2).
    { apply derive_even_key_ok; [exact O1 | congruence | rewrite B1; lia]. }
    rewrite R2, R1, K2, K1, B2, B1.
    destruct (nr c =? round + 2)%nat eqn:E3.
    { exists c2. split; [reflexivity|]. split; [exact O2|].
      eapply same_shape_trans; eassumption. }
    apply Nat.eqb_neq in E3.
    destruct (IH (mk_even_loop (round + 2 + 2) (ShiftLeft (nb c) (ShiftLeft (nb c) tmv))
                    (Rotate (nk c) id) c2))
      as (ctx' & L' & O' & S'); cbn [el_round el_tmv el_initial_data el_ctx].
    + exact O2.
    + congruence.
    + rewrite K2, K1, B2, B1. exact Hnk.
    + rewrite Rotate_length, K2, K1. exact Lid.
    + exists (h - 2)%nat. rewrite R2, R1. lia.
    + exists ctx'. cbn [el_ctx] in S'. split; [exact L'|]. split; [exact O'|].
      eapply same_shape_trans; [exact S1|].
      eapply same_shape_trans; eassumption.
Qed.

Lemma KeyExpandEven_ok (key kt : list Z) (ctx : kalyna_t) :
  ctx_ok ctx -> parameters_ok ctx -> length kt = nb ctx ->
  (nk ctx <= length key)%nat ->
  exists ctx',
    KeyExpandEven key kt ctx = Some ctx' /\ ctx_ok ctx' /\ same_shape ctx ctx'.
Proof.
  intros Hc [Hnk [h Hh]] Lk Lkey. unfold KeyExpandEven.
  apply (KeyExpandEven_loop_ok (S (nr ctx)) kt
           (mk_even_loop 0 _ (blit (scratch (nk ctx)) 0 key 0 (nk ctx)) ctx));
    cbn [el_round el_tmv el_initial_data el_ctx]; try assumption.
  - rewrite blit_scratch. cbn [skipn]. apply firstn_length_le, Lkey.
  - exists h. lia.
Qed.

Lemma constant_fill (c : Z) (l : list Z) :
  for_loop 0 (length l) (fun i tmv => upd i c tmv) l = repeat c (length l).
Proof.
  rewrite (for_loop_pointwise (fun _ _ => c)) by reflexivity.
  rewrite (imap_map _ (fun _ => c)) by reflexivity.
  induction l as [|x l IH]; [reflexivity|]. cbn. now rewrite IH.
Qed.

(** The loop of [KeyExpandEven] is entered in the state [first_pass]. *)
Lemma KeyExpandEven_entry (key kt : list Z) (ctx : kalyna_t) :
  length key = nk ctx ->
  KeyExpandEven key kt ctx = KeyExpandEven_loop (S (nr ctx)) kt (first_pass ctx key).
Proof.
  intros L. unfold KeyExpandEven, first_pass. f_equal. f_equal.
  - pose proof (constant_fill 0x0001000100010001 (scratch (nb ctx))) as H.
    rewrite scratch_length in H. exact H.
  - rewrite blit_scratch. cbn [skipn]. apply firstn_all2. lia.
Qed.

(** ** Key schedule: the odd round keys *)

Lemma upd_upd {A : Type} (i : nat) (a b : A) (l : list A) :
  upd i a (upd i b l) = upd i a l.
Proof.
  revert i. induction l as [|x r IH]; intros [|i]; cbn; auto. now rewrite IH.
Qed.

Lemma block_words_pos (n : nat) : block_words n -> (1 <= n)%nat.
Proof. unfold block_words. lia. Qed.

Lemma round_key_length (ctx : kalyna_t) (i : nat) :
  ctx_ok ctx -> (i < length (round_keys ctx))%nat ->
  length (round_key ctx i) = nb ctx.
Proof.
  intros (_ & _ & K) Hi. rewrite Forall_nth in K. apply (K i [] Hi).
Qed.

Lemma KeyExpandOdd_body_keys (i : nat) (ctx : kalyna_t) :
  ctx_ok ctx -> (1 <= i)%nat -> (i < length (round_keys ctx))%nat ->
  round_keys (KeyExpandOdd_body i ctx) =
  upd i (rotate_left_words (nb ctx) (round_key ctx (i - 1))) (round_keys ctx).
Proof.
  intros Hc H1 Hi. unfold KeyExpandOdd_body, set_round_key. cbv zeta.
  cbn [round_keys nb]. unfold round_key at 1. cbn [round_keys].
  rewrite nth_upd_same by exact Hi.
  rewrite blit_full by (apply round_key_length; try exact Hc; lia).
  rewrite upd_upd, RotateLeft_eq;
    [reflexivity | apply block_words_pos, Hc | apply round_key_length; try exact Hc; lia].
Qed.

Lemma KeyExpandOdd_body_ok (i : nat) (ctx : kalyna_t) :
  ctx_ok ctx -> (1 <= i)%nat -> (i < length (round_keys ctx))%nat ->
  ctx_ok (KeyExpandOdd_body i ctx) /\ same_shape ctx (KeyExpandOdd_body i ctx).
Proof.
  intros Hc H1 Hi.
  pose proof (KeyExpandOdd_body_keys i ctx Hc H1 Hi) as E.
  split.
  - destruct Hc as (B & W & K). split; [exact B|]. split; [exact W|].
    change (nb (KeyExpandOdd_body i ctx)) with (nb ctx). rewrite E.
    apply upd_Forall; [|exact K].
    apply rotate_left_words_ok; [apply block_words_pos, B|].
    apply (round_key_length ctx (i - 1) (conj B (conj W K))). lia.
  - repeat split. rewrite E. apply upd_length.
Qed.

(** The loop of [KeyExpandOdd] over [i, i + 2, ...] below [i + d]: the round
    keys at those indices become the rotated copies of their predecessors,
    the others stay. *)
Lemma KeyExpandOdd_loop (d : nat) :
  forall (i : nat) (ctx : kalyna_t),
  ctx_ok ctx -> (1 <= i)%nat -> (i + d <= length (round_keys ctx))%nat ->
  let ctx' := for_stride2 d i KeyExpandOdd_body ctx in
  ctx_ok ctx' /\ same_shape ctx ctx' /\
  (forall j, (2 * j < d)%nat ->
     round_key ctx' (i + 2 * j) =
     rotate_left_words (nb ctx) (round_key ctx (i + 2 * j - 1))) /\
  (forall k, (forall j, (2 * j < d)%nat -> k <> (i + 2 * j)%nat) ->
     round_key ctx' k = round_key ctx k).
Proof.
  induction d as [d IH] using lt_wf_ind. intros i ctx Hc H1 Hd.
  destruct d as [|[|d]]; cbn [for_stride2]; cbv zeta.
  - split; [exact Hc|]. split; [apply same_shape_refl|]. split; [intros j Hj; lia|].
    reflexivity.
  - destruct (KeyExpandOdd_body_ok i ctx Hc H1) as [O1 S1]; [lia|].
    pose proof (KeyExpandOdd_body_keys i ctx Hc H1) as E.
    split; [exact O1|]. split; [exact S1|]. unfold round_key in *. split.
    + intros j Hj. assert (j = 0%nat) as -> by lia. rewrite Nat.add_0_r.
      rewrite E by lia. apply nth_upd_same. lia.
    + intros k Hk. rewrite E by lia. apply nth_upd_other.
      specialize (Hk 0%nat). lia.
  - destruct (KeyExpandOdd_body_ok i ctx Hc H1) as [O1 S1]; [lia|].
    pose proof (KeyExpandOdd_body_keys i ctx Hc H1) as E.
    assert (L1 : length (round_keys (KeyExpandOdd_body i ctx)) = length (round_keys ctx))
      by apply S1.
    destruct (IH d (Nat.lt_lt_succ_r _ _ (Nat.lt_succ_diag_r d)) (i + 2)%nat
                (KeyExpandOdd_body i ctx) O1) as (O' & S' & A' & B'); [lia | lia |].
    split; [exact O'|]. split; [eapply same_shape_trans; eassumption|].
    change (nb (KeyExpandOdd_body i ctx)) with (nb ctx) in A'.
    assert (Old : forall k, k <> i ->
              round_key (KeyExpandOdd_body i ctx) k = round_key ctx k).
    { intros k Hk. unfold round_key. rewrite E by lia. apply nth_upd_other. lia. }
    split.
    + intros [|j] Hj.
      * rewrite Nat.add_0_r. rewrite B' by (intros j' _; lia).
        unfold round_key at 1. rewrite E by lia. apply nth_upd_same. lia.
      * replace (i + 2 * S j)%nat with (i + 2 + 2 * j)%nat by lia.
        rewrite A' by lia. rewrite Old by lia. reflexivity.
    + intros k Hk. rewrite B'.
      * apply Old. specialize (Hk 0%nat). lia.
      * intros j Hj. specialize (Hk (S j)). lia.
Qed.

Lemma KeyExpandOdd_eq (ctx : kalyna_t) :
  KeyExpandOdd ctx = for_stride2 (nr ctx - 1) 1 KeyExpandOdd_body ctx.
Proof. reflexivity. Qed.

Lemma KeyExpandOdd_ok (ctx : kalyna_t) :
  ctx_ok ctx -> schedule_ok ctx ->
  ctx_ok (KeyExpandOdd ctx) /\ same_shape ctx (KeyExpandOdd ctx) /\
  forall i, Nat.Odd i -> (i < nr ctx)%nat ->
    round_key (KeyExpandOdd ctx) i =
    rotate_left_words (nb ctx) (round_key (KeyExpandOdd ctx) (i - 1)).
Proof.
  intros Hc Hs. unfold schedule_ok in Hs. rewrite KeyExpandOdd_eq.
  destruct (KeyExpandOdd_loop (nr ctx - 1) 1 ctx Hc (le_n 1)) as (O' & S' & A' & B');
    [lia|].
  split; [exact O'|]. split; [exact S'|].
  intros i [m ->] Hi.
  replace (2 * m + 1)%nat with (1 + 2 * m)%nat by lia.
  rewrite A' by lia. f_equal. symmetry. apply B'. intros j Hj. lia.
Qed.

(** ** Key schedule: the whole *)

Lemma KalynaKeyExpand_ok (key : list Z) (ctx : kalyna_t) :
  context_ok ctx -> Forall u64 key -> (nk ctx <= length key)%nat ->
  exists ctx',
    KalynaKeyExpand key ctx = Some ctx' /\ context_ok ctx' /\ same_shape ctx ctx' /\
    forall i, Nat.Odd i -> (i < nr ctx')%nat ->
      round_key ctx' i = rotate_left_words (nb ctx') (round_key ctx' (i - 1)).
Proof.
  intros (Hc & Hs & Hp) Hk Lk. unfold KalynaKeyExpand.
  destruct (KeyExpandKt_ok key ctx Hc Hk) as [O1 L1].
  pose proof (KeyExpandKt_frame key ctx) as F1.
  destruct (KeyExpandKt key ctx) as [kt c1]. cbn [fst snd] in *.
  destruct F1 as (B1 & K1 & R1 & RK1).
  destruct (KeyExpandEven_ok key kt c1 O1) as (c2 & E2 & O2 & S2).
  { unfold parameters_ok. rewrite K1, B1, R1. exact Hp. }
  { congruence. }
  { rewrite K1. exact Lk. }
  rewrite E2. destruct S2 as (B2 & K2 & R2 & L2).
  assert (Hs2 : schedule_ok c2).
  { unfold schedule_ok in *. rewrite L2, RK1, R2, R1. exact Hs. }
  destruct (KeyExpandOdd_ok c2 O2 Hs2) as (O3 & S3 & P3).
  destruct S3 as (B3 & K3 & R3 & L3).
  exists (KeyExpandOdd c2). split; [reflexivity|]. split; [|split].
  - split; [exact O3|]. split.
    + unfold schedule_ok in *. rewrite L3, R3. exact Hs2.
    + unfold parameters_ok. rewrite K3, B3, R3, K2, B2, R2, K1, B1, R1. exact Hp.
  - unfold same_shape. rewrite B3, K3, R3, L3, B2, K2, R2, L2, B1, K1, R1, RK1.
    repeat split.
  - intros i Hi Hlt. rewrite B3. apply P3; [exact Hi | rewrite <- R3; exact Hlt].
Qed.

(** ** Context creation *)

Lemma select_parameters_supported (block_size key_size : Z) :
  supported block_size key_size ->
  select_parameters block_size key_size =
  Some (Z.to_nat (block_size / 64), Z.to_nat (key_size / 64),
        specified_rounds block_size key_size).
Proof.
  unfold supported. intros [[-> ->]|[[-> ->]|[[-> ->]|[[-> ->]|[-> ->]]]]]; reflexivity.
Qed.

Lemma select_parameters_unsupported (block_size key_size : Z) :
  ~ supported block_size key_size -> select_parameters block_size key_size = None.
Proof.
  unfold supported, select_parameters. intros H.
  change kBLOCK_128 with 128. change kBLOCK_512 with 512.
  change kKEY_128 with 128. change kKEY_256 with 256. change kKEY_512 with 512.
  destruct (Z.eqb_spec block_size 128) as [B1|B1].
  { destruct (Z.eqb_spec key_size 128) as [K1|K1]; [exfalso; apply H; auto|].
    destruct (Z.eqb_spec key_size 256) as [K2|K2]; [exfalso; apply H; auto|].
    reflexivity. }
  destruct (Z.eqb_spec block_size 256) as [B2|B2].
  { destruct (Z.eqb_spec key_size 256) as [K2|K2]; [exfalso; apply H; auto 6|].
    destruct (Z.eqb_spec key_size 512) as [K3|K3]; [exfalso; apply H; auto 6|].
    reflexivity. }
  destruct (Z.eqb_spec block_size 512) as [B3|B3]; [|reflexivity].
  destruct (Z.eqb_spec key_size 512) as [K3|K3]; [exfalso; apply H; auto 8|].
  reflexivity.
Qed.

Lemma select_parameters_Some (block_size key_size : Z) (p : nat * nat * nat) :
  select_parameters block_size key_size = Some p ->
  supported block_size key_size.
Proof.
  unfold supported, select_parameters.
  change kBLOCK_128 with 128. change kBLOCK_512 with 512.
  change kKEY_128 with 128. change kKEY_256 with 256. change kKEY_512 with 512.
  destruct (Z.eqb_spec block_size 128) as [B1|B1].
  { destruct (Z.eqb_spec key_size 128) as [K1|K1]; [auto|].
    destruct (Z.eqb_spec key_size 256) as [K2|K2]; [auto|]. discriminate. }
  destruct (Z.eqb_spec block_size 256) as [B2|B2].
  { destruct (Z.eqb_spec key_size 256) as [K2|K2]; [auto 6|].
    destruct (Z.eqb_spec key_size 512) as [K3|K3]; [auto 6|]. discriminate. }
  destruct (Z.eqb_spec block_size 512) as [B3|B3]; [|discriminate].
  destruct (Z.eqb_spec key_size 512) as [K3|K3]; [auto 8|]. discriminate.
Qed.

Lemma alloc_round_keys_Some (alloc_ok : nat -> bool) (n count i : nat) (keys : list (list Z)) :
  alloc_round_keys alloc_ok n i count = Some keys -> keys = repeat (repeat 0 n) count.
Proof.
  revert i keys. induction count as [|count IH]; intros i keys H;
    cbn [alloc_round_keys] in H.
  - now inversion H.
  - destruct (alloc_ok (3 + i)%nat); [|discriminate].
    destruct (alloc_round_keys alloc_ok n (S i) count) as [rest|] eqn:E; [|discriminate].
    inversion H. cbn. f_equal. now apply (IH (S i)).
Qed.

Lemma alloc_round_keys_always (alloc_ok : nat -> bool) (n count i : nat) :
  (forall k, alloc_ok k = true) ->
  alloc_round_keys alloc_ok n i count = Some (repeat (repeat 0 n) count).
Proof.
  intros H. revert i. induction count as [|count IH]; intros i;
    cbn [alloc_round_keys]; [reflexivity|].
  now rewrite H, IH.
Qed.

Lemma KalynaInit_Some (alloc_ok : nat -> bool) (block_size key_size : Z) (ctx : kalyna_t) :
  KalynaInit alloc_ok block_size key_size = Some ctx ->
  supported block_size key_size /\
  ctx = mk_kalyna (Z.to_nat (block_size / 64)) (Z.to_nat (key_size / 64))
          (specified_rounds block_size key_size)
          (repeat 0 (Z.to_nat (block_size / 64)))
          (repeat (repeat 0 (Z.to_nat (block_size / 64)))
             (specified_rounds block_size key_size + 1)).
Proof.
  unfold KalynaInit. intros H.
  destruct (alloc_ok 0%nat); [|discriminate]. cbn [negb] in H.
  destruct (select_parameters block_size key_size) as [p|] eqn:E; [|discriminate].
  pose proof (select_parameters_Some _ _ _ E) as S.
  rewrite (select_parameters_supported _ _ S) in E. inversion E; subst p.
  destruct (alloc_ok 1%nat); [|discriminate].
  destruct (alloc_ok 2%nat); [|discriminate]. cbn [negb] in H.
  destruct (alloc_round_keys _ _ _ _) as [keys|] eqn:A; [|discriminate].
  apply alloc_round_keys_Some in A. inversion H. subst keys. auto.
Qed.

Lemma Forall_repeat {A : Type} (P : A -> Prop) (x : A) (n : nat) :
  P x -> Forall P (repeat x n).
Proof.
  intros H. apply Forall_forall. intros y Hy. apply repeat_spec in Hy. now subst.
Qed.

(** A context that [KalynaInit] returns is well formed. *)
Lemma KalynaInit_context_ok
  (alloc_ok : nat -> bool) (block_size key_size : Z) (ctx : kalyna_t) :
  KalynaInit alloc_ok block_size key_size = Some ctx -> context_ok ctx.
Proof.
  intros H. apply KalynaInit_Some in H. destruct H as [S ->].
  unfold context_ok, ctx_ok, schedule_ok, parameters_ok, block_words.
  cbn [nb nk nr state round_keys].
  repeat split;
    try apply repeat_length; try apply Forall_repeat; try apply repeat_words_ok;
    try apply u64_0;
    destruct S as [[-> ->]|[[-> ->]|[[-> ->]|[[-> ->]|[-> ->]]]]];
    cbn; try lia; try reflexivity;
    try (exists 5%nat; reflexivity); try (exists 7%nat; reflexivity);
    exists 9%nat; reflexivity.
Qed.

(** ** Lemmas for the driver's sequence and for contexts without keys *)

Lemma perform_app (ops1 ops2 : list (kalyna_t -> kalyna_t)) (ctx : kalyna_t) :
  perform (ops1 ++ ops2) ctx = perform ops2 (perform ops1 ctx).
Proof. apply fold_left_app. Qed.

Lemma perform_rounds (n i : nat) (ctx : kalyna_t) :
  perform (flat_map (fun round => [EncipherRound; XorRoundKey round]) (seq i n)) ctx =
  for_from i n (fun round c => XorRoundKey round (EncipherRound c)) ctx.
Proof.
  revert i ctx. induction n as [|n IH]; intros i ctx; [reflexivity|].
  cbn [seq flat_map for_from].
  change ([EncipherRound; XorRoundKey i] ++ ?l) with
    ([EncipherRound; XorRoundKey i] ++ l).
  rewrite perform_app, IH. reflexivity.
Qed.

Lemma encipher_sequence_eq (ctx : kalyna_t) :
  perform (encipher_sequence (nr ctx)) ctx = encipher_core ctx.
Proof.
  unfold encipher_sequence. rewrite !perform_app, perform_rounds. reflexivity.
Qed.

Lemma AddRoundKey_zero (round : nat) (ctx : kalyna_t) :
  zero_keys ctx -> words_ok (nb ctx) (state ctx) -> AddRoundKey round ctx = ctx.
Proof.
  intros Hz [L R]. rewrite AddRoundKey_eq by exact L.
  rewrite <- (set_state_same ctx) at 3. f_equal. apply imap_id.
  intros k x Hx. rewrite Hz, Z.add_0_r. apply Z.mod_small.
  rewrite Forall_forall in R. apply R, Hx.
Qed.

Lemma SubRoundKey_zero (round : nat) (ctx : kalyna_t) :
  zero_keys ctx -> words_ok (nb ctx) (state ctx) -> SubRoundKey round ctx = ctx.
Proof.
  intros Hz [L R]. rewrite SubRoundKey_eq by exact L.
  rewrite <- (set_state_same ctx) at 3. f_equal. apply imap_id.
  intros k x Hx. rewrite Hz, Z.sub_0_r. apply Z.mod_small.
  rewrite Forall_forall in R. apply R, Hx.
Qed.

Lemma XorRoundKey_zero (round : nat) (ctx : kalyna_t) :
  zero_keys ctx -> length (state ctx) = nb ctx -> XorRoundKey round ctx = ctx.
Proof.
  intros Hz L. rewrite XorRoundKey_eq by exact L.
  rewrite <- (set_state_same ctx) at 3. f_equal. apply imap_id.
  intros k x Hx. rewrite Hz. apply Z.lxor_0_r.
Qed.

Lemma iter_ctx_ok (f : kalyna_t -> kalyna_t) (n : nat) (ctx : kalyna_t) :
  (forall c, ctx_ok c -> ctx_ok (f c)) -> (forall c, zero_keys c -> zero_keys (f c)) ->
  ctx_ok ctx -> zero_keys ctx ->
  ctx_ok (Nat.iter n f ctx) /\ zero_keys (Nat.iter n f ctx).
Proof.
  intros Hf Hz Hc Z0. induction n as [|n [IH1 IH2]]; [split; assumption|].
  change (Nat.iter (S n) f ctx) with (f (Nat.iter n f ctx)). split; auto.
Qed.

Lemma iter_frame (f : kalyna_t -> kalyna_t) (n : nat) (ctx : kalyna_t) :
  (forall c, frame c (f c)) -> frame ctx (Nat.iter n f ctx).
Proof.
  intros Hf. induction n as [|n IH]; [apply frame_refl|].
  change (Nat.iter (S n) f ctx) with (f (Nat.iter n f ctx)).
  eapply frame_trans; [exact IH | apply Hf].
Qed.

Lemma zero_keys_EncipherRound (ctx : kalyna_t) :
  zero_keys ctx -> zero_keys (EncipherRound ctx).
Proof. intros Hz. exact Hz. Qed.

Lemma zero_keys_DecipherRound (ctx : kalyna_t) :
  zero_keys ctx -> zero_keys (DecipherRound ctx).
Proof. intros Hz. exact Hz. Qed.

Lemma encipher_rounds_zero (n i : nat) (ctx : kalyna_t) :
  ctx_ok ctx -> zero_keys ctx ->
  for_from i n (fun round c => XorRoundKey round (EncipherRound c)) ctx =
  Nat.iter n EncipherRound ctx.
Proof.
  intros Hc Hz. induction n as [|n IH]; [reflexivity|].
  rewrite for_from_last, IH. cbn [Nat.iter].
  destruct (iter_ctx_ok EncipherRound n ctx EncipherRound_ctx_ok
              zero_keys_EncipherRound Hc Hz) as [O1 Z1].
  apply XorRoundKey_zero.
  - apply zero_keys_EncipherRound, Z1.
  - apply (EncipherRound_ctx_ok _ O1).
Qed.

Lemma decipher_rounds_zero (n lo : nat) (ctx : kalyna_t) :
  ctx_ok ctx -> zero_keys ctx ->
  for_down lo n (fun round c => XorRoundKey round (DecipherRound c)) ctx =
  Nat.iter n DecipherRound ctx.
Proof.
  revert ctx. induction n as [|n IH]; intros ctx Hc Hz; [reflexivity|].
  rewrite for_down_S.
  rewrite XorRoundKey_zero;
    [|apply zero_keys_DecipherRound, Hz | apply (DecipherRound_ctx_ok _ Hc)].
  rewrite IH; [|apply DecipherRound_ctx_ok, Hc | apply zero_keys_DecipherRound, Hz].
  symmetry. apply Nat.iter_succ_r.
Qed.

Lemma iter_pred {T : Type} (f : T -> T) (n : nat) (x : T) :
  (1 <= n)%nat -> f (Nat.iter (n - 1) f x) = Nat.iter n f x.
Proof.
  intros H. destruct n as [|n]; [lia|].
  replace (S n - 1)%nat with n by lia. reflexivity.
Qed.

Lemma encipher_core_zero (ctx : kalyna_t) :
  ctx_ok ctx -> zero_keys ctx -> (1 <= nr ctx)%nat ->
  encipher_core ctx = Nat.iter (nr ctx) EncipherRound ctx.
Proof.
  intros Hc Hz Hr. unfold encipher_core.
  rewrite (AddRoundKey_zero 0 ctx Hz) by apply Hc.
  rewrite encipher_rounds_zero by assumption.
  destruct (iter_ctx_ok EncipherRound (nr ctx - 1) ctx EncipherRound_ctx_ok
              zero_keys_EncipherRound Hc Hz) as [O1 Z1].
  rewrite AddRoundKey_zero;
    [|apply zero_keys_EncipherRound, Z1 | apply (EncipherRound_ctx_ok _ O1)].
  apply iter_pred, Hr.
Qed.

Lemma decipher_core_zero (ctx : kalyna_t) :
  ctx_ok ctx -> zero_keys ctx -> (1 <= nr ctx)%nat ->
  decipher_core ctx = Nat.iter (nr ctx) DecipherRound ctx.
Proof.
  intros Hc Hz Hr. unfold decipher_core.
  rewrite (SubRoundKey_zero (nr ctx) ctx Hz) by apply Hc.
  rewrite decipher_rounds_zero by assumption.
  destruct (iter_ctx_ok DecipherRound (nr ctx - 1) ctx DecipherRound_ctx_ok
              zero_keys_DecipherRound Hc Hz) as [O1 Z1].
  rewrite SubRoundKey_zero;
    [|apply zero_keys_DecipherRound, Z1 | apply (DecipherRound_ctx_ok _ O1)].
  apply iter_pred, Hr.
Qed.

Lemma KalynaInit_zero_keys
  (alloc_ok : nat -> bool) (block_size key_size : Z) (ctx : kalyna_t) :
  KalynaInit alloc_ok block_size key_size = Some ctx ->
  zero_keys ctx /\ (1 <= nr ctx)%nat.
Proof.
  intros H. apply KalynaInit_Some in H. destruct H as [S ->]. split.
  - intros round i. unfold round_key. cbn [round_keys].
    destruct (nth_in_or_default round
                (repeat (repeat 0 (Z.to_nat (block_size / 64)))
                   (specified_rounds block_size key_size + 1)) []) as [I|E].
    + apply repeat_spec in I. rewrite I. apply nth_repeat.
    + rewrite E. now destruct i.
  - cbn [nr].
    destruct S as [[-> ->]|[[-> ->]|[[-> ->]|[[-> ->]|[-> ->]]]]]; cbn; lia.
Qed.

(** * The claims *)

(** C1.  On every well-formed context (in particular on every context that
    [KalynaInit] returns for a supported configuration), for every
    [nk]-word key and every [nb]-word plaintext: [KalynaKeyExpand]
    completes, and on the context it leaves, deciphering the ciphertext
    that [KalynaEncipher] produced gives back the plaintext, word for
    word. *)
Theorem decipher_encipher_round_trip
  (ctx : kalyna_t) (key plaintext ciphertext recovered : list Z) :
  context_ok ctx ->
  words_ok (nk ctx) key -> words_ok (nb ctx) plaintext ->
  length ciphertext = nb ctx -> length recovered = nb ctx ->
  exists expanded,
    KalynaKeyExpand key ctx = Some expanded /\
    fst (KalynaDecipher (fst (KalynaEncipher plaintext expanded ciphertext))
           (snd (KalynaEncipher plaintext expanded ciphertext)) recovered)
    = plaintext.
Proof.
  intros Hc [Lk Uk] Hp Lc Lr.
  destruct (KalynaKeyExpand_ok key ctx Hc Uk) as (e & E & (Oe & _) & (Be & _) & _);
    [lia|].
  exists e. split; [exact E|].
  apply KalynaDecipher_KalynaEncipher; rewrite ?Be; assumption.
Qed.

(** C2.  [KalynaEncipher] loads the plaintext into the state, carries out
    [AddRoundKey 0], then [EncipherRound] and [XorRoundKey round] for
    [round = 1 .. nr - 1], then one [EncipherRound], then [AddRoundKey nr],
    in this order, and emits the state as the ciphertext. *)
Theorem KalynaEncipher_sequence (plaintext : list Z) (ctx : kalyna_t) (ciphertext : list Z) :
  KalynaEncipher plaintext ctx ciphertext =
  Encipher_as_specified plaintext ctx ciphertext.
Proof.
  rewrite KalynaEncipher_eq. unfold Encipher_as_specified. cbv zeta.
  rewrite <- (encipher_sequence_eq
                (set_state ctx (blit (state ctx) 0 plaintext 0 (nb ctx)))).
  reflexivity.
Qed.

(** C3, as the code has it.  Take a pass of the loop of [KeyExpandEven]
    whose pair of round keys is not the last: [nr] is not the index of its
    round key nor, when [nk != nb], of its second one.  The pass derives
    the pair without touching [initial_data], the second key of a
    double-length key with [tmv] shifted once, and goes on to its end.
    There, after the pair, every word of [tmv] is shifted left by one bit,
    and [initial_data] is rotated left by one word, its first word moved to
    the end of the [nk]-word array, whether [nk == nb] or not.  The arrays
    keep their lengths, so that the same holds of the pass that follows. *)
Theorem KeyExpandEven_body_advances (kt : list Z) (l : even_loop) :
  length (el_tmv l) = nb (el_ctx l) ->
  length (el_initial_data l) = nk (el_ctx l) ->
  (1 <= nk (el_ctx l))%nat ->
  nr (el_ctx l) <> el_round l ->
  (nk (el_ctx l) = nb (el_ctx l) \/ nr (el_ctx l) <> (el_round l + 2)%nat) ->
  exists pair next,
    KeyExpandEven_pair kt l = inr pair /\
    KeyExpandEven_body kt l = inr next /\
    next = KeyExpandEven_advance pair /\
    el_initial_data pair = el_initial_data l /\
    el_tmv pair =
      (if (nk (el_ctx l) =? nb (el_ctx l))%nat then el_tmv l
       else map shift_word (el_tmv l)) /\
    el_tmv next = map shift_word (el_tmv pair) /\
    el_initial_data next = tl (el_initial_data l) ++ [hd 0 (el_initial_data l)] /\
    length (el_tmv next) = nb (el_ctx next) /\
    length (el_initial_data next) = nk (el_ctx next).
Proof.
  destruct l as [round tmv id c]. cbn [el_round el_tmv el_initial_data el_ctx].
  intros Lt Li Hk Hr Hq.
  unfold KeyExpandEven_pair, KeyExpandEven_body, KeyExpandEven_advance.
  cbn [el_round el_tmv el_initial_data el_ctx]. cbv zeta.
  destruct (derive_even_key_shape kt tmv id 0 round c) as (_ & B1 & K1 & R1).
  rewrite R1, K1, B1.
  destruct (Nat.eqb_spec (nr c) round) as [E|_]; [contradiction|].
  assert (Rot : Rotate (nk c) id = tl id ++ [hd 0 id]).
  { destruct id as [|x r]; [cbn in Li; lia|].
    cbn [length] in Li. rewrite <- Li. apply Rotate_eq. }
  assert (Lr : length (tl id ++ [hd 0 id]) = nk c).
  { destruct id as [|x r]; [cbn in Li; lia|].
    cbn [tl hd]. rewrite length_app. cbn [length] in *. lia. }
  destruct (Nat.eqb_spec (nk c) (nb c)) as [E|N]; cbn [negb].
  - eexists. eexists. split; [reflexivity|]. split; [reflexivity|].
    cbn [el_round el_tmv el_initial_data el_ctx]. rewrite B1, K1, Rot.
    split; [reflexivity|]. split; [reflexivity|]. split; [reflexivity|].
    rewrite (ShiftLeft_eq (nb c) tmv Lt), length_map.
    repeat split; assumption.
  - destruct (derive_even_key_shape kt (ShiftLeft (nb c) tmv) id (nb c) (round + 2)
                (derive_even_key kt tmv id 0 round c)) as (_ & B2 & K2 & R2).
    rewrite R2, R1, K2, K1, B2, B1.
    destruct (Nat.eqb_spec (nr c) (round + 2)) as [E|_];
      [destruct Hq as [Hq|Hq]; contradiction|].
    eexists. eexists. split; [reflexivity|]. split; [reflexivity|].
    cbn [el_round el_tmv el_initial_data el_ctx]. rewrite B2, K2, B1, K1, Rot.
    rewrite (ShiftLeft_eq (nb c) tmv Lt).
    rewrite (ShiftLeft_eq (nb c) (map (fun w => to_u64 (Z.shiftl w 1)) tmv))
      by now rewrite length_map.
    split; [reflexivity|]. split; [reflexivity|]. split; [reflexivity|].
    rewrite !length_map. repeat split; assumption.
Qed.

(** C4.  On every well-formed context and for every [nk]-word key the key
    schedule completes, and in the schedule it leaves, for every odd [i]
    with [1 <= i < nr], round key [i] is round key [i - 1], seen as
    [nb * 8] bytes in canonical order, rotated left by [2 * nb + 3] bytes
    and read back as words. *)
Theorem odd_round_keys_rotated (ctx : kalyna_t) (key : list Z) :
  context_ok ctx -> words_ok (nk ctx) key ->
  exists expanded,
    KalynaKeyExpand key ctx = Some expanded /\
    forall i, Nat.Odd i -> (1 <= i < nr expanded)%nat ->
      round_key expanded i =
      canonical_words (nb expanded)
        (rotate_left_bytes (2 * nb expanded + 3)
           (canonical_bytes (round_key expanded (i - 1)))).
Proof.
  intros Hc [Lk Uk].
  destruct (KalynaKeyExpand_ok key ctx Hc Uk) as (e & E & _ & _ & P); [lia|].
  exists e. split; [exact E|]. intros i Hi [_ Hlt]. apply (P i Hi Hlt).
Qed.

(** C5.  [KalynaInit] returns no context for a pair of sizes outside the
    five valid combinations, whatever the allocator does; when no
    allocation fails it returns, for each of the five, a context whose [nb]
    and [nk] are the sizes divided by 64 and whose [nr] is 10, 14, 14, 18
    and 18. *)
Theorem KalynaInit_configurations (alloc_ok : nat -> bool) (block_size key_size : Z) :
  (~ supported block_size key_size ->
   KalynaInit alloc_ok block_size key_size = None) /\
  ((forall k, alloc_ok k = true) -> supported block_size key_size ->
   exists ctx,
     KalynaInit alloc_ok block_size key_size = Some ctx /\
     nb ctx = Z.to_nat (block_size / 64) /\
     nk ctx = Z.to_nat (key_size / 64) /\
     nr ctx = specified_rounds block_size key_size).
Proof.
  split.
  - intros H. unfold KalynaInit.
    rewrite (select_parameters_unsupported _ _ H). now destruct (alloc_ok 0%nat).
  - intros A S. unfold KalynaInit.
    rewrite !A, (select_parameters_supported _ _ S). cbn [negb].
    rewrite (alloc_round_keys_always alloc_ok _ _ _ A).
    eexists. split; [reflexivity|]. cbn [nb nk nr]. auto.
Qed.

(** C6.  [EncipherRound] is [SubBytes], then [ShiftRows], then
    [MixColumns]; [DecipherRound] is [InvMixColumns], then [InvShiftRows],
    then [InvSubBytes]; and on every state of [nb] words, [nb] being 2, 4
    or 8, [DecipherRound] undoes [EncipherRound], and [EncipherRound] undoes
    [DecipherRound]. *)
Theorem round_functions_inverse (ctx : kalyna_t) :
  block_words (nb ctx) -> words_ok (nb ctx) (state ctx) ->
  EncipherRound ctx = MixColumns (ShiftRows (SubBytes ctx)) /\
  DecipherRound ctx = InvSubBytes (InvShiftRows (InvMixColumns ctx)) /\
  DecipherRound (EncipherRound ctx) = ctx /\
  EncipherRound (DecipherRound ctx) = ctx.
Proof.
  intros B W. split; [reflexivity|]. split; [reflexivity|]. split.
  - apply DecipherRound_EncipherRound; assumption.
  - apply EncipherRound_DecipherRound; assumption.
Qed.

(** C7.  The multiplication of [MultiplyGF] is commutative, has 1 as a
    neutral element and 0 as an absorbing element, on all byte values. *)
Theorem MultiplyGF_field_properties (a b : Z) :
  u8 a -> u8 b ->
  MultiplyGF a b = MultiplyGF b a /\ MultiplyGF a 1 = a /\ MultiplyGF a 0 = 0.
Proof.
  intros Ha Hb. split; [apply MultiplyGF_comm_bytes; assumption|].
  split; [apply MultiplyGF_1_r | apply MultiplyGF_0_r]; exact Ha.
Qed.

(** C8.  [AddRoundKey] sets state word [i], for [i < nb], to
    [(state[i] + round_keys[round][i]) mod 2^64], [SubRoundKey] sets it to
    [(state[i] - round_keys[round][i]) mod 2^64], and [SubRoundKey] after
    [AddRoundKey], for the same round, restores the state. *)
Theorem round_key_addition_wraps (round : nat) (ctx : kalyna_t) :
  words_ok (nb ctx) (state ctx) ->
  (forall i, (i < nb ctx)%nat ->
     nth i (state (AddRoundKey round ctx)) 0 =
     (nth i (state ctx) 0 + nth i (round_key ctx round) 0) mod 2 ^ 64) /\
  (forall i, (i < nb ctx)%nat ->
     nth i (state (SubRoundKey round ctx)) 0 =
     (nth i (state ctx) 0 - nth i (round_key ctx round) 0) mod 2 ^ 64) /\
  SubRoundKey round (AddRoundKey round ctx) = ctx.
Proof.
  intros W. pose proof W as [L R]. split; [|split].
  - intros i Hi. rewrite AddRoundKey_eq by exact L. cbn [state set_state].
    rewrite nth_imap by lia. reflexivity.
  - intros i Hi. rewrite SubRoundKey_eq by exact L. cbn [state set_state].
    rewrite nth_imap by lia. reflexivity.
  - apply SubRoundKey_AddRoundKey, W.
Qed.

(** C9, as the code has it.  On a context that [KalynaInit] has returned and
    on which no key has been expanded, [KalynaEncipher] and
    [KalynaDecipher] are not rejected: they run with the zeroed round keys
    and emit the block after [nr] applications of [EncipherRound], and of
    [DecipherRound]. *)
Theorem encipher_without_key_expansion
  (alloc_ok : nat -> bool) (block_size key_size : Z) (ctx : kalyna_t)
  (block out : list Z) :
  KalynaInit alloc_ok block_size key_size = Some ctx ->
  words_ok (nb ctx) block -> length out = nb ctx ->
  fst (KalynaEncipher block ctx out) =
    state (Nat.iter (nr ctx) EncipherRound (set_state ctx block)) /\
  fst (KalynaDecipher block ctx out) =
    state (Nat.iter (nr ctx) DecipherRound (set_state ctx block)).
Proof.
  intros H Hb Lo.
  destruct (KalynaInit_zero_keys _ _ _ _ H) as [Hz Hr].
  destruct (KalynaInit_context_ok _ _ _ _ H) as (Hc & _).
  destruct (load_ok ctx block Hc Hb) as [E O1].
  rewrite KalynaEncipher_eq, KalynaDecipher_eq. cbn [fst]. rewrite E.
  rewrite encipher_core_zero, decipher_core_zero by (try exact O1; assumption).
  destruct (iter_ctx_ok EncipherRound (nr ctx) (set_state ctx block)
              EncipherRound_ctx_ok zero_keys_EncipherRound O1 Hz) as [(_ & [Le _] & _) _].
  destruct (iter_ctx_ok DecipherRound (nr ctx) (set_state ctx block)
              DecipherRound_ctx_ok zero_keys_DecipherRound O1 Hz) as [(_ & [Ld _] & _) _].
  destruct (iter_frame EncipherRound (nr ctx) (set_state ctx block) EncipherRound_frame)
    as (Be & _).
  destruct (iter_frame DecipherRound (nr ctx) (set_state ctx block) DecipherRound_frame)
    as (Bd & _).
  rewrite Be in Le. rewrite Bd in Ld.
  change (nb (set_state ctx block)) with (nb ctx) in *.
  change (nr (set_state ctx block)) with (nr ctx) in *.
  split; apply blit_full; assumption.
Qed.

(** C10.  Two contexts with the same parameters and round keys give the
    same ciphertext for the same plaintext, whatever their state buffers
    held before the call; likewise [KalynaDecipher] for the same
    ciphertext. *)
Theorem output_independent_of_prior_state
  (ctx1 ctx2 : kalyna_t) (block out : list Z) :
  frame ctx1 ctx2 ->
  length (state ctx1) = nb ctx1 -> length (state ctx2) = nb ctx2 ->
  (nb ctx1 <= length block)%nat ->
  fst (KalynaEncipher block ctx1 out) = fst (KalynaEncipher block ctx2 out) /\
  fst (KalynaDecipher block ctx1 out) = fst (KalynaDecipher block ctx2 out).
Proof.
  intros (B & K & R & RK) L1 L2 Lb.
  assert (E : set_state ctx1 (blit (state ctx1) 0 block 0 (nb ctx1)) =
              set_state ctx2 (blit (state ctx2) 0 block 0 (nb ctx2))).
  { unfold set_state. rewrite B, K, R, RK. f_equal.
    rewrite !blit_all by lia. reflexivity. }
  rewrite !KalynaEncipher_eq, !KalynaDecipher_eq. cbn [fst].
  rewrite E, B. split; reflexivity.
Qed.

(** * Further properties of the engine *)

(** ** Encipher after decipher *)

Lemma AddRoundKey_SubRoundKey (round : nat) (ctx : kalyna_t) :
  words_ok (nb ctx) (state ctx) -> AddRoundKey round (SubRoundKey round ctx) = ctx.
Proof.
  intros [L R]. rewrite (SubRoundKey_eq round ctx L).
  rewrite AddRoundKey_eq by (cbn [state set_state nb]; now rewrite imap_length).
  destruct ctx as [n k r s rk]. unfold set_state, round_key.
  cbn [state nb nk nr round_keys] in *. f_equal.
  rewrite imap_imap. apply imap_id. intros i x Hx.
  unfold to_u64. rewrite Zplus_mod_idemp_l.
  replace (x - nth i (nth round rk []) 0 + nth i (nth round rk []) 0) with x by lia.
  apply Z.mod_small. rewrite Forall_forall in R. apply R, Hx.
Qed.

(** The interior rounds of the encipher loop undo those of the decipher
    loop, up to the final [DecipherRound]. *)
Lemma rounds_cancel_r (n : nat) :
  forall ctx : kalyna_t,
  ctx_ok ctx ->
  for_from 1 n (fun round c => XorRoundKey round (EncipherRound c))
    (DecipherRound
       (for_down 1 n (fun round c => XorRoundKey round (DecipherRound c)) ctx))
  = DecipherRound ctx.
Proof.
  induction n as [|n IH]; intros ctx Hc; [reflexivity|].
  rewrite for_from_last, for_down_S.
  pose proof (DecipherRound_ctx_ok _ Hc) as O1.
  pose proof (XorRoundKey_ctx_ok (1 + n) _ O1) as O2.
  rewrite (IH _ O2).
  rewrite (EncipherRound_DecipherRound _ (proj1 O2) (proj1 (proj2 O2))).
  apply XorRoundKey_involutive, O1.
Qed.

Lemma decipher_core_ok (ctx : kalyna_t) : ctx_ok ctx -> ctx_ok (decipher_core ctx).
Proof.
  intros H. unfold decipher_core.
  apply SubRoundKey_ctx_ok, DecipherRound_ctx_ok, decipher_rounds_ok,
    SubRoundKey_ctx_ok, H.
Qed.

Lemma encipher_core_decipher_core (ctx : kalyna_t) :
  ctx_ok ctx -> encipher_core (decipher_core ctx) = ctx.
Proof.
  intros H. unfold encipher_core.
  destruct (decipher_core_frame ctx) as (_ & _ & -> & _).
  unfold decipher_core.
  set (c2 := SubRoundKey (nr ctx) ctx).
  set (c3 := for_down 1 (nr ctx - 1) _ c2).
  assert (O2 : ctx_ok c2) by (apply SubRoundKey_ctx_ok, H).
  assert (O3 : ctx_ok c3) by (apply decipher_rounds_ok, O2).
  assert (O4 : ctx_ok (DecipherRound c3)) by (apply DecipherRound_ctx_ok, O3).
  rewrite AddRoundKey_SubRoundKey by apply O4.
  unfold c3. rewrite rounds_cancel_r by exact O2.
  rewrite EncipherRound_DecipherRound by apply O2.
  apply AddRoundKey_SubRoundKey, H.
Qed.

(** ** What the drivers touch *)

Lemma state_length_loop (f : nat -> list Z -> Z) (n : nat) (s : list Z) :
  length (for_loop 0 n (fun i st => upd i (f i st) st) s) = length s.
Proof.
  apply (for_loop_invariant (fun st => length st = length s)); [|reflexivity].
  intros i st Hs. now rewrite upd_length.
Qed.

Lemma AddRoundKey_length (round : nat) (ctx : kalyna_t) :
  length (state (AddRoundKey round ctx)) = length (state ctx).
Proof.
  unfold AddRoundKey. cbn [state set_state].
  apply (state_length_loop
           (fun i st => to_u64 (nth i st 0 + nth i (round_key ctx round) 0))).
Qed.

Lemma SubRoundKey_length (round : nat) (ctx : kalyna_t) :
  length (state (SubRoundKey round ctx)) = length (state ctx).
Proof.
  unfold SubRoundKey. cbn [state set_state].
  apply (state_length_loop
           (fun i st => to_u64 (nth i st 0 - nth i (round_key ctx round) 0))).
Qed.

Lemma BytesToWords_Inline_length (n : nat) (bytes words : list Z) :
  length words = n -> length (BytesToWords_Inline n bytes words) = n.
Proof.
  intros L. unfold BytesToWords_Inline.
  assert (B : length (blit words 0 (memory_words n bytes) 0 n) = n).
  { rewrite blit_overwrite by exact L.
    rewrite firstn_all2; rewrite ?length_skipn, memory_words_length; lia. }
  destruct IsBigEndian; [|exact B].
  rewrite (state_length_loop (fun i words => ReverseWord (nth i words 0))).
  exact B.
Qed.

(** [state_sized] is kept by every operation of the engine, whatever the
    tables hold. *)

Lemma SubBytes_sized (ctx : kalyna_t) : state_sized ctx -> state_sized (SubBytes ctx).
Proof.
  unfold state_sized, SubBytes. cbn [state set_state nb]. intros L.
  now rewrite (state_length_loop (fun i st => substitute_word sboxes_enc (nth i st 0))).
Qed.

Lemma InvSubBytes_sized (ctx : kalyna_t) : state_sized ctx -> state_sized (InvSubBytes ctx).
Proof.
  unfold state_sized, InvSubBytes. cbn [state set_state nb]. intros L.
  now rewrite (state_length_loop (fun i st => substitute_word sboxes_dec (nth i st 0))).
Qed.

Lemma ShiftRows_sized (ctx : kalyna_t) : state_sized ctx -> state_sized (ShiftRows ctx).
Proof.
  unfold state_sized, ShiftRows. cbn [state set_state nb].
  apply BytesToWords_Inline_length.
Qed.

Lemma InvShiftRows_sized (ctx : kalyna_t) : state_sized ctx -> state_sized (InvShiftRows ctx).
Proof.
  unfold state_sized, InvShiftRows. cbn [state set_state nb].
  apply BytesToWords_Inline_length.
Qed.

Lemma MatrixMultiply_sized (ctx : kalyna_t) (matrix : list (list Z)) :
  state_sized ctx -> state_sized (MatrixMultiply ctx matrix).
Proof.
  unfold state_sized, MatrixMultiply. cbn [state set_state nb]. intros L.
  now rewrite (state_length_loop
                 (fun col _ =>
                    MatrixMultiply_result (WordsToBytes_Inline (nb ctx) (state ctx))
                      matrix col)).
Qed.

Lemma EncipherRound_sized (ctx : kalyna_t) : state_sized ctx -> state_sized (EncipherRound ctx).
Proof.
  intros L. unfold EncipherRound, MixColumns.
  apply MatrixMultiply_sized, ShiftRows_sized, SubBytes_sized, L.
Qed.

Lemma DecipherRound_sized (ctx : kalyna_t) : state_sized ctx -> state_sized (DecipherRound ctx).
Proof.
  intros L. unfold DecipherRound, InvMixColumns.
  apply InvSubBytes_sized, InvShiftRows_sized, MatrixMultiply_sized, L.
Qed.

Lemma AddRoundKey_sized (round : nat) (ctx : kalyna_t) :
  state_sized ctx -> state_sized (AddRoundKey round ctx).
Proof.
  unfold state_sized. rewrite AddRoundKey_length. exact (fun L => L).
Qed.

Lemma SubRoundKey_sized (round : nat) (ctx : kalyna_t) :
  state_sized ctx -> state_sized (SubRoundKey round ctx).
Proof.
  unfold state_sized. rewrite SubRoundKey_length. exact (fun L => L).
Qed.

Lemma XorRoundKey_sized (round : nat) (ctx : kalyna_t) :
  state_sized ctx -> state_sized (XorRoundKey round ctx).
Proof.
  unfold state_sized, XorRoundKey. cbn [state set_state nb]. intros L.
  now rewrite (state_length_loop
                 (fun i st => Z.lxor (nth i st 0) (nth i (round_key ctx round) 0))).
Qed.

Lemma encipher_core_sized (ctx : kalyna_t) :
  state_sized ctx -> state_sized (encipher_core ctx).
Proof.
  intros L. unfold encipher_core.
  apply AddRoundKey_sized, EncipherRound_sized.
  apply (for_from_invariant state_sized); [|apply AddRoundKey_sized, L].
  intros i c Lc. apply XorRoundKey_sized, EncipherRound_sized, Lc.
Qed.

Lemma decipher_core_sized (ctx : kalyna_t) :
  state_sized ctx -> state_sized (decipher_core ctx).
Proof.
  intros L. unfold decipher_core.
  apply SubRoundKey_sized, DecipherRound_sized.
  apply (for_down_invariant state_sized); [|apply SubRoundKey_sized, L].
  intros i c Lc. apply XorRoundKey_sized, DecipherRound_sized, Lc.
Qed.

Lemma frame_load (ctx ctx' : kalyna_t) (block : list Z) :
  frame ctx ctx' -> state_sized ctx -> state_sized ctx' ->
  (nb ctx <= length block)%nat ->
  set_state ctx' (blit (state ctx') 0 block 0 (nb ctx')) =
  set_state ctx (blit (state ctx) 0 block 0 (nb ctx)).
Proof.
  intros (B & K & R & RK) L L' Lb. unfold state_sized in *.
  unfold set_state. rewrite B, K, R, RK. f_equal.
  rewrite !blit_all by lia. reflexivity.
Qed.

(** ** Codec *)

Lemma nth_le_bytes (n : nat) :
  forall (w : Z) (j : nat),
  (j < n)%nat -> nth j (le_bytes n w) 0 = to_u8 (Z.shiftr w (8 * Z.of_nat j)).
Proof.
  induction n as [|n IH]; intros w j Hj; [lia|].
  cbn [le_bytes]. destruct j as [|j].
  - cbn [nth]. now rewrite Z.shiftr_0_r.
  - cbn [nth]. rewrite IH by lia. rewrite Z.shiftr_shiftr by lia.
    f_equal. f_equal. lia.
Qed.

Lemma le_bytes_ReverseWord (w : Z) : le_bytes 8 (ReverseWord w) = rev (le_bytes 8 w).
Proof.
  rewrite ReverseWord_eq. apply le_bytes_reversed;
    [apply le_bytes_u8 | apply le_bytes_length].
Qed.

Lemma ReverseWord_u64 (w : Z) : u64 (ReverseWord w).
Proof.
  rewrite ReverseWord_eq. apply le_word_u64.
  - apply Forall_rev, le_bytes_u8.
  - rewrite length_rev. apply le_bytes_length.
Qed.

Lemma ReverseWord_involutive (w : Z) : u64 w -> ReverseWord (ReverseWord w) = w.
Proof.
  intros Hw. rewrite (ReverseWord_eq (ReverseWord w)), le_bytes_ReverseWord.
  rewrite rev_involutive. apply le_word_le_bytes. exact Hw.
Qed.

Lemma reverse_loop_words (n : nat) (words : list Z) :
  length words = n ->
  for_loop 0 n (fun i words => upd i (ReverseWord (nth i words 0)) words) words =
  map ReverseWord words.
Proof.
  intros L.
  rewrite (for_loop_pointwise (fun _ => ReverseWord) n words L).
  apply imap_map. reflexivity.
Qed.

Lemma object_bytes_reversed (w : Z) :
  host_big_endian = true -> object_bytes 8 (ReverseWord w) = le_bytes 8 w.
Proof.
  intros E. unfold object_bytes. rewrite E, le_bytes_ReverseWord.
  apply rev_involutive.
Qed.

Lemma memory_reversed (words : list Z) :
  host_big_endian = true ->
  flat_map (object_bytes 8) (map ReverseWord words) = canonical_bytes words.
Proof.
  intros E. unfold canonical_bytes.
  induction words as [|w ws IH]; [reflexivity|].
  cbn [map flat_map]. now rewrite IH, object_bytes_reversed.
Qed.

Lemma memory_le (words : list Z) :
  host_big_endian = false -> flat_map (object_bytes 8) words = canonical_bytes words.
Proof.
  intros E. unfold canonical_bytes, object_bytes. now rewrite E.
Qed.

Lemma memory_words_canonical_be (words : list Z) :
  host_big_endian = true ->
  memory_words (length words) (canonical_bytes words) = map ReverseWord words.
Proof.
  intros E. unfold canonical_bytes.
  induction words as [|w ws IH]; [reflexivity|].
  cbn [length memory_words flat_map map].
  rewrite firstn_app, skipn_app, le_bytes_length, Nat.sub_diag.
  rewrite firstn_all2, skipn_all2 by (rewrite le_bytes_length; lia).
  cbn [firstn skipn app]. rewrite app_nil_r, IH.
  unfold object_value. now rewrite E, ReverseWord_eq.
Qed.

Lemma WordsToBytes_eq (words : list Z) :
  WordsToBytes (length words) words =
  (canonical_bytes words, if host_big_endian then map ReverseWord words else words).
Proof.
  unfold WordsToBytes. rewrite IsBigEndian_eq.
  destruct host_big_endian eqn:E.
  - rewrite reverse_loop_words by reflexivity. now rewrite memory_reversed.
  - now rewrite memory_le.
Qed.

(** ** The layers, byte by byte *)

Lemma imap_ext_shift (f g : nat -> Z -> Z) (i j : nat) (l : list Z) :
  (forall k x, f (i + k)%nat x = g (j + k)%nat x) -> imap f i l = imap g j l.
Proof.
  intros H. apply nth_ext with (d := 0) (d' := 0).
  - now rewrite !imap_length.
  - intros k Hk. rewrite imap_length in Hk.
    rewrite !nth_imap by exact Hk. apply H.
Qed.

Lemma imap_app (f : nat -> Z -> Z) (l1 l2 : list Z) (i : nat) :
  imap f i (l1 ++ l2) = imap f i l1 ++ imap f (i + length l1) l2.
Proof.
  revert i. induction l1 as [|x l1 IH]; intros i.
  - cbn [app imap length]. now rewrite Nat.add_0_r.
  - cbn [app imap length]. rewrite IH. do 3 f_equal. lia.
Qed.

Lemma le_bytes_substitute_word (t : list (list Z)) (w : Z) :
  table_bytes t 4 256 ->
  le_bytes 8 (substitute_word t w) = substitute_bytes t (le_bytes 8 w).
Proof.
  intros Ht. rewrite substitute_word_eq.
  assert (L : length (substitute_bytes t (le_bytes 8 w)) = 8%nat)
    by (unfold substitute_bytes; rewrite imap_length; apply le_bytes_length).
  rewrite <- L at 1. apply le_bytes_le_word.
  apply substitute_bytes_u8; [exact Ht | apply le_bytes_u8].
Qed.

Lemma mod4_offset (c k : nat) : ((8 * c + k) mod 4 = k mod 4)%nat.
Proof.
  replace (8 * c + k)%nat with (k + (2 * c) * 4)%nat by lia.
  apply Nat.Div0.mod_add.
Qed.

(** The bytes of the substituted words are the bytes of the words, each
    sent through the table that its offset selects. *)
Lemma canonical_bytes_substituted (t : list (list Z)) (ws : list Z) (c : nat) :
  table_bytes t 4 256 ->
  canonical_bytes (map (substitute_word t) ws) =
  imap (fun k b => lookup t (k mod 4) b) (8 * c) (canonical_bytes ws).
Proof.
  intros Ht. revert c. unfold canonical_bytes.
  induction ws as [|w ws IH]; intros c; [reflexivity|].
  cbn [map flat_map]. rewrite imap_app, le_bytes_length.
  rewrite le_bytes_substitute_word by exact Ht.
  f_equal.
  - unfold substitute_bytes. apply imap_ext_shift. intros k x.
    cbn [Nat.add]. now rewrite mod4_offset.
  - replace (8 * c + 8)%nat with (8 * S c)%nat by lia. apply IH.
Qed.

Lemma canonical_bytes_inj (a b : list Z) :
  Forall u64 a -> Forall u64 b -> length a = length b ->
  canonical_bytes a = canonical_bytes b -> a = b.
Proof.
  intros Ha Hb L E.
  rewrite <- (canonical_words_bytes a Ha), <- (canonical_words_bytes b Hb).
  now rewrite E, L.
Qed.

(** *** The permutation, position by position *)

Lemma ShiftRows_loops_nth (n : nat) (bytes : list Z) (row col : nat) :
  block_words n -> length bytes = (n * 8)%nat ->
  (row < 8)%nat -> (col < n)%nat ->
  nth (row + (col + row / (8 / n)) mod n * 8)
      (ShiftRows_loops n bytes (scratch (n * 8))) 0 =
  nth (row + col * 8) bytes 0.
Proof.
  intros [-> | [-> | ->]] L Hr Hc.
  - explode bytes L 17.
    do 8 (destruct row as [|row];
          [do 2 (destruct col as [|col]; [vm_compute; reflexivity|]); lia|]); lia.
  - explode bytes L 33.
    do 8 (destruct row as [|row];
          [do 4 (destruct col as [|col]; [vm_compute; reflexivity|]); lia|]); lia.
  - explode bytes L 65.
    do 8 (destruct row as [|row];
          [do 8 (destruct col as [|col]; [vm_compute; reflexivity|]); lia|]); lia.
Qed.

Lemma InvShiftRows_loops_nth (n : nat) (bytes : list Z) (row col : nat) :
  block_words n -> length bytes = (n * 8)%nat ->
  (row < 8)%nat -> (col < n)%nat ->
  nth (row + col * 8) (InvShiftRows_loops n bytes (scratch (n * 8))) 0 =
  nth (row + (col + row / (8 / n)) mod n * 8) bytes 0.
Proof.
  intros [-> | [-> | ->]] L Hr Hc.
  - explode bytes L 17.
    do 8 (destruct row as [|row];
          [do 2 (destruct col as [|col]; [vm_compute; reflexivity|]); lia|]); lia.
  - explode bytes L 33.
    do 8 (destruct row as [|row];
          [do 4 (destruct col as [|col]; [vm_compute; reflexivity|]); lia|]); lia.
  - explode bytes L 65.
    do 8 (destruct row as [|row];
          [do 8 (destruct col as [|col]; [vm_compute; reflexivity|]); lia|]); lia.
Qed.

Lemma canonical_bytes_ShiftRows (ctx : kalyna_t) :
  length (state ctx) = nb ctx ->
  canonical_bytes (state (ShiftRows ctx)) =
  ShiftRows_loops (nb ctx) (canonical_bytes (state ctx)) (scratch (nb ctx * 8)).
Proof.
  intros L. rewrite ShiftRows_eq by exact L. cbn [state set_state].
  destruct (ShiftRows_loops_ok (nb ctx) (canonical_bytes (state ctx))
              (scratch (nb ctx * 8)) (canonical_bytes_u8 _) (scratch_u8 _)) as [U Ln].
  apply canonical_bytes_words; [exact U|].
  rewrite Ln, scratch_length. lia.
Qed.

Lemma canonical_bytes_InvShiftRows (ctx : kalyna_t) :
  length (state ctx) = nb ctx ->
  canonical_bytes (state (InvShiftRows ctx)) =
  InvShiftRows_loops (nb ctx) (canonical_bytes (state ctx)) (scratch (nb ctx * 8)).
Proof.
  intros L. rewrite InvShiftRows_eq by exact L. cbn [state set_state].
  destruct (InvShiftRows_loops_ok (nb ctx) (canonical_bytes (state ctx))
              (scratch (nb ctx * 8)) (canonical_bytes_u8 _) (scratch_u8 _)) as [U Ln].
  apply canonical_bytes_words; [exact U|].
  rewrite Ln, scratch_length. lia.
Qed.

(** A bytewise map that looks at the row only commutes with the two
    permutations: they move bytes within their rows. *)
Lemma ShiftRows_loops_bytewise (g : nat -> Z -> Z) (n : nat) (bytes : list Z) :
  block_words n -> length bytes = (n * 8)%nat ->
  ShiftRows_loops n (imap (fun k b => g (k mod 8)%nat b) 0 bytes) (scratch (n * 8)) =
    imap (fun k b => g (k mod 8)%nat b) 0 (ShiftRows_loops n bytes (scratch (n * 8))) /\
  InvShiftRows_loops n (imap (fun k b => g (k mod 8)%nat b) 0 bytes) (scratch (n * 8)) =
    imap (fun k b => g (k mod 8)%nat b) 0 (InvShiftRows_loops n bytes (scratch (n * 8))).
Proof.
  intros [-> | [-> | ->]] L.
  - explode bytes L 17. split; vm_compute; reflexivity.
  - explode bytes L 33. split; vm_compute; reflexivity.
  - explode bytes L 65. split; vm_compute; reflexivity.
Qed.

(** *** Substitution and permutation commute *)

Lemma mod8_mod4 (k : nat) : ((k mod 8) mod 4 = k mod 4)%nat.
Proof.
  rewrite (Nat.div_mod_eq k 8) at 2.
  replace (8 * (k / 8) + k mod 8)%nat with (k mod 8 + (2 * (k / 8)) * 4)%nat by lia.
  now rewrite Nat.Div0.mod_add.
Qed.

Lemma substituted_u8 (t : list (list Z)) (bs : list Z) (i : nat) :
  table_bytes t 4 256 -> Forall u8 bs ->
  Forall u8 (imap (fun k b => lookup t (k mod 4) b) i bs).
Proof.
  intros Ht Hb. apply imap_Forall_in. intros k x Hx. apply Ht.
  - apply Nat.mod_upper_bound. lia.
  - rewrite Forall_forall in Hb. apply Hb, Hx.
Qed.

Lemma canonical_words_substituted (t : list (list Z)) (n : nat) (bs : list Z) :
  table_bytes t 4 256 -> Forall u8 bs -> length bs = (8 * n)%nat ->
  canonical_words n (imap (fun k b => lookup t (k mod 4) b) 0 bs) =
  map (substitute_word t) (canonical_words n bs).
Proof.
  intros Ht Hb L. apply canonical_bytes_inj.
  - apply canonical_words_u64; [apply substituted_u8; assumption|].
    rewrite imap_length. lia.
  - apply Forall_forall. intros w Hw. apply in_map_iff in Hw.
    destruct Hw as (x & <- & _). apply substitute_word_u64, Ht.
  - now rewrite length_map, !canonical_words_length.
  - rewrite canonical_bytes_words
      by (try rewrite imap_length; try apply substituted_u8; assumption).
    rewrite (canonical_bytes_substituted t _ 0 Ht).
    now rewrite canonical_bytes_words by assumption.
Qed.

Lemma permute_substitute (t : list (list Z)) (n : nat) (st : list Z) :
  table_bytes t 4 256 -> block_words n -> length st = n ->
  canonical_words n
    (ShiftRows_loops n (canonical_bytes (map (substitute_word t) st)) (scratch (n * 8))) =
  map (substitute_word t)
    (canonical_words n (ShiftRows_loops n (canonical_bytes st) (scratch (n * 8)))) /\
  canonical_words n
    (InvShiftRows_loops n (canonical_bytes (map (substitute_word t) st)) (scratch (n * 8))) =
  map (substitute_word t)
    (canonical_words n (InvShiftRows_loops n (canonical_bytes st) (scratch (n * 8)))).
Proof.
  intros Ht B L.
  assert (Lb : length (canonical_bytes st) = (n * 8)%nat)
    by (rewrite canonical_bytes_length; lia).
  rewrite (canonical_bytes_substituted t st 0 Ht).
  rewrite (imap_ext_shift _ (fun k b => lookup t ((k mod 8) mod 4) b) _ 0)
    by (intros k x; now rewrite mod8_mod4).
  destruct (ShiftRows_loops_bytewise (fun r b => lookup t (r mod 4) b) n
              (canonical_bytes st) B Lb) as [-> ->].
  rewrite !(imap_ext_shift (fun k b => lookup t ((k mod 8) mod 4) b)
              (fun k b => lookup t (k mod 4) b) 0 0)
    by (intros k x; now rewrite mod8_mod4).
  destruct (ShiftRows_loops_ok n (canonical_bytes st) (scratch (n * 8))
              (canonical_bytes_u8 _) (scratch_u8 _)) as [U1 L1].
  destruct (InvShiftRows_loops_ok n (canonical_bytes st) (scratch (n * 8))
              (canonical_bytes_u8 _) (scratch_u8 _)) as [U2 L2].
  rewrite scratch_length in L1, L2.
  split; apply canonical_words_substituted; try assumption; lia.
Qed.

(** *** The diffusion layer, byte by byte *)

Lemma to_u8_lxor (a b : Z) : to_u8 (Z.lxor a b) = Z.lxor (to_u8 a) (to_u8 b).
Proof.
  unfold to_u8. apply Z.bits_inj'. intros k Hk.
  rewrite Z.lxor_spec, !Z.land_spec, Z.lxor_spec.
  destruct (Z.testbit a k), (Z.testbit b k), (Z.testbit 255 k); reflexivity.
Qed.

Lemma nth_le_bytes_lxor (a b : Z) (k : nat) :
  (k < 8)%nat ->
  nth k (le_bytes 8 (Z.lxor a b)) 0 =
  Z.lxor (nth k (le_bytes 8 a) 0) (nth k (le_bytes 8 b) 0).
Proof.
  intros Hk. rewrite !nth_le_bytes by exact Hk.
  now rewrite Z.shiftr_lxor, to_u8_lxor.
Qed.

Lemma nth_le_bytes_u8 (w : Z) (k : nat) : u8 (nth k (le_bytes 8 w) 0).
Proof. apply nth_Forall; [apply u8_0 | apply le_bytes_u8]. Qed.

Lemma lxor_swap (a b c d : Z) :
  Z.lxor (Z.lxor a b) (Z.lxor c d) = Z.lxor (Z.lxor a c) (Z.lxor b d).
Proof.
  rewrite !Z.lxor_assoc. f_equal.
  rewrite <- !Z.lxor_assoc. f_equal. apply Z.lxor_comm.
Qed.

Lemma le_word_lxor {A : Type} (f g : A -> Z) (l : list A) :
  (forall x, u8 (f x)) -> (forall x, u8 (g x)) ->
  le_word (map (fun x => Z.lxor (f x) (g x)) l) =
  Z.lxor (le_word (map f l)) (le_word (map g l)).
Proof.
  intros Hf Hg. induction l as [|x l IH]; [reflexivity|].
  cbn [map le_word]. rewrite IH.
  rewrite <- !Z.lxor_lor
    by (apply land_u8_shiftl; auto using lxor_u8).
  rewrite Z.shiftl_lxor. apply lxor_swap.
Qed.

Lemma matrix_entry_u8 (matrix : list (list Z)) (v : list Z) (row : nat) :
  table_bytes matrix 8 8 -> Forall u8 v -> (row < 8)%nat ->
  u8 (xor_sum (map (fun b => MultiplyGF (nth b v 0) (lookup matrix row (Z.of_nat b)))
                   (seq 0 8))).
Proof.
  intros Hm Hv Hr. apply xor_sum_u8. apply Forall_forall. intros x Hx.
  apply in_map_iff in Hx. destruct Hx as (b & <- & Hb). apply in_seq in Hb.
  apply MultiplyGF_u8; [apply nth_Forall; [apply u8_0 | exact Hv]|].
  apply Hm; lia.
Qed.

(** The column transformation distributes over XOR. *)
Lemma column_lxor (matrix : list (list Z)) (a b : Z) :
  table_bytes matrix 8 8 ->
  le_word (matrix_column matrix (le_bytes 8 (Z.lxor a b))) =
  Z.lxor (le_word (matrix_column matrix (le_bytes 8 a)))
         (le_word (matrix_column matrix (le_bytes 8 b))).
Proof.
  intros Hm. unfold matrix_column.
  set (e := fun (w : Z) (row : nat) =>
              xor_sum (map (fun k => MultiplyGF (nth k (le_bytes 8 w) 0)
                                       (lookup matrix row (Z.of_nat k))) (seq 0 8))).
  change (le_word (map (e (Z.lxor a b)) (seq 0 8)) =
          Z.lxor (le_word (map (e a) (seq 0 8))) (le_word (map (e b) (seq 0 8)))).
  assert (U : forall w row, u8 (e w (row mod 8)%nat)).
  { intros w row. apply matrix_entry_u8;
      [exact Hm | apply le_bytes_u8 | apply Nat.mod_upper_bound; lia]. }
  assert (R : forall w, map (e w) (seq 0 8) = map (fun r => e w (r mod 8)%nat) (seq 0 8)).
  { intros w. apply map_ext_in. intros r Hr. apply in_seq in Hr.
    now rewrite Nat.mod_small by lia. }
  rewrite (R a), (R b), <- le_word_lxor by (intros; apply U).
  f_equal. apply map_ext_in. intros r Hr. apply in_seq in Hr.
  rewrite Nat.mod_small by lia. unfold e.
  rewrite <- xor_sum_map_lxor. f_equal. apply map_ext_in. intros k Hk.
  apply in_seq in Hk. rewrite nth_le_bytes_lxor by lia.
  apply MultiplyGF_lxor_l; apply nth_le_bytes_u8.
Qed.

(** ** The key schedule in closed form *)

(** The operations on the state look at [nb] and at the state only. *)
Lemma block_of_set_state (ctx : kalyna_t) (s : list Z) :
  block_of (set_state ctx s) = block_context (nb ctx) s.
Proof. reflexivity. Qed.

Lemma block_of_AddRoundKeyExpand (value : list Z) (ctx : kalyna_t) :
  block_of (AddRoundKeyExpand value ctx) = block_of (AddRoundKeyExpand value (block_of ctx)).
Proof. reflexivity. Qed.

Lemma block_of_XorRoundKeyExpand (value : list Z) (ctx : kalyna_t) :
  block_of (XorRoundKeyExpand value ctx) = block_of (XorRoundKeyExpand value (block_of ctx)).
Proof. reflexivity. Qed.

Lemma block_of_EncipherRound (ctx : kalyna_t) :
  block_of (EncipherRound ctx) = block_of (EncipherRound (block_of ctx)).
Proof. reflexivity. Qed.

Lemma block_of_block_context (n : nat) (s : list Z) :
  block_of (block_context n s) = block_context n s.
Proof. reflexivity. Qed.

Lemma state_block_of (ctx : kalyna_t) : state (block_of ctx) = state ctx.
Proof. reflexivity. Qed.

(** What [derive_even_key] leaves in the context: the derived key in the
    state and in round key [round], the other round keys as they were. *)
Lemma derive_even_key_result
  (kt tmv initial_data : list Z) (offset round : nat) (ctx : kalyna_t) :
  ctx_ok ctx -> length kt = nb ctx ->
  (offset + nb ctx <= length initial_data)%nat ->
  (round < length (round_keys ctx))%nat ->
  state (derive_even_key kt tmv initial_data offset round ctx) =
    even_round_key (nb ctx) kt tmv (firstn (nb ctx) (skipn offset initial_data)) /\
  round_key (derive_even_key kt tmv initial_data offset round ctx) round =
    even_round_key (nb ctx) kt tmv (firstn (nb ctx) (skipn offset initial_data)) /\
  (forall i, i <> round ->
     round_key (derive_even_key kt tmv initial_data offset round ctx) i =
     round_key ctx i).
Proof.
  intros Hc Lk Lo Hr.
  pose proof (derive_even_key_ok kt tmv initial_data offset round ctx Hc Lk Lo) as Ok.
  destruct (derive_even_key_shape kt tmv initial_data offset round ctx) as (_ & Bk & _).
  assert (Lf : length (state (derive_even_key kt tmv initial_data offset round ctx))
               = nb ctx) by (rewrite <- Bk; apply Ok).
  clear Ok Bk. revert Lf.
  assert (Ls : length (state ctx) = nb ctx) by apply Hc.
  assert (Lr : length (round_key ctx round) = nb ctx)
    by (apply round_key_length; assumption).
  unfold derive_even_key. cbv zeta.
  rewrite (blit_full (state ctx) kt (nb ctx) Ls Lk).
  set (c2 := AddRoundKeyExpand tmv (set_state ctx kt)).
  assert (L2 : length (state c2) = nb ctx)
    by (apply (AddRoundKeyExpand_ok tmv (set_state ctx kt)); exact Lk).
  rewrite (blit_scratch (state c2) 0 (nb ctx)). cbn [skipn].
  rewrite (firstn_all2 (state c2)) by lia.
  rewrite (blit_overwrite (state c2) initial_data offset (nb ctx) L2).
  set (data := firstn (nb ctx) (skipn offset initial_data)).
  set (c9 := AddRoundKeyExpand (state c2) _).
  intros Lf. cbn [state set_round_key] in Lf.
  assert (E : state c9 = even_round_key (nb ctx) kt tmv data) by reflexivity.
  split; [exact E|]. split.
  - unfold set_round_key, round_key. cbn [round_keys state].
    change (round_keys c9) with (round_keys ctx).
    rewrite nth_upd_same by exact Hr.
    change (nth round (round_keys ctx) []) with (round_key ctx round).
    rewrite (blit_overwrite (round_key ctx round) (state c9) 0 (nb ctx) Lr).
    cbn [skipn]. rewrite firstn_all2 by lia. exact E.
  - intros i Hi. unfold set_round_key, round_key. cbn [round_keys].
    change (round_keys c9) with (round_keys ctx).
    apply nth_upd_other. auto.
Qed.

(** *** The counter block and the rotation of the key *)

Lemma counter_block_S (n j : nat) :
  ShiftLeft n (counter_block n j) = counter_block n (S j).
Proof.
  unfold counter_block. rewrite ShiftLeft_eq by apply repeat_length.
  rewrite map_repeat. reflexivity.
Qed.

Lemma nth_Rotate (l : list Z) (i : nat) :
  (i < length l)%nat ->
  nth i (Rotate (length l) l) 0 = nth (S i mod length l) l 0.
Proof.
  destruct l as [|x r]; [cbn; lia|]. intros Hi. cbn [length] in *.
  rewrite Rotate_eq.
  destruct (Nat.eq_dec i (length r)) as [->|Hne].
  - rewrite Nat.Div0.mod_same. rewrite app_nth2 by lia.
    now rewrite Nat.sub_diag.
  - rewrite Nat.mod_small by lia. rewrite app_nth1 by lia. reflexivity.
Qed.

Lemma iter_S {T : Type} (f : T -> T) (n : nat) (x : T) :
  Nat.iter (S n) f x = f (Nat.iter n f x).
Proof. reflexivity. Qed.

Lemma iter_Rotate_length (p : nat) (l : list Z) :
  length (Nat.iter p (Rotate (length l)) l) = length l.
Proof.
  induction p as [|p IH]; [reflexivity|].
  now rewrite iter_S, Rotate_length.
Qed.

Lemma nth_iter_Rotate (p : nat) (l : list Z) (i : nat) :
  (i < length l)%nat ->
  nth i (Nat.iter p (Rotate (length l)) l) 0 = nth ((p + i) mod length l) l 0.
Proof.
  revert i. induction p as [|p IH]; intros i Hi.
  - cbn [Nat.add]. now rewrite Nat.mod_small.
  - rewrite iter_S.
    pose proof (iter_Rotate_length p l) as L.
    rewrite <- L at 1. rewrite nth_Rotate by lia. rewrite L.
    rewrite IH by (apply Nat.mod_upper_bound; lia).
    rewrite Nat.Div0.add_mod_idemp_r. f_equal. f_equal. lia.
Qed.

Lemma key_window_eq (key : list Z) (n p offset : nat) :
  (offset + n <= length key)%nat ->
  firstn n (skipn offset (Nat.iter p (Rotate (length key)) key)) =
  key_window key n (p + offset).
Proof.
  intros H. unfold key_window.
  pose proof (iter_Rotate_length p key) as L.
  apply nth_ext with (d := 0) (d' := 0).
  - rewrite length_firstn, length_skipn, length_map, length_seq. lia.
  - intros i Hi. rewrite length_firstn, length_skipn in Hi.
    rewrite nth_firstn.
    replace (i <? n)%nat with true by (symmetry; apply Nat.ltb_lt; lia).
    rewrite nth_skipn, nth_iter_Rotate by lia.
    rewrite (nth_map_seq (fun i => nth ((p + offset + i) mod length key) key 0)) by lia.
    f_equal. f_equal. lia.
Qed.

(** *** The loop of [KeyExpandEven], pass by pass *)

Lemma div_mul_l (q p : nat) : (1 <= q)%nat -> ((q * p) / q = p)%nat.
Proof. intros H. rewrite Nat.mul_comm. apply Nat.div_mul. lia. Qed.

Lemma mod_mul_l (q p : nat) : ((q * p) mod q = 0)%nat.
Proof. rewrite Nat.mul_comm. apply Nat.Div0.mod_mul. Qed.

Lemma div2_succ (p : nat) : ((2 * p + 1) / 2 = p)%nat.
Proof. symmetry. apply (Nat.div_unique _ 2 p 1); lia. Qed.

Lemma mod2_succ (p : nat) : ((2 * p + 1) mod 2 = 1)%nat.
Proof. symmetry. apply (Nat.mod_unique _ 2 p 1); lia. Qed.

Lemma KeyExpandEven_loop_keys (n k q : nat) (kt key : list Z) (fuel : nat) :
  (q = 1 \/ q = 2)%nat -> k = (q * n)%nat -> length kt = n -> length key = k ->
  forall (l : even_loop) (p : nat),
  ctx_ok (el_ctx l) -> nb (el_ctx l) = n -> nk (el_ctx l) = k ->
  length (round_keys (el_ctx l)) = S (nr (el_ctx l)) ->
  el_round l = (2 * (q * p))%nat ->
  el_tmv l = counter_block n (q * p) ->
  el_initial_data l = Nat.iter p (Rotate k) key ->
  (exists h, nr (el_ctx l) = (el_round l + 2 * h)%nat /\ (h < fuel)%nat) ->
  exists ctx',
    KeyExpandEven_loop fuel kt l = Some ctx' /\
    ctx_ok ctx' /\ same_shape (el_ctx l) ctx' /\
    (forall j, (q * p <= j)%nat -> (2 * j <= nr (el_ctx l))%nat ->
       round_key ctx' (2 * j) = even_key_from n q kt key j) /\
    (forall i, (i < 2 * (q * p))%nat \/ Nat.Odd i ->
       round_key ctx' i = round_key (el_ctx l) i) /\
    state ctx' = even_key_from n q kt key (nr (el_ctx l) / 2).
Proof.
  intros Hq Hk Lkt Lkey.
  induction fuel as [|fuel IH];
    intros [round tmv id c] p Hc Hn Hnk Hs Hround Htmv Hid [h [Hh Hf]];
    cbn [el_round el_tmv el_initial_data el_ctx] in *; [lia|].
  subst round tmv id.
  assert (Hn1 : (1 <= n)%nat) by (rewrite <- Hn; apply block_words_pos, Hc).
  assert (Hq1 : (1 <= q)%nat) by lia.
  assert (Lid : length (Nat.iter p (Rotate k) key) = k)
    by (rewrite <- Lkey at 1; rewrite iter_Rotate_length; exact Lkey).
  cbn [KeyExpandEven_loop]. unfold KeyExpandEven_body.
  cbn [el_round el_tmv el_initial_data el_ctx]. cbv zeta.
  set (tmv := counter_block n (q * p)).
  set (id := Nat.iter p (Rotate k) key) in *.
  set (c1 := derive_even_key kt tmv id 0 (2 * (q * p)) c).
  destruct (derive_even_key_shape kt tmv id 0 (2 * (q * p)) c) as (S1 & B1 & K1 & R1).
  fold c1 in S1, B1, K1, R1.
  assert (O1 : ctx_ok c1) by (apply derive_even_key_ok; [exact Hc | lia | nia]).
  destruct (derive_even_key_result kt tmv id 0 (2 * (q * p)) c Hc) as (St1 & Rk1 & Ot1);
    [lia | nia | lia |].
  fold c1 in St1, Rk1, Ot1. rewrite Hn in St1, Rk1.
  assert (G1 : round_key c1 (2 * (q * p)) = even_key_from n q kt key (q * p) /\
               state c1 = even_key_from n q kt key (q * p)).
  { rewrite St1, Rk1. unfold even_key_from.
    rewrite div_mul_l, mod_mul_l by exact Hq1. cbn [Nat.mul].
    unfold id. rewrite <- Lkey.
    rewrite (key_window_eq key n p 0) by nia. split; reflexivity. }
  destruct G1 as [G1 G1s].
  rewrite R1, K1, B1.
  destruct (nr c =? 2 * (q * p))%nat eqn:E1.
  { apply Nat.eqb_eq in E1. exists c1. split; [reflexivity|].
    split; [exact O1|]. split; [exact S1|]. split; [|split].
    - intros j Hj1 Hj2. replace j with (q * p)%nat by lia. exact G1.
    - intros i Hi. apply Ot1. destruct Hi as [Hi | [m ->]]; lia.
    - rewrite E1, Nat.mul_comm, Nat.div_mul by lia. exact G1s. }
  apply Nat.eqb_neq in E1.
  destruct (nk c =? nb c)%nat eqn:E2; cbn [negb].
  - apply Nat.eqb_eq in E2.
    assert (Q : q = 1%nat) by nia. subst q.
    destruct (IH (mk_even_loop (2 * (1 * p) + 2) (ShiftLeft (nb c) tmv)
                    (Rotate (nk c) id) c1) (S p))
      as (ctx' & L' & O' & S' & A' & B' & C');
      cbn [el_round el_tmv el_initial_data el_ctx].
    + exact O1.
    + congruence.
    + congruence.
    + destruct S1 as (_ & _ & _ & ->). rewrite R1. exact Hs.
    + lia.
    + rewrite Hn. unfold tmv. rewrite counter_block_S. f_equal; lia.
    + rewrite Hnk. unfold id. now rewrite iter_S.
    + exists (h - 1)%nat. rewrite R1. lia.
    + exists ctx'. cbn [el_ctx] in S', A', B', C'. split; [exact L'|].
      split; [exact O'|]. split; [eapply same_shape_trans; eassumption|].
      split; [|split].
      * intros j Hj1 Hj2.
        destruct (Nat.eq_dec j (1 * p)) as [->|Hne].
        -- rewrite B' by lia. exact G1.
        -- apply A'; [lia | rewrite R1; exact Hj2].
      * intros i Hi. rewrite B' by (destruct Hi; [left; lia | right; assumption]).
        apply Ot1. destruct Hi as [Hi | [m ->]]; lia.
      * rewrite C', R1. reflexivity.
  - apply Nat.eqb_neq in E2.
    assert (Q : q = 2%nat) by (destruct Hq as [-> | ->]; [lia | reflexivity]).
    subst q.
    set (tmv2 := ShiftLeft (nb c) tmv).
    set (c2 := derive_even_key kt tmv2 id (nb c) (2 * (2 * p) + 2) c1).
    destruct (derive_even_key_shape kt tmv2 id (nb c) (2 * (2 * p) + 2) c1)
      as (S2 & B2 & K2 & R2).
    fold c2 in S2, B2, K2, R2.
    assert (O2 : ctx_ok c2).
    { apply derive_even_key_ok; [exact O1 | congruence | rewrite B1; lia]. }
    destruct (derive_even_key_result kt tmv2 id (nb c) (2 * (2 * p) + 2) c1 O1)
      as (St2 & Rk2 & Ot2).
    { congruence. }
    { rewrite B1. lia. }
    { destruct S1 as (_ & _ & _ & ->). lia. }
    fold c2 in St2, Rk2, Ot2. rewrite B1, Hn in St2, Rk2.
    assert (G2 : round_key c2 (2 * (2 * p) + 2) = even_key_from n 2 kt key (2 * p + 1) /\
                 state c2 = even_key_from n 2 kt key (2 * p + 1)).
    { rewrite St2, Rk2. unfold even_key_from.
      rewrite div2_succ, mod2_succ. rewrite Nat.mul_1_l.
      unfold id. rewrite <- Lkey.
      rewrite (key_window_eq key n p n) by lia.
      unfold tmv2, tmv. rewrite Hn, counter_block_S.
      replace (S (2 * p)) with (2 * p + 1)%nat by lia. split; reflexivity. }
    destruct G2 as [G2 G2s].
    rewrite R2, R1, K2, K1, B2, B1.
    destruct (nr c =? 2 * (2 * p) + 2)%nat eqn:E3.
    { apply Nat.eqb_eq in E3. exists c2. split; [reflexivity|].
      split; [exact O2|]. split; [eapply same_shape_trans; eassumption|].
      split; [|split].
      - intros j Hj1 Hj2.
        destruct (Nat.eq_dec j (2 * p)) as [->|Hne].
        + rewrite Ot2 by lia. exact G1.
        + replace (2 * j)%nat with (2 * (2 * p) + 2)%nat by lia.
          replace j with (2 * p + 1)%nat by lia. exact G2.
      - intros i Hi. rewrite Ot2 by (destruct Hi as [Hi | [m ->]]; lia).
        apply Ot1. destruct Hi as [Hi | [m ->]]; lia.
      - rewrite E3.
        replace (2 * (2 * p) + 2)%nat with ((2 * p + 1) * 2)%nat by lia.
        rewrite Nat.div_mul by lia. exact G2s. }
    apply Nat.eqb_neq in E3.
    destruct (IH (mk_even_loop (2 * (2 * p) + 2 + 2) (ShiftLeft (nb c) tmv2)
                    (Rotate (nk c) id) c2) (S p))
      as (ctx' & L' & O' & S' & A' & B' & C');
      cbn [el_round el_tmv el_initial_data el_ctx].
    + exact O2.
    + congruence.
    + congruence.
    + destruct S2 as (_ & _ & _ & ->). destruct S1 as (_ & _ & _ & ->).
      rewrite R2, R1. exact Hs.
    + lia.
    + unfold tmv2, tmv. rewrite Hn, !counter_block_S. f_equal; lia.
    + rewrite Hnk. unfold id. now rewrite iter_S.
    + exists (h - 2)%nat. rewrite R2, R1. lia.
    + exists ctx'. cbn [el_ctx] in S', A', B', C'. split; [exact L'|].
      split; [exact O'|].
      split; [eapply same_shape_trans; [exact S1|];
              eapply same_shape_trans; eassumption|].
      split; [|split].
      * intros j Hj1 Hj2.
        destruct (Nat.eq_dec j (2 * p)) as [->|Hne1].
        { rewrite B' by lia. rewrite Ot2 by lia. exact G1. }
        destruct (Nat.eq_dec j (2 * p + 1)) as [->|Hne2].
        { rewrite B' by lia.
          replace (2 * (2 * p + 1))%nat with (2 * (2 * p) + 2)%nat by lia. exact G2. }
        apply A'; [lia | rewrite R2, R1; exact Hj2].
      * intros i Hi. rewrite B' by (destruct Hi; [left; lia | right; assumption]).
        rewrite Ot2 by (destruct Hi as [Hi | [m ->]]; lia).
        apply Ot1. destruct Hi as [Hi | [m ->]]; lia.
      * rewrite C', R2, R1. reflexivity.
Qed.

(** *** The intermediate key and the whole schedule *)

Lemma frame_eq (ctx ctx' : kalyna_t) : frame ctx ctx' -> ctx' = set_state ctx (state ctx').
Proof.
  destruct ctx, ctx'. unfold frame, set_state. cbn [nb nk nr state round_keys].
  intros (-> & -> & -> & ->). reflexivity.
Qed.

Lemma start_block (n k : nat) :
  (1 <= n)%nat -> Z.of_nat (n + k + 1) < 2 ^ 64 ->
  upd 0 (to_u64 (nth 0 (repeat 0 n) 0 + Z.of_nat (n + k + 1))) (repeat 0 n) =
  Z.of_nat (n + k + 1) :: repeat 0 (n - 1).
Proof.
  intros Hn Hb. destruct n as [|n]; [lia|].
  cbn [repeat nth upd Nat.sub]. rewrite Nat.sub_0_r, Z.add_0_l.
  unfold to_u64. rewrite Z.mod_small by lia. reflexivity.
Qed.

Lemma KeyExpandKt_eq (key : list Z) (ctx : kalyna_t) :
  context_ok ctx -> Forall u64 key ->
  KeyExpandKt key ctx =
  (intermediate_key (nb ctx) (nk ctx) key,
   set_state ctx (intermediate_key (nb ctx) (nk ctx) key)).
Proof.
  intros (Hc & Hs & Hp) Hk.
  destruct (KeyExpandKt_ok key ctx Hc Hk) as [O L].
  pose proof (frame_eq _ _ (KeyExpandKt_frame key ctx)) as F.
  assert (E2 : state (snd (KeyExpandKt key ctx)) = intermediate_key (nb ctx) (nk ctx) key).
  { unfold KeyExpandKt, intermediate_key. cbv zeta. cbn [snd].
    cbn [state set_state nb nk].
    rewrite (blit_full (state ctx) (repeat 0 (nb ctx)) (nb ctx))
      by (try apply repeat_length; apply Hc).
    rewrite !blit_scratch. cbn [skipn].
    rewrite start_block; [reflexivity | apply block_words_pos, Hc |].
    destruct Hc as (B & _). destruct Hp as [[-> | ->] _];
      unfold block_words in B; change (2 ^ 64) with 18446744073709551616; lia. }
  assert (E1 : fst (KeyExpandKt key ctx) = state (snd (KeyExpandKt key ctx))).
  { unfold KeyExpandKt. cbv zeta. cbn [fst snd].
    rewrite (blit_scratch _ 0 (nb ctx)). cbn [skipn].
    apply firstn_all2.
    destruct O as (_ & [Lo _] & _). unfold KeyExpandKt in Lo. cbv zeta in Lo.
    cbn [snd] in Lo. rewrite Lo. apply Nat.le_refl. }
  rewrite (surjective_pairing (KeyExpandKt key ctx)), E1, F, E2.
  reflexivity.
Qed.

Lemma for_stride2_invariant {T : Type} (Inv : T -> Prop) (body : nat -> T -> T) :
  (forall i s, Inv s -> Inv (body i s)) ->
  forall d i s, Inv s -> Inv (for_stride2 d i body s).
Proof.
  intros Hb. induction d as [d IH] using lt_wf_ind. intros i s Hs.
  destruct d as [|[|d]]; cbn [for_stride2]; cbv zeta; auto.
Qed.

Lemma KeyExpandOdd_state (ctx : kalyna_t) : state (KeyExpandOdd ctx) = state ctx.
Proof.
  unfold KeyExpandOdd.
  apply (for_stride2_invariant (fun c => state c = state ctx)); [|reflexivity].
  intros i c Hc. exact Hc.
Qed.

Lemma KeyExpandOdd_even_keys (ctx : kalyna_t) (j : nat) :
  ctx_ok ctx -> schedule_ok ctx ->
  round_key (KeyExpandOdd ctx) (2 * j) = round_key ctx (2 * j).
Proof.
  intros Hc Hs. unfold schedule_ok in Hs. rewrite KeyExpandOdd_eq.
  destruct (KeyExpandOdd_loop (nr ctx - 1) 1 ctx Hc (le_n 1)) as (_ & _ & _ & B');
    [lia|].
  apply B'. intros m _. lia.
Qed.

Lemma KeyExpandEven_closed (key kt : list Z) (c : kalyna_t) :
  ctx_ok c -> schedule_ok c -> parameters_ok c ->
  length kt = nb c -> length key = nk c ->
  exists c2,
    KeyExpandEven key kt c = Some c2 /\ ctx_ok c2 /\ same_shape c c2 /\
    (forall j, (2 * j <= nr c)%nat ->
       round_key c2 (2 * j) = even_key_from (nb c) (nk c / nb c) kt key j) /\
    state c2 = even_key_from (nb c) (nk c / nb c) kt key (nr c / 2).
Proof.
  intros Hc Hs [Hp [h Hh]] L1 Lk.
  rewrite (KeyExpandEven_entry key kt c Lk).
  assert (Hn1 : (1 <= nb c)%nat) by (apply block_words_pos, Hc).
  assert (Hq : (nk c / nb c = 1 \/ nk c / nb c = 2)%nat).
  { destruct Hp as [E | E]; rewrite E.
    - rewrite Nat.div_same by lia. left; reflexivity.
    - rewrite Nat.div_mul by lia. right; reflexivity. }
  assert (Hqn : nk c = (nk c / nb c * nb c)%nat).
  { destruct Hp as [E | E]; rewrite E.
    - rewrite Nat.div_same by lia. lia.
    - rewrite Nat.div_mul by lia. lia. }
  destruct (KeyExpandEven_loop_keys (nb c) (nk c) (nk c / nb c) kt key
              (S (nr c)) Hq Hqn L1 Lk (first_pass c key) 0 Hc eq_refl eq_refl Hs)
    as (c2 & E2 & O2 & S2 & A2 & _ & C2).
  - unfold first_pass. cbn [el_round]. lia.
  - unfold first_pass, counter_block. cbn [el_tmv]. now rewrite Nat.mul_0_r.
  - reflexivity.
  - exists h. unfold first_pass. cbn [el_round el_ctx]. lia.
  - exists c2. split; [exact E2|]. split; [exact O2|]. split; [exact S2|].
    split; [|exact C2]. intros j Hj. apply A2; [lia | exact Hj].
Qed.

Lemma KalynaKeyExpand_unfold (key : list Z) (ctx : kalyna_t) :
  KalynaKeyExpand key ctx =
  match KeyExpandEven key (fst (KeyExpandKt key ctx)) (snd (KeyExpandKt key ctx)) with
  | Some c => Some (KeyExpandOdd c)
  | None => None
  end.
Proof. unfold KalynaKeyExpand. now destruct (KeyExpandKt key ctx). Qed.

Lemma expand_from_intermediate_key (key kt : list Z) (ctx : kalyna_t) :
  context_ok ctx -> length key = nk ctx -> length kt = nb ctx ->
  ctx_ok (set_state ctx kt) ->
  exists e,
    match KeyExpandEven key kt (set_state ctx kt) with
    | Some c => Some (KeyExpandOdd c)
    | None => None
    end = Some e /\ context_ok e /\ same_shape ctx e /\
    state e = even_key_from (nb ctx) (nk ctx / nb ctx) kt key (nr ctx / 2) /\
    (forall j, (2 * j <= nr ctx)%nat ->
       round_key e (2 * j) = even_key_from (nb ctx) (nk ctx / nb ctx) kt key j) /\
    (forall i, Nat.Odd i -> (i < nr ctx)%nat ->
       round_key e i = rotate_left_words (nb ctx) (round_key e (i - 1))).
Proof.
  intros (Hc & Hs & Hp) Lk L1 O1.
  destruct (KeyExpandEven_closed key kt (set_state ctx kt) O1 Hs Hp L1 Lk)
    as (c2 & E2 & O2 & (B2 & K2 & R2 & L2) & A2 & C2).
  rewrite E2.
  cbn [nb nk nr round_keys set_state] in B2, K2, R2, L2, A2, C2.
  assert (Hs2 : schedule_ok c2).
  { unfold schedule_ok in *. rewrite L2, R2. exact Hs. }
  destruct (KeyExpandOdd_ok c2 O2 Hs2) as (O3 & (B3 & K3 & R3 & L3) & P3).
  exists (KeyExpandOdd c2). split; [reflexivity|]. split; [|split; [|split; [|split]]].
  - split; [exact O3|]. split.
    + unfold schedule_ok in *. rewrite L3, R3. exact Hs2.
    + unfold parameters_ok. rewrite K3, B3, R3, K2, B2, R2. exact Hp.
  - unfold same_shape. rewrite B3, K3, R3, L3, B2, K2, R2, L2. repeat split.
  - rewrite KeyExpandOdd_state. exact C2.
  - intros j Hj. rewrite (KeyExpandOdd_even_keys c2 j O2 Hs2). apply A2, Hj.
  - intros i Hi Hlt. rewrite <- B2. apply P3; [exact Hi | rewrite R2; exact Hlt].
Qed.

(** The context that [KalynaKeyExpand] returns, key by key. *)
Lemma KalynaKeyExpand_closed (key : list Z) (ctx : kalyna_t) :
  context_ok ctx -> words_ok (nk ctx) key ->
  exists e,
    KalynaKeyExpand key ctx = Some e /\ context_ok e /\ same_shape ctx e /\
    state e = even_key_of (nb ctx) (nk ctx) key (nr ctx / 2) /\
    (forall j, (2 * j <= nr ctx)%nat ->
       round_key e (2 * j) = even_key_of (nb ctx) (nk ctx) key j) /\
    (forall i, Nat.Odd i -> (i < nr ctx)%nat ->
       round_key e i = rotate_left_words (nb ctx) (round_key e (i - 1))).
Proof.
  intros Hx [Lk Uk].
  destruct (KeyExpandKt_ok key ctx (proj1 Hx) Uk) as [O1 L1].
  rewrite KalynaKeyExpand_unfold.
  revert O1 L1. rewrite (KeyExpandKt_eq key ctx Hx Uk).
  unfold fst, snd. intros O1 L1.
  exact (expand_from_intermediate_key key _ ctx Hx Lk L1 O1).
Qed.

Lemma kalyna_ext (a b : kalyna_t) :
  nb a = nb b -> nk a = nk b -> nr a = nr b -> state a = state b ->
  round_keys a = round_keys b -> a = b.
Proof.
  destruct a, b. cbn [nb nk nr state round_keys]. intros -> -> -> -> ->. reflexivity.
Qed.

(** ** Properties of the drivers *)

(** X1.  Enciphering what [KalynaDecipher] has produced gives the block
    back, on every well-formed context and every [nb]-word block: with the
    round trip in the other direction, [KalynaEncipher] and
    [KalynaDecipher] are inverse permutations of the [nb]-word blocks. *)
Theorem encipher_decipher_round_trip
  (ctx : kalyna_t) (ciphertext pbuf cbuf : list Z) :
  ctx_ok ctx -> words_ok (nb ctx) ciphertext ->
  length pbuf = nb ctx -> length cbuf = nb ctx ->
  fst (KalynaEncipher (fst (KalynaDecipher ciphertext ctx pbuf))
                      (snd (KalynaDecipher ciphertext ctx pbuf)) cbuf) = ciphertext.
Proof.
  intros Hc Hp Lp Lc. rewrite KalynaDecipher_eq. cbn [fst snd].
  destruct (load_ok ctx ciphertext Hc Hp) as [-> O1].
  set (c1 := set_state ctx ciphertext) in *.
  pose proof (decipher_core_ok c1 O1) as O5.
  destruct (decipher_core_frame c1) as (N5 & _).
  change (nb c1) with (nb ctx) in N5.
  rewrite KalynaEncipher_eq. cbn [fst snd]. rewrite N5.
  assert (L5 : length (state (decipher_core c1)) = nb ctx)
    by (rewrite <- N5; apply O5).
  rewrite (blit_full pbuf) by assumption.
  rewrite (blit_full (state (decipher_core c1))) by assumption.
  rewrite set_state_same, encipher_core_decipher_core by exact O1.
  apply blit_full; [exact Lc | apply Hp].
Qed.

(** X2.  [KalynaEncipher] and [KalynaDecipher] change nothing of the
    context but its state: [nb], [nk], [nr] and the round keys are kept.
    Of the output buffer they overwrite the first [nb] words, with the
    first [nb] words of the state that they leave in the context, and keep
    the rest. *)
Theorem drivers_touch_state_only (block out : list Z) (ctx : kalyna_t) :
  (frame ctx (snd (KalynaEncipher block ctx out)) /\
   fst (KalynaEncipher block ctx out) =
     firstn (nb ctx) (state (snd (KalynaEncipher block ctx out))) ++ skipn (nb ctx) out) /\
  (frame ctx (snd (KalynaDecipher block ctx out)) /\
   fst (KalynaDecipher block ctx out) =
     firstn (nb ctx) (state (snd (KalynaDecipher block ctx out))) ++ skipn (nb ctx) out).
Proof.
  rewrite KalynaEncipher_eq, KalynaDecipher_eq. cbn [fst snd]. split; split.
  - eapply frame_trans; [apply frame_set_state | apply encipher_core_frame].
  - reflexivity.
  - eapply frame_trans; [apply frame_set_state | apply decipher_core_frame].
  - reflexivity.
Qed.

(** X3.  A context serves any number of blocks: after a call of
    [KalynaEncipher] or [KalynaDecipher] on a block [a], a call on a
    block [b] emits what it would have emitted on the context before the
    first call. *)
Theorem driver_calls_independent (ctx : kalyna_t) (a b out_a out_b : list Z) :
  length (state ctx) = nb ctx ->
  (nb ctx <= length a)%nat -> (nb ctx <= length b)%nat ->
  fst (KalynaEncipher b (snd (KalynaEncipher a ctx out_a)) out_b) =
    fst (KalynaEncipher b ctx out_b) /\
  fst (KalynaDecipher b (snd (KalynaEncipher a ctx out_a)) out_b) =
    fst (KalynaDecipher b ctx out_b) /\
  fst (KalynaEncipher b (snd (KalynaDecipher a ctx out_a)) out_b) =
    fst (KalynaEncipher b ctx out_b) /\
  fst (KalynaDecipher b (snd (KalynaDecipher a ctx out_a)) out_b) =
    fst (KalynaDecipher b ctx out_b).
Proof.
  intros L La Lb.
  assert (L1 : state_sized (set_state ctx (blit (state ctx) 0 a 0 (nb ctx)))).
  { unfold state_sized. cbn [state set_state nb]. rewrite blit_all by lia.
    apply firstn_length_le, La. }
  pose proof (encipher_core_sized _ L1) as Le.
  pose proof (decipher_core_sized _ L1) as Ld.
  assert (Fe : frame ctx (encipher_core (set_state ctx (blit (state ctx) 0 a 0 (nb ctx)))))
    by (eapply frame_trans; [apply frame_set_state | apply encipher_core_frame]).
  assert (Fd : frame ctx (decipher_core (set_state ctx (blit (state ctx) 0 a 0 (nb ctx)))))
    by (eapply frame_trans; [apply frame_set_state | apply decipher_core_frame]).
  pose proof (frame_load _ _ b Fe L Le Lb) as Ee.
  pose proof (frame_load _ _ b Fd L Ld Lb) as Ed.
  rewrite (KalynaEncipher_eq a), (KalynaDecipher_eq a). cbn [snd].
  rewrite !(KalynaEncipher_eq b), !(KalynaDecipher_eq b). cbn [fst].
  rewrite Ee, Ed, (proj1 Fe), (proj1 Fd). repeat split.
Qed.

(** ** Properties of the codec *)

(** X4.  [ReverseWord] reverses the order of the eight bytes of a word, on
    a host of either byte order; its result is a [uint64_t] value, and
    applying it twice gives the word back. *)
Theorem ReverseWord_reverses_bytes (w : Z) :
  u64 w ->
  le_bytes 8 (ReverseWord w) = rev (le_bytes 8 w) /\
  u64 (ReverseWord w) /\
  ReverseWord (ReverseWord w) = w.
Proof.
  intros Hw. split; [apply le_bytes_ReverseWord|].
  split; [apply ReverseWord_u64 | apply ReverseWord_involutive, Hw].
Qed.

(** X5.  [WordsToBytes_Inline] writes [8 * nb] bytes, and byte [j] of word
    [i] lands at offset [8 * i + j]: the serialization is least significant
    byte first on a host of either byte order. *)
Theorem WordsToBytes_Inline_layout (n : nat) (words : list Z) (i j : nat) :
  (n <= length words)%nat -> (i < n)%nat -> (j < 8)%nat ->
  length (WordsToBytes_Inline n words) = (8 * n)%nat /\
  nth (8 * i + j) (WordsToBytes_Inline n words) 0 =
    Z.land (Z.shiftr (nth i words 0) (8 * Z.of_nat j)) 0xFF.
Proof.
  intros Ln Hi Hj. rewrite WordsToBytes_Inline_eq. split.
  - rewrite canonical_bytes_length, firstn_length_le by exact Ln. reflexivity.
  - replace (8 * i + j)%nat with (j + i * 8)%nat by lia.
    rewrite nth_canonical_bytes by (rewrite ?firstn_length_le; lia).
    rewrite nth_le_bytes by exact Hj.
    rewrite <- (firstn_skipn n words) at 2.
    rewrite app_nth1 by (rewrite firstn_length_le; lia). reflexivity.
Qed.

(** X6.  [BytesToWords_Inline] undoes [WordsToBytes_Inline] on [nb] words,
    and [WordsToBytes_Inline] undoes [BytesToWords_Inline] on [8 * nb]
    bytes, on a host of either byte order. *)
Theorem inline_codec_round_trip (n : nat) (words bytes dst : list Z) :
  words_ok n words -> Forall u8 bytes -> length bytes = (8 * n)%nat ->
  length dst = n ->
  BytesToWords_Inline n (WordsToBytes_Inline n words) dst = words /\
  WordsToBytes_Inline n (BytesToWords_Inline n bytes dst) = bytes.
Proof.
  intros [Lw Uw] Ub Lb Ld. split.
  - rewrite WordsToBytes_Inline_eq, firstn_all2 by lia.
    rewrite BytesToWords_Inline_eq
      by (try apply canonical_bytes_u8; rewrite canonical_bytes_length; lia).
    rewrite skipn_all2 by lia. rewrite app_nil_r. rewrite <- Lw.
    apply canonical_words_bytes, Uw.
  - rewrite BytesToWords_Inline_eq by (try exact Ub; lia).
    rewrite skipn_all2 by lia. rewrite app_nil_r.
    rewrite WordsToBytes_Inline_eq.
    rewrite firstn_all2 by (rewrite canonical_words_length; lia).
    apply canonical_bytes_words; assumption.
Qed.

(** X7.  The bytes that [WordsToBytes] returns are the words least
    significant byte first, on a host of either byte order.  The
    conversion is in place: on a little-endian host the caller's words are
    left as they were, on a big-endian host each of them is left
    byte-reversed. *)
Theorem WordsToBytes_in_place (words : list Z) :
  fst (WordsToBytes (length words) words) = canonical_bytes words /\
  snd (WordsToBytes (length words) words) =
    (if host_big_endian then map ReverseWord words else words).
Proof. rewrite WordsToBytes_eq. split; reflexivity. Qed.

(** X8.  [BytesToWords], given the byte count, gives back the words that
    [WordsToBytes] has serialized, on a host of either byte order.  Its
    [length] counts bytes where that of [WordsToBytes] counts words: given
    the word count of fewer than eight words, it converts nothing, and on
    a big-endian host the words come back byte-reversed. *)
Theorem BytesToWords_WordsToBytes (words : list Z) :
  Forall u64 words ->
  fst (BytesToWords (8 * length words) (fst (WordsToBytes (length words) words)))
    = words /\
  ((length words < 8)%nat ->
   fst (BytesToWords (length words) (fst (WordsToBytes (length words) words)))
     = if host_big_endian then map ReverseWord words else words).
Proof.
  intros U. rewrite WordsToBytes_eq.
  unfold BytesToWords. cbn [fst]. rewrite IsBigEndian_eq.
  rewrite canonical_bytes_length.
  replace (8 * length words / 8)%nat with (length words)
    by (rewrite Nat.mul_comm, Nat.div_mul; lia).
  destruct host_big_endian eqn:E.
  - split.
    + rewrite reverse_loop_words by apply memory_words_length.
      rewrite memory_words_reversed
        by (try apply canonical_bytes_u8; rewrite ?canonical_bytes_length; auto).
      apply canonical_words_bytes, U.
    + intros L8. rewrite Nat.div_small by exact L8.
      apply memory_words_canonical_be, E.
  - rewrite memory_words_le by exact E. split; [|intros _];
      apply canonical_words_bytes, U.
Qed.

(** ** Properties of the layers *)

(** X9.  [SubBytes] sends the byte at offset [k] of the state through
    [sboxes_enc[k mod 4]], and [InvSubBytes] sends it through
    [sboxes_dec[k mod 4]]; no byte depends on another. *)
Theorem SubBytes_bytewise (ctx : kalyna_t) (k : nat) :
  length (state ctx) = nb ctx -> (k < 8 * nb ctx)%nat ->
  nth k (canonical_bytes (state (SubBytes ctx))) 0 =
    lookup sboxes_enc (k mod 4) (nth k (canonical_bytes (state ctx)) 0) /\
  nth k (canonical_bytes (state (InvSubBytes ctx))) 0 =
    lookup sboxes_dec (k mod 4) (nth k (canonical_bytes (state ctx)) 0).
Proof.
  intros L Hk.
  rewrite SubBytes_eq, InvSubBytes_eq by exact L. cbn [state set_state].
  rewrite (canonical_bytes_substituted sboxes_enc _ 0 sboxes_enc_bytes).
  rewrite (canonical_bytes_substituted sboxes_dec _ 0 sboxes_dec_bytes).
  rewrite !nth_imap by (rewrite canonical_bytes_length; lia).
  split; reflexivity.
Qed.

(** X10.  [InvSubBytes] undoes [SubBytes] and [SubBytes] undoes
    [InvSubBytes], on every state of [nb] words. *)
Theorem SubBytes_InvSubBytes_inverse (ctx : kalyna_t) :
  words_ok (nb ctx) (state ctx) ->
  InvSubBytes (SubBytes ctx) = ctx /\ SubBytes (InvSubBytes ctx) = ctx.
Proof.
  intros W. split; [apply InvSubBytes_SubBytes | apply SubBytes_InvSubBytes]; exact W.
Qed.

(** X11.  [ShiftRows] moves the byte in row [row] of column [col] to column
    [(col + row / (8 / nb)) mod nb] of the same row, and [InvShiftRows]
    moves it back: row [row] is rotated by [row / (8 / nb)] columns. *)
Theorem ShiftRows_rotates_rows (ctx : kalyna_t) (row col : nat) :
  block_words (nb ctx) -> length (state ctx) = nb ctx ->
  (row < 8)%nat -> (col < nb ctx)%nat ->
  nth (row + (col + row / (8 / nb ctx)) mod nb ctx * 8)
      (canonical_bytes (state (ShiftRows ctx))) 0 =
    nth (row + col * 8) (canonical_bytes (state ctx)) 0 /\
  nth (row + col * 8) (canonical_bytes (state (InvShiftRows ctx))) 0 =
    nth (row + (col + row / (8 / nb ctx)) mod nb ctx * 8)
        (canonical_bytes (state ctx)) 0.
Proof.
  intros B L Hr Hc.
  rewrite canonical_bytes_ShiftRows, canonical_bytes_InvShiftRows by exact L.
  assert (Lb : length (canonical_bytes (state ctx)) = (nb ctx * 8)%nat)
    by (rewrite canonical_bytes_length; lia).
  split; [apply ShiftRows_loops_nth | apply InvShiftRows_loops_nth]; assumption.
Qed.

(** X12.  The substitution and the permutation commute: [ShiftRows] after
    [SubBytes] is [SubBytes] after [ShiftRows], and likewise for the two
    inverse layers, since the permutation moves bytes within their rows
    and the substitution table depends on the row only. *)
Theorem ShiftRows_SubBytes_commute (ctx : kalyna_t) :
  block_words (nb ctx) -> length (state ctx) = nb ctx ->
  ShiftRows (SubBytes ctx) = SubBytes (ShiftRows ctx) /\
  InvShiftRows (InvSubBytes ctx) = InvSubBytes (InvShiftRows ctx).
Proof.
  intros B L.
  pose proof (SubBytes_sized ctx L) as L1.
  pose proof (InvSubBytes_sized ctx L) as L2.
  pose proof (ShiftRows_sized ctx L) as L3.
  pose proof (InvShiftRows_sized ctx L) as L4.
  unfold state_sized in *.
  rewrite (ShiftRows_eq _ L1), (SubBytes_eq _ L3).
  rewrite (InvShiftRows_eq _ L2), (InvSubBytes_eq _ L4).
  rewrite (SubBytes_eq _ L), (InvSubBytes_eq _ L).
  rewrite (ShiftRows_eq _ L), (InvShiftRows_eq _ L).
  cbn [state set_state nb]. rewrite !set_state_set_state.
  destruct (permute_substitute sboxes_enc (nb ctx) (state ctx) sboxes_enc_bytes B L)
    as [-> _].
  destruct (permute_substitute sboxes_dec (nb ctx) (state ctx) sboxes_dec_bytes B L)
    as [_ ->].
  split; reflexivity.
Qed.

(** X13.  [MatrixMultiply] multiplies each column of the state by the
    matrix over GF(2^8): the byte in row [row] of column [col] becomes the
    XOR, over [b = 0 .. 7], of the products of the byte in row [b] of that
    column with [matrix[row][b]]. *)
Theorem MatrixMultiply_columns
  (ctx : kalyna_t) (matrix : list (list Z)) (row col : nat) :
  table_bytes matrix 8 8 -> length (state ctx) = nb ctx ->
  (row < 8)%nat -> (col < nb ctx)%nat ->
  nth (row + col * 8) (canonical_bytes (state (MatrixMultiply ctx matrix))) 0 =
  xor_sum (map (fun b => MultiplyGF (nth (b + col * 8) (canonical_bytes (state ctx)) 0)
                                    (lookup matrix row (Z.of_nat b)))
               (seq 0 8)).
Proof.
  intros Hm L Hr Hc. rewrite MatrixMultiply_eq by exact L. cbn [state set_state].
  rewrite nth_canonical_bytes by (rewrite ?length_map; lia).
  rewrite nth_map_in by lia.
  assert (L8 : length (matrix_column matrix (le_bytes 8 (nth col (state ctx) 0))) = 8%nat)
    by apply matrix_column_length.
  rewrite <- L8 at 1.
  rewrite le_bytes_le_word by (apply matrix_column_u8; [exact Hm | apply le_bytes_u8]).
  unfold matrix_column. rewrite nth_map_seq by exact Hr.
  f_equal. apply map_ext_in. intros b Hb. apply in_seq in Hb.
  rewrite nth_canonical_bytes by lia. reflexivity.
Qed.

(** X14.  [MatrixMultiply] is linear over XOR: on the state XOR-ed with a
    block [value] it gives the XOR of its results on the state and on
    [value]. *)
Theorem MatrixMultiply_linear
  (ctx : kalyna_t) (matrix : list (list Z)) (value : list Z) :
  table_bytes matrix 8 8 -> length (state ctx) = nb ctx -> length value = nb ctx ->
  MatrixMultiply (XorRoundKeyExpand value ctx) matrix =
  XorRoundKeyExpand (state (MatrixMultiply (set_state ctx value) matrix))
    (MatrixMultiply ctx matrix).
Proof.
  intros Hm L Lv.
  rewrite (XorRoundKeyExpand_eq value ctx L).
  rewrite MatrixMultiply_eq by (cbn [state set_state nb]; now rewrite imap_length).
  rewrite (MatrixMultiply_eq ctx matrix L).
  rewrite (MatrixMultiply_eq (set_state ctx value)) by exact Lv.
  rewrite XorRoundKeyExpand_eq by (cbn [state set_state nb]; now rewrite length_map).
  cbn [state set_state nb]. rewrite !set_state_set_state. f_equal.
  apply nth_ext with (d := 0) (d' := 0).
  - now rewrite length_map, !imap_length, length_map.
  - intros i Hi. rewrite length_map, imap_length in Hi.
    rewrite nth_map_in by (rewrite imap_length; exact Hi).
    rewrite !nth_imap by (rewrite ?length_map; exact Hi).
    rewrite !nth_map_in by lia. cbn [Nat.add].
    apply column_lxor, Hm.
Qed.

(** X15.  [InvMixColumns] undoes [MixColumns] and [MixColumns] undoes
    [InvMixColumns], on every state of [nb] words. *)
Theorem MixColumns_InvMixColumns_inverse (ctx : kalyna_t) :
  words_ok (nb ctx) (state ctx) ->
  InvMixColumns (MixColumns ctx) = ctx /\ MixColumns (InvMixColumns ctx) = ctx.
Proof.
  intros W.
  split; [apply InvMixColumns_MixColumns | apply MixColumns_InvMixColumns]; exact W.
Qed.

(** ** Properties of the key schedule *)

(** X16.  [KeyExpandKt] leaves the intermediate key in [kt] and in the
    state of the context, and nothing else of the context is changed.  The
    intermediate key is that of [intermediate_key]: it depends on the key
    and on [nb] and [nk], not on what the state held before. *)
Theorem KeyExpandKt_intermediate_key (key : list Z) (ctx : kalyna_t) :
  context_ok ctx -> Forall u64 key ->
  KeyExpandKt key ctx =
  (intermediate_key (nb ctx) (nk ctx) key,
   set_state ctx (intermediate_key (nb ctx) (nk ctx) key)).
Proof. exact (KeyExpandKt_eq key ctx). Qed.

(** X17.  The even round keys in closed form.  Round key [2 * j], for
    [2 * j <= nr], is derived from the intermediate key offset by the
    counter block shifted left [j] times, and from the [nb] key words
    that start, cyclically, at word [j] of the key when [nk = nb], and at
    word [j / 2 + (j mod 2) * nb] when [nk = 2 * nb]. *)
Theorem even_round_keys_closed_form (key : list Z) (ctx : kalyna_t) (j : nat) :
  context_ok ctx -> words_ok (nk ctx) key -> (2 * j <= nr ctx)%nat ->
  exists expanded,
    KalynaKeyExpand key ctx = Some expanded /\
    round_key expanded (2 * j) =
      even_round_key (nb ctx) (intermediate_key (nb ctx) (nk ctx) key)
        (repeat (Nat.iter j shift_word 0x0001000100010001) (nb ctx))
        (key_window key (nb ctx)
           (j / (nk ctx / nb ctx) + j mod (nk ctx / nb ctx) * nb ctx)).
Proof.
  intros Hx Hk Hj.
  destruct (KalynaKeyExpand_closed key ctx Hx Hk) as (e & E & _ & _ & _ & A & _).
  exists e. split; [exact E|]. rewrite (A j Hj). reflexivity.
Qed.

(** X18.  [KalynaKeyExpand] overwrites all that a context held: on two
    well-formed contexts of the same configuration it leaves the same
    context, whatever their states and round keys were before.  In
    particular a context that holds the schedule of one key can be given
    another, and expanding the same key again changes nothing. *)
Theorem KalynaKeyExpand_rekey (key : list Z) (ctx1 ctx2 : kalyna_t) :
  context_ok ctx1 -> context_ok ctx2 ->
  nb ctx1 = nb ctx2 -> nk ctx1 = nk ctx2 -> nr ctx1 = nr ctx2 ->
  words_ok (nk ctx1) key ->
  exists expanded,
    KalynaKeyExpand key ctx1 = Some expanded /\
    KalynaKeyExpand key ctx2 = Some expanded /\
    KalynaKeyExpand key expanded = Some expanded.
Proof.
  intros H1 H2 Eb Ek Er Hk.
  assert (R : forall a b, context_ok a -> context_ok b ->
            nb a = nb b -> nk a = nk b -> nr a = nr b -> words_ok (nk a) key ->
            forall ea, KalynaKeyExpand key a = Some ea ->
            KalynaKeyExpand key b = Some ea).
  { clear H1 H2 Eb Ek Er Hk. intros a b Ha Hb Eb Ek Er Hk ea Ea.
    destruct (KalynaKeyExpand_closed key a Ha Hk)
      as (e & E & Xe & (B1 & K1 & R1 & L1) & St1 & A1 & P1).
    rewrite Ea in E. injection E as <-.
    assert (Hk' : words_ok (nk b) key) by (rewrite <- Ek; exact Hk).
    destruct (KalynaKeyExpand_closed key b Hb Hk')
      as (eb & E' & Xe' & (B2 & K2 & R2 & L2) & St2 & A2 & P2).
    rewrite E'. f_equal. rewrite <- Eb, <- Er in St2, A2, P2. rewrite <- Ek in St2, A2.
    destruct Ha as (_ & Sa & _ & [h Hh]). destruct Hb as (_ & Sb & _).
    unfold schedule_ok in Sa, Sb.
    assert (Ev : forall j, (2 * j <= nr a)%nat ->
              round_key eb (2 * j) = round_key ea (2 * j)).
    { intros j Hj. rewrite A1, A2 by exact Hj. reflexivity. }
    apply kalyna_ext; try congruence.
    apply nth_ext with (d := []) (d' := []); [congruence|].
    intros i Hi. rewrite L2, Sb, <- Er in Hi.
    change (round_key eb i = round_key ea i).
    destruct (Nat.Even_or_Odd i) as [[j ->] | Ho].
    - apply Ev. lia.
    - assert (Hlt : (i < nr a)%nat) by (destruct Ho as [m ->]; lia).
      rewrite P1, P2 by assumption. f_equal.
      destruct Ho as [m ->]. replace (2 * m + 1 - 1)%nat with (2 * m)%nat by lia.
      apply Ev. lia. }
  destruct (KalynaKeyExpand_closed key ctx1 H1 Hk) as (e & E & Xe & (B & K & Rr & L) & _).
  exists e. split; [exact E|]. split.
  - exact (R ctx1 ctx2 H1 H2 Eb Ek Er Hk e E).
  - apply (R ctx1 e H1 Xe); try congruence; assumption.
Qed.

(** X19.  [KalynaKeyExpand] returns on every well-formed context and every
    key of [nk] words.  It keeps [nb], [nk] and [nr], leaves [nr + 1]
    round keys of [nb] words each, and leaves the last round key in the
    state of the context. *)
Theorem KalynaKeyExpand_keeps_context (key : list Z) (ctx : kalyna_t) :
  context_ok ctx -> words_ok (nk ctx) key ->
  exists expanded,
    KalynaKeyExpand key ctx = Some expanded /\
    nb expanded = nb ctx /\ nk expanded = nk ctx /\ nr expanded = nr ctx /\
    length (round_keys expanded) = S (nr ctx) /\
    Forall (words_ok (nb ctx)) (round_keys expanded) /\
    state expanded = round_key expanded (nr ctx).
Proof.
  intros Hx Hk.
  destruct (KalynaKeyExpand_closed key ctx Hx Hk)
    as (e & E & ((_ & _ & Ke) & Se & _) & (B & K & R & L) & St & A & _).
  exists e. split; [exact E|]. split; [exact B|]. split; [exact K|].
  split; [exact R|]. split; [|split].
  - unfold schedule_ok in Se. now rewrite Se, R.
  - rewrite <- B. exact Ke.
  - destruct Hx as (_ & _ & _ & [h Hh]). rewrite St.
    rewrite Hh, div_mul_l by lia. symmetry. apply A. lia.
Qed.

(** ** Properties of the field arithmetic and of the key mixing *)

(** X20.  With XOR as the addition, [MultiplyGF] makes the byte values a
    commutative ring: its result is a byte, it is associative, and it
    distributes over XOR on either side. *)
Theorem MultiplyGF_ring (a b c : Z) :
  u8 a -> u8 b -> u8 c ->
  u8 (MultiplyGF a b) /\
  MultiplyGF (MultiplyGF a b) c = MultiplyGF a (MultiplyGF b c) /\
  MultiplyGF a (Z.lxor b c) = Z.lxor (MultiplyGF a b) (MultiplyGF a c) /\
  MultiplyGF (Z.lxor a b) c = Z.lxor (MultiplyGF a c) (MultiplyGF b c).
Proof.
  intros Ha Hb Hc. split; [apply MultiplyGF_u8; assumption|].
  split; [apply MultiplyGF_assoc; assumption|].
  split; [apply MultiplyGF_lxor_r | apply MultiplyGF_lxor_l]; assumption.
Qed.

(** X21.  The ring is a field: every byte other than 0 has an inverse for
    [MultiplyGF], and a product is 0 only when a factor is. *)
Theorem MultiplyGF_field (a b : Z) :
  u8 a -> u8 b ->
  (a <> 0 -> exists i, u8 i /\ MultiplyGF a i = 1) /\
  (MultiplyGF a b = 0 -> a = 0 \/ b = 0).
Proof.
  intros Ha Hb. split.
  - intros Hn.
    assert (H : forallb (fun a => (a =? 0) ||
                  existsb (fun i => MultiplyGF a i =? 1) all_bytes) all_bytes = true)
      by (vm_compute; reflexivity).
    pose proof (forall_bytes _ H a Ha) as Hi. cbv beta in Hi.
    apply orb_true_iff in Hi. destruct Hi as [Hi | Hi].
    + apply Z.eqb_eq in Hi. contradiction.
    + apply existsb_exists in Hi. destruct Hi as (i & I & E).
      exists i. split; [apply all_bytes_u8, I | apply Z.eqb_eq, E].
  - intros Hp.
    assert (H : forallb (fun a => forallb (fun b =>
                  negb (MultiplyGF a b =? 0) || (a =? 0) || (b =? 0)) all_bytes)
                  all_bytes = true)
      by (vm_compute; reflexivity).
    pose proof (forall_bytes2 _ H a b Ha Hb) as Hi. cbv beta in Hi.
    rewrite Hp in Hi. cbn [Z.eqb negb orb] in Hi.
    apply orb_true_iff in Hi. destruct Hi as [Hi | Hi]; apply Z.eqb_eq in Hi; auto.
Qed.

(** X22.  [XorRoundKey] and [XorRoundKeyExpand] undo themselves: applied
    twice with the same round key, or the same block, they leave the
    context as it was. *)
Theorem XorRoundKey_self_inverse (round : nat) (value : list Z) (ctx : kalyna_t) :
  length (state ctx) = nb ctx ->
  XorRoundKey round (XorRoundKey round ctx) = ctx /\
  XorRoundKeyExpand value (XorRoundKeyExpand value ctx) = ctx.
Proof.
  intros L. split; [apply XorRoundKey_involutive, L|].
  rewrite (XorRoundKeyExpand_eq value ctx L).
  rewrite XorRoundKeyExpand_eq by (cbn [state set_state nb]; now rewrite imap_length).
  destruct ctx as [n k r s rk]. unfold set_state.
  cbn [state nb nk nr round_keys] in *. f_equal.
  rewrite imap_imap. apply imap_id. intros i x Hx.
  now rewrite Z.lxor_assoc, Z.lxor_nilpotent, Z.lxor_0_r.
Qed.
End Engine.

(** * The statements on concrete inputs *)

(** ** Sample tables

    [tables.h] is not among the sources, so the engine takes its tables as
    parameters.  The tables below instantiate them where a statement is
    exercised on concrete data: the two matrices are the circulant MDS
    matrix of DSTU 7624:2014 and its inverse over GF(2^8); the substitution
    tables are stand-ins, four affine permutations of the byte values with
    their inverses, which satisfy the contract of the substitution layer. *)

Definition sample_mds_matrix : list (list Z) :=
  [[0x01; 0x01; 0x05; 0x01; 0x08; 0x06; 0x07; 0x04];
   [0x04; 0x01; 0x01; 0x05; 0x01; 0x08; 0x06; 0x07];
   [0x07; 0x04; 0x01; 0x01; 0x05; 0x01; 0x08; 0x06];
   [0x06; 0x07; 0x04; 0x01; 0x01; 0x05; 0x01; 0x08];
   [0x08; 0x06; 0x07; 0x04; 0x01; 0x01; 0x05; 0x01];
   [0x01; 0x08; 0x06; 0x07; 0x04; 0x01; 0x01; 0x05];
   [0x05; 0x01; 0x08; 0x06; 0x07; 0x04; 0x01; 0x01];
   [0x01; 0x05; 0x01; 0x08; 0x06; 0x07; 0x04; 0x01]].

Definition sample_mds_inv_matrix : list (list Z) :=
  [[0xAD; 0x95; 0x76; 0xA8; 0x2F; 0x49; 0xD7; 0xCA];
   [0xCA; 0xAD; 0x95; 0x76; 0xA8; 0x2F; 0x49; 0xD7];
   [0xD7; 0xCA; 0xAD; 0x95; 0x76; 0xA8; 0x2F; 0x49];
   [0x49; 0xD7; 0xCA; 0xAD; 0x95; 0x76; 0xA8; 0x2F];
   [0x2F; 0x49; 0xD7; 0xCA; 0xAD; 0x95; 0x76; 0xA8];
   [0xA8; 0x2F; 0x49; 0xD7; 0xCA; 0xAD; 0x95; 0x76];
   [0x76; 0xA8; 0x2F; 0x49; 0xD7; 0xCA; 0xAD; 0x95];
   [0x95; 0x76; 0xA8; 0x2F; 0x49; 0xD7; 0xCA; 0xAD]].

(** The table of [x |-> (a * x + b) mod 256]. *)
Definition affine_table (a b : Z) : list Z :=
  map (fun x => (a * x + b) mod 256) all_bytes.

Definition sample_sboxes_enc : list (list Z) :=
  [affine_table 5 17; affine_table 13 101; affine_table 29 3; affine_table 77 250].

Definition sample_sboxes_dec : list (list Z) :=
  [affine_table 205 (- (205 * 17)); affine_table 197 (- (197 * 101));
   affine_table 53 (- (53 * 3)); affine_table 133 (- (133 * 250))].

(** ** Sample inputs *)

(** The contexts that [KalynaInit] returns for 128/128 and 128/256 when no
    allocation fails. *)
Definition created_128_128 : kalyna_t :=
  mk_kalyna 2 2 10 [0; 0] (repeat [0; 0] 11).

Definition created_128_256 : kalyna_t :=
  mk_kalyna 2 4 14 [0; 0] (repeat [0; 0] 15).

(** The key and the plaintext of the benchmark harness for 128/128, and its
    key for 128/256. *)
Definition sample_key_128 : list Z := [0x0706050403020100; 0x0f0e0d0c0b0a0908].

Definition sample_plaintext_128 : list Z := [0x1716151413121110; 0x1f1e1d1c1b1a1918].

Definition sample_key_256 : list Z :=
  [0x0706050403020100; 0x0f0e0d0c0b0a0908; 0x1716151413121110; 0x1f1e1d1c1b1a1918].

(** [KeyExpandKt] with the sample tables on a little-endian host, and the
    first pass of the loop of [KeyExpandEven] that [KalynaKeyExpand] then
    makes, with the loop state it leaves. *)
Definition sample_Kt (ctx : kalyna_t) (key : list Z) : list Z * kalyna_t :=
  KeyExpandKt false sample_sboxes_enc sample_mds_matrix key ctx.

Definition sample_body (ctx : kalyna_t) (key : list Z) : kalyna_t + even_loop :=
  KeyExpandEven_body false sample_sboxes_enc sample_mds_matrix
    (fst (sample_Kt ctx key)) (first_pass (snd (sample_Kt ctx key)) key).

Definition after_first_pass (ctx : kalyna_t) (key : list Z) : even_loop :=
  match sample_body ctx key with
  | inr l' => l'
  | inl c => first_pass c key
  end.

Definition after_first_pass_128_128 : even_loop :=
  Eval vm_compute in after_first_pass created_128_128 sample_key_128.

Definition after_first_pass_128_256 : even_loop :=
  Eval vm_compute in after_first_pass created_128_256 sample_key_256.

(** The intermediate key and the loop state with which [KeyExpandEven]
    enters its loop, in the key expansion of [key] on [ctx]. *)
Definition sample_kt (ctx : kalyna_t) (key : list Z) : list Z :=
  fst (sample_Kt ctx key).

Definition sample_first_pass (ctx : kalyna_t) (key : list Z) : even_loop :=
  first_pass (snd (sample_Kt ctx key)) key.

(** The loop state with which pass [n] of that loop is entered, the first
    pass being pass 0; the state of the last pass once the loop is left. *)
Fixpoint sample_pass (n : nat) (ctx : kalyna_t) (key : list Z) : even_loop :=
  match n with
  | O => sample_first_pass ctx key
  | S m =>
      match KeyExpandEven_body false sample_sboxes_enc sample_mds_matrix
              (sample_kt ctx key) (sample_pass m ctx key) with
      | inr l' => l'
      | inl _ => sample_pass m ctx key
      end
  end.

(** A context whose state and round keys make the additions wrap. *)
Definition wrapping_context : kalyna_t :=
  mk_kalyna 2 2 10 [0xFFFFFFFFFFFFFFFF; 5] (repeat [1; 0xFFFFFFFFFFFFFFFF] 11).

(** [created_128_128] after other calls have left something in its state. *)
Definition used_128_128 : kalyna_t := set_state created_128_128 [123; 456].

(** ** Vocabulary of the properties of the allocation *)

(** A heap in which no block is allocated twice and every block has been
    handed out by a request. *)
Definition heap_ok (h : Allocation.heap) : Prop :=
  NoDup (Allocation.allocated h) /\
  forall p, In p (Allocation.allocated h) -> (p < Allocation.requests h)%nat.

(** The blocks [mine] are allocated, besides those of [rest]. *)
Definition owns (w : Allocation.world) (mine rest : list nat) : Prop :=
  Allocation.allocated (Allocation.memory w) = mine ++ rest /\
  NoDup mine /\ forall p, In p mine -> ~ In p rest.

(** The call holds the blocks [mine] besides those of [rest], and every
    block has been handed out by a request. *)
Definition holding (w : Allocation.world) (mine rest : list nat) : Prop :=
  owns w mine rest /\
  forall p, In p (mine ++ rest) ->
    (p < Allocation.requests (Allocation.memory w))%nat.

(** Nothing but the allocated blocks differs between the two worlds. *)
Definition same_but_blocks (w w' : Allocation.world) : Prop :=
  Allocation.requests (Allocation.memory w') = Allocation.requests (Allocation.memory w) /\
  Allocation.damaged (Allocation.memory w') = Allocation.damaged (Allocation.memory w) /\
  Allocation.errors w' = Allocation.errors w.

(** The blocks of [l] that are not among [ps]. *)
Definition without (ps l : list nat) : list nat :=
  fold_left (fun l p => remove Nat.eq_dec p l) ps l.

(** The heap with nothing allocated and no request made. *)
Definition fresh_world : Allocation.world :=
  Allocation.mk_world (Allocation.mk_heap [] 0 false) [].

(** The allocator that fails at request [k] only. *)
Definition fails_at (k : nat) (request : nat) : bool := negb (request =? k)%nat.

(** [created_128_128] with the sample plaintext in its state. *)
Definition loaded_128_128 : kalyna_t := set_state created_128_128 sample_plaintext_128.

(** The world after [KalynaInit] has failed at its sixth request for
    memory, and the handle and the world after it has succeeded, for
    128/128 on the fresh heap. *)
Definition after_failed_init : Allocation.world :=
  Eval vm_compute in snd (Allocation.KalynaInit (fails_at 5) 128 128 fresh_world).

Definition created_handle : Allocation.handle :=
  Eval vm_compute in
    match fst (Allocation.KalynaInit always 128 128 fresh_world) with
    | Some h => h
    | None => Allocation.mk_handle 0 None None [] created_128_128
    end.

Definition after_init : Allocation.world :=
  Eval vm_compute in snd (Allocation.KalynaInit always 128 128 fresh_world).

(** ** Vocabulary of the property of [PrintState] *)

(** The value of a hexadecimal digit, and of a hexadecimal numeral after
    the digits of value [acc]. *)
Definition digit_value (c : ascii) : Z :=
  match find (fun d => Ascii.eqb (nth (Z.to_nat d) hex_digits "0"%char) c)
             (map Z.of_nat (seq 0 16)) with
  | Some d => d
  | None => 0
  end.

Fixpoint hex_value (acc : Z) (s : string) : Z :=
  match s with
  | EmptyString => acc
  | String c r => hex_value (16 * acc + digit_value c) r
  end.

(** The number whose 64-bit digits are [ws], least significant first. *)
Fixpoint words_value (ws : list Z) : Z :=
  match ws with
  | [] => 0
  | w :: r => w + 2 ^ 64 * words_value r
  end.

(** A string of lower-case hexadecimal digits. *)
Definition hex_numeral (s : string) : Prop :=
  Forall (fun c => In c hex_digits) (list_ascii_of_string s).

(** ** The sample tables meet the hypotheses on the tables *)

Lemma table_bytes_check (table : list (list Z)) (rows cols : nat) :
  forallb (fun t =>
     forallb (fun x => (0 <=? lookup table t x) && (lookup table t x <? 256))
             (map Z.of_nat (seq 0 cols)))
    (seq 0 rows) = true ->
  table_bytes table rows cols.
Proof.
  intros H t x Ht Hx. rewrite forallb_forall in H.
  specialize (H t (proj2 (in_seq _ _ _) (conj (Nat.le_0_l t) Ht))).
  rewrite forallb_forall in H. specialize (H x).
  assert (I : In x (map Z.of_nat (seq 0 cols))).
  { replace x with (Z.of_nat (Z.to_nat x)) by lia. apply in_map, in_seq. lia. }
  apply H in I. apply andb_true_iff in I. destruct I as [I1 I2].
  apply Z.leb_le in I1. apply Z.ltb_lt in I2. split; [exact I1 | exact I2].
Qed.

Lemma sample_sboxes_enc_bytes : table_bytes sample_sboxes_enc 4 256.
Proof. apply table_bytes_check. vm_compute. reflexivity. Qed.

Lemma sample_sboxes_dec_bytes : table_bytes sample_sboxes_dec 4 256.
Proof. apply table_bytes_check. vm_compute. reflexivity. Qed.

Lemma sample_mds_matrix_bytes : table_bytes sample_mds_matrix 8 8.
Proof. apply table_bytes_check. vm_compute. reflexivity. Qed.

Lemma sample_mds_inv_matrix_bytes : table_bytes sample_mds_inv_matrix 8 8.
Proof. apply table_bytes_check. vm_compute. reflexivity. Qed.

Lemma sample_sboxes_inverse (t : nat) (x : Z) :
  (t < 4)%nat -> u8 x ->
  lookup sample_sboxes_dec t (lookup sample_sboxes_enc t x) = x.
Proof.
  intros Ht Hx.
  assert (H : forallb (fun t => forallb (fun x =>
            lookup sample_sboxes_dec t (lookup sample_sboxes_enc t x) =? x) all_bytes)
            (seq 0 4) = true) by (vm_compute; reflexivity).
  rewrite forallb_forall in H.
  specialize (H t (proj2 (in_seq _ _ _) (conj (Nat.le_0_l t) Ht))).
  apply Z.eqb_eq. apply (forall_bytes _ H x Hx).
Qed.

Lemma matrix_inverse_check (inv matrix : list (list Z)) :
  forallb (fun row => forallb (fun b =>
     matrix_product_entry inv matrix row b =? (if (row =? b)%nat then 1 else 0))
     (seq 0 8)) (seq 0 8) = true ->
  forall row b, (row < 8)%nat -> (b < 8)%nat ->
  matrix_product_entry inv matrix row b = if (row =? b)%nat then 1 else 0.
Proof.
  intros H row b Hr Hb. rewrite forallb_forall in H.
  specialize (H row (proj2 (in_seq _ _ _) (conj (Nat.le_0_l row) Hr))).
  rewrite forallb_forall in H.
  specialize (H b (proj2 (in_seq _ _ _) (conj (Nat.le_0_l b) Hb))).
  apply Z.eqb_eq, H.
Qed.

Lemma sample_mds_inverse (row b : nat) :
  (row < 8)%nat -> (b < 8)%nat ->
  matrix_product_entry sample_mds_inv_matrix sample_mds_matrix row b =
  if (row =? b)%nat then 1 else 0.
Proof. apply matrix_inverse_check. vm_compute. reflexivity. Qed.

Lemma sample_mds_inverse_r (row b : nat) :
  (row < 8)%nat -> (b < 8)%nat ->
  matrix_product_entry sample_mds_matrix sample_mds_inv_matrix row b =
  if (row =? b)%nat then 1 else 0.
Proof. apply matrix_inverse_check. vm_compute. reflexivity. Qed.

Lemma created_128_128_init : KalynaInit always 128 128 = Some created_128_128.
Proof. reflexivity. Qed.

Lemma created_128_256_init : KalynaInit always 128 256 = Some created_128_256.
Proof. reflexivity. Qed.

Lemma sample_words_ok (n : nat) (ws : list Z) :
  (length ws =? n)%nat && forallb (fun w => (0 <=? w) && (w <? 2 ^ 64)) ws = true ->
  words_ok n ws.
Proof.
  intros H. apply andb_true_iff in H. destruct H as [H1 H2].
  apply Nat.eqb_eq in H1. split; [exact H1|].
  apply Forall_forall. intros w Hw. rewrite forallb_forall in H2.
  apply H2 in Hw. apply andb_true_iff in Hw. destruct Hw as [A B].
  apply Z.leb_le in A. apply Z.ltb_lt in B. split; assumption.
Qed.

(** ** The claims on the sample inputs *)

Lemma decipher_encipher_round_trip_witness :
  context_ok created_128_128 /\
  words_ok 2 sample_key_128 /\ words_ok 2 sample_plaintext_128 /\
  exists expanded,
    KalynaKeyExpand false sample_sboxes_enc sample_mds_matrix
      sample_key_128 created_128_128 = Some expanded /\
    fst (KalynaDecipher false sample_sboxes_dec sample_mds_inv_matrix
           (fst (KalynaEncipher false sample_sboxes_enc sample_mds_matrix
                   sample_plaintext_128 expanded [0; 0]))
           (snd (KalynaEncipher false sample_sboxes_enc sample_mds_matrix
                   sample_plaintext_128 expanded [0; 0])) [0; 0])
    = sample_plaintext_128.
Proof.
  assert (C : context_ok created_128_128)
    by exact (KalynaInit_context_ok always 128 128 _ created_128_128_init).
  assert (K : words_ok 2 sample_key_128) by (apply sample_words_ok; reflexivity).
  assert (P : words_ok 2 sample_plaintext_128) by (apply sample_words_ok; reflexivity).
  split; [exact C|]. split; [exact K|]. split; [exact P|].
  exact (decipher_encipher_round_trip false sample_sboxes_enc sample_sboxes_dec
           sample_mds_matrix sample_mds_inv_matrix
           sample_sboxes_enc_bytes sample_sboxes_inverse sample_mds_matrix_bytes
           sample_mds_inv_matrix_bytes sample_mds_inverse
           created_128_128 sample_key_128 sample_plaintext_128 [0; 0] [0; 0]
           C K P eq_refl eq_refl).
Defined.

Lemma KeyExpandEven_body_advances_witness :
  (length (el_tmv (sample_first_pass created_128_128 sample_key_128)) =
     nb (el_ctx (sample_first_pass created_128_128 sample_key_128)) /\
   length (el_initial_data (sample_first_pass created_128_128 sample_key_128)) =
     nk (el_ctx (sample_first_pass created_128_128 sample_key_128)) /\
   (1 <= nk (el_ctx (sample_first_pass created_128_128 sample_key_128)))%nat /\
   nr (el_ctx (sample_first_pass created_128_128 sample_key_128)) <>
     el_round (sample_first_pass created_128_128 sample_key_128) /\
   (nk (el_ctx (sample_first_pass created_128_128 sample_key_128)) =
      nb (el_ctx (sample_first_pass created_128_128 sample_key_128)) \/
    nr (el_ctx (sample_first_pass created_128_128 sample_key_128)) <>
      (el_round (sample_first_pass created_128_128 sample_key_128) + 2)%nat) /\
   (exists pair next,
      KeyExpandEven_pair false sample_sboxes_enc sample_mds_matrix
        (sample_kt created_128_128 sample_key_128) (sample_first_pass created_128_128 sample_key_128) = inr pair /\
      KeyExpandEven_body false sample_sboxes_enc sample_mds_matrix
        (sample_kt created_128_128 sample_key_128) (sample_first_pass created_128_128 sample_key_128) = inr next /\
      next = KeyExpandEven_advance pair /\
      el_initial_data pair = el_initial_data (sample_first_pass created_128_128 sample_key_128) /\
      el_tmv pair =
        (if (nk (el_ctx (sample_first_pass created_128_128 sample_key_128)) =? nb (el_ctx (sample_first_pass created_128_128 sample_key_128)))%nat
         then el_tmv (sample_first_pass created_128_128 sample_key_128)
         else map shift_word (el_tmv (sample_first_pass created_128_128 sample_key_128))) /\
      el_tmv next = map shift_word (el_tmv pair) /\
      el_initial_data next =
        tl (el_initial_data (sample_first_pass created_128_128 sample_key_128)) ++ [hd 0 (el_initial_data (sample_first_pass created_128_128 sample_key_128))] /\
      length (el_tmv next) = nb (el_ctx next) /\
      length (el_initial_data next) = nk (el_ctx next))) /\
  (length (el_tmv (sample_first_pass created_128_256 sample_key_256)) =
     nb (el_ctx (sample_first_pass created_128_256 sample_key_256)) /\
   length (el_initial_data (sample_first_pass created_128_256 sample_key_256)) =
     nk (el_ctx (sample_first_pass created_128_256 sample_key_256)) /\
   (1 <= nk (el_ctx (sample_first_pass created_128_256 sample_key_256)))%nat /\
   nr (el_ctx (sample_first_pass created_128_256 sample_key_256)) <>
     el_round (sample_first_pass created_128_256 sample_key_256) /\
   (nk (el_ctx (sample_first_pass created_128_256 sample_key_256)) =
      nb (el_ctx (sample_first_pass created_128_256 sample_key_256)) \/
    nr (el_ctx (sample_first_pass created_128_256 sample_key_256)) <>
      (el_round (sample_first_pass created_128_256 sample_key_256) + 2)%nat) /\
   (exists pair next,
      KeyExpandEven_pair false sample_sboxes_enc sample_mds_matrix
        (sample_kt created_128_256 sample_key_256) (sample_first_pass created_128_256 sample_key_256) = inr pair /\
      KeyExpandEven_body false sample_sboxes_enc sample_mds_matrix
        (sample_kt created_128_256 sample_key_256) (sample_first_pass created_128_256 sample_key_256) = inr next /\
      next = KeyExpandEven_advance pair /\
      el_initial_data pair = el_initial_data (sample_first_pass created_128_256 sample_key_256) /\
      el_tmv pair =
        (if (nk (el_ctx (sample_first_pass created_128_256 sample_key_256)) =? nb (el_ctx (sample_first_pass created_128_256 sample_key_256)))%nat
         then el_tmv (sample_first_pass created_128_256 sample_key_256)
         else map shift_word (el_tmv (sample_first_pass created_128_256 sample_key_256))) /\
      el_tmv next = map shift_word (el_tmv pair) /\
      el_initial_data next =
        tl (el_initial_data (sample_first_pass created_128_256 sample_key_256)) ++ [hd 0 (el_initial_data (sample_first_pass created_128_256 sample_key_256))] /\
      length (el_tmv next) = nb (el_ctx next) /\
      length (el_initial_data next) = nk (el_ctx next))).
Proof.
  assert (R1 : nr (el_ctx (sample_first_pass created_128_128 sample_key_128)) <>
               el_round (sample_first_pass created_128_128 sample_key_128))
    by (vm_compute; discriminate).
  assert (Q1 : nk (el_ctx (sample_first_pass created_128_128 sample_key_128)) =
                 nb (el_ctx (sample_first_pass created_128_128 sample_key_128)) \/
               nr (el_ctx (sample_first_pass created_128_128 sample_key_128)) <>
                 (el_round (sample_first_pass created_128_128 sample_key_128) + 2)%nat)
    by (left; reflexivity).
  assert (R2 : nr (el_ctx (sample_first_pass created_128_256 sample_key_256)) <>
               el_round (sample_first_pass created_128_256 sample_key_256))
    by (vm_compute; discriminate).
  assert (Q2 : nk (el_ctx (sample_first_pass created_128_256 sample_key_256)) =
                 nb (el_ctx (sample_first_pass created_128_256 sample_key_256)) \/
               nr (el_ctx (sample_first_pass created_128_256 sample_key_256)) <>
                 (el_round (sample_first_pass created_128_256 sample_key_256) + 2)%nat)
    by (right; vm_compute; discriminate).
  split.
  - split; [reflexivity|]. split; [reflexivity|]. split; [apply le_S, le_n|].
    split; [exact R1|]. split; [exact Q1|].
    exact (KeyExpandEven_body_advances false sample_sboxes_enc sample_mds_matrix
             (sample_kt created_128_128 sample_key_128)
             (sample_first_pass created_128_128 sample_key_128)
             eq_refl eq_refl (le_S _ _ (le_n 1)) R1 Q1).
  - split; [reflexivity|]. split; [reflexivity|].
    split; [apply le_S, le_S, le_S, le_n|].
    split; [exact R2|]. split; [exact Q2|].
    exact (KeyExpandEven_body_advances false sample_sboxes_enc sample_mds_matrix
             (sample_kt created_128_256 sample_key_256)
             (sample_first_pass created_128_256 sample_key_256)
             eq_refl eq_refl (le_S _ _ (le_S _ _ (le_S _ _ (le_n 1)))) R2 Q2).
Defined.

(** C3, as the specification words it, fails.  In the key expansion of the
    sample key on the context created for 128/128 (a single-length key),
    the first pass of the loop leaves [initial_data] rotated, where the
    claim has it unchanged; on the context created for 128/256 (a
    double-length key) it leaves [initial_data] rotated by one word, where
    the claim has it rotated by [nb = 2] words.  Nothing follows the last
    pair of round keys: the pass that derives round key [nr], pass 5 for
    128/128 and pass 3 for 128/256, leaves the loop by [break]. *)
Lemma initial_data_rotation_counterexample :
  sample_body created_128_128 sample_key_128 = inr after_first_pass_128_128 /\
  el_initial_data after_first_pass_128_128 =
    [0x0f0e0d0c0b0a0908; 0x0706050403020100] /\
  initial_data_as_specified 2 2 sample_key_128 =
    [0x0706050403020100; 0x0f0e0d0c0b0a0908] /\
  el_initial_data after_first_pass_128_128 <> initial_data_as_specified 2 2 sample_key_128 /\
  sample_body created_128_256 sample_key_256 = inr after_first_pass_128_256 /\
  el_initial_data after_first_pass_128_256 =
    [0x0f0e0d0c0b0a0908; 0x1716151413121110; 0x1f1e1d1c1b1a1918; 0x0706050403020100] /\
  initial_data_as_specified 2 4 sample_key_256 =
    [0x1716151413121110; 0x1f1e1d1c1b1a1918; 0x0706050403020100; 0x0f0e0d0c0b0a0908] /\
  el_initial_data after_first_pass_128_256 <> initial_data_as_specified 2 4 sample_key_256 /\
  el_round (sample_pass 5 created_128_128 sample_key_128) = nr created_128_128 /\
  (exists ctx,
     KeyExpandEven_body false sample_sboxes_enc sample_mds_matrix
       (sample_kt created_128_128 sample_key_128)
       (sample_pass 5 created_128_128 sample_key_128) = inl ctx) /\
  (el_round (sample_pass 3 created_128_256 sample_key_256) + 2)%nat = nr created_128_256 /\
  (exists ctx,
     KeyExpandEven_body false sample_sboxes_enc sample_mds_matrix
       (sample_kt created_128_256 sample_key_256)
       (sample_pass 3 created_128_256 sample_key_256) = inl ctx).
Proof.
  repeat split; try (vm_compute; reflexivity);
    try (eexists; vm_compute; reflexivity);
    vm_compute; intros H; discriminate H.
Qed.

Lemma odd_round_keys_rotated_witness :
  context_ok created_128_128 /\ words_ok 2 sample_key_128 /\
  exists expanded,
    KalynaKeyExpand false sample_sboxes_enc sample_mds_matrix
      sample_key_128 created_128_128 = Some expanded /\
    forall i, Nat.Odd i -> (1 <= i < nr expanded)%nat ->
      round_key expanded i =
      canonical_words (nb expanded)
        (rotate_left_bytes (2 * nb expanded + 3)
           (canonical_bytes (round_key expanded (i - 1)))).
Proof.
  assert (C : context_ok created_128_128)
    by exact (KalynaInit_context_ok always 128 128 _ created_128_128_init).
  assert (K : words_ok 2 sample_key_128) by (apply sample_words_ok; reflexivity).
  split; [exact C|]. split; [exact K|].
  exact (odd_round_keys_rotated false sample_sboxes_enc sample_mds_matrix
           sample_sboxes_enc_bytes sample_mds_matrix_bytes
           created_128_128 sample_key_128 C K).
Defined.

Lemma KalynaInit_configurations_witness :
  KalynaInit always 192 128 = None /\
  exists ctx,
    KalynaInit always 256 512 = Some ctx /\
    nb ctx = 4%nat /\ nk ctx = 8%nat /\ nr ctx = 18%nat.
Proof.
  split.
  - apply (proj1 (KalynaInit_configurations always 192 128)).
    unfold supported. intros [[H _]|[[H _]|[[H _]|[[H _]|[H _]]]]]; discriminate H.
  - apply (proj2 (KalynaInit_configurations always 256 512)).
    + intros k. reflexivity.
    + unfold supported. right. right. right. left. split; reflexivity.
Defined.

Lemma round_functions_inverse_witness :
  block_words 2 /\ words_ok 2 sample_plaintext_128 /\
  EncipherRound false sample_sboxes_enc sample_mds_matrix
    (set_state created_128_128 sample_plaintext_128) =
  MixColumns false sample_mds_matrix
    (ShiftRows false
       (SubBytes sample_sboxes_enc (set_state created_128_128 sample_plaintext_128))) /\
  DecipherRound false sample_sboxes_dec sample_mds_inv_matrix
    (set_state created_128_128 sample_plaintext_128) =
  InvSubBytes sample_sboxes_dec
    (InvShiftRows false
       (InvMixColumns false sample_mds_inv_matrix
          (set_state created_128_128 sample_plaintext_128))) /\
  DecipherRound false sample_sboxes_dec sample_mds_inv_matrix
    (EncipherRound false sample_sboxes_enc sample_mds_matrix
       (set_state created_128_128 sample_plaintext_128)) =
  set_state created_128_128 sample_plaintext_128 /\
  EncipherRound false sample_sboxes_enc sample_mds_matrix
    (DecipherRound false sample_sboxes_dec sample_mds_inv_matrix
       (set_state created_128_128 sample_plaintext_128)) =
  set_state created_128_128 sample_plaintext_128.
Proof.
  assert (B : block_words 2) by (left; reflexivity).
  assert (P : words_ok 2 sample_plaintext_128) by (apply sample_words_ok; reflexivity).
  split; [exact B|]. split; [exact P|].
  exact (round_functions_inverse false sample_sboxes_enc sample_sboxes_dec
           sample_mds_matrix sample_mds_inv_matrix
           sample_sboxes_enc_bytes sample_sboxes_dec_bytes sample_sboxes_inverse
           sample_mds_matrix_bytes sample_mds_inv_matrix_bytes
           sample_mds_inverse sample_mds_inverse_r
           (set_state created_128_128 sample_plaintext_128) B P).
Defined.

Lemma MultiplyGF_field_properties_witness :
  u8 0x53 /\ u8 0xCA /\
  MultiplyGF 0x53 0xCA = MultiplyGF 0xCA 0x53 /\
  MultiplyGF 0x53 1 = 0x53 /\ MultiplyGF 0x53 0 = 0.
Proof.
  assert (A : u8 0x53) by (unfold u8; lia).
  assert (B : u8 0xCA) by (unfold u8; lia).
  split; [exact A|]. split; [exact B|].
  exact (MultiplyGF_field_properties 0x53 0xCA A B).
Defined.

Lemma round_key_addition_wraps_witness :
  words_ok 2 (state wrapping_context) /\
  (forall i, (i < 2)%nat ->
     nth i (state (AddRoundKey 0 wrapping_context)) 0 =
     (nth i (state wrapping_context) 0 + nth i (round_key wrapping_context 0) 0)
       mod 2 ^ 64) /\
  (forall i, (i < 2)%nat ->
     nth i (state (SubRoundKey 0 wrapping_context)) 0 =
     (nth i (state wrapping_context) 0 - nth i (round_key wrapping_context 0) 0)
       mod 2 ^ 64) /\
  SubRoundKey 0 (AddRoundKey 0 wrapping_context) = wrapping_context.
Proof.
  assert (W : words_ok 2 (state wrapping_context))
    by (apply sample_words_ok; reflexivity).
  split; [exact W|].
  exact (round_key_addition_wraps 0 wrapping_context W).
Defined.

Lemma encipher_without_key_expansion_witness :
  KalynaInit always 128 128 = Some created_128_128 /\
  words_ok 2 sample_plaintext_128 /\
  fst (KalynaEncipher false sample_sboxes_enc sample_mds_matrix
         sample_plaintext_128 created_128_128 [0; 0]) =
    state (Nat.iter 10 (EncipherRound false sample_sboxes_enc sample_mds_matrix)
             (set_state created_128_128 sample_plaintext_128)) /\
  fst (KalynaDecipher false sample_sboxes_dec sample_mds_inv_matrix
         sample_plaintext_128 created_128_128 [0; 0]) =
    state (Nat.iter 10 (DecipherRound false sample_sboxes_dec sample_mds_inv_matrix)
             (set_state created_128_128 sample_plaintext_128)).
Proof.
  assert (P : words_ok 2 sample_plaintext_128) by (apply sample_words_ok; reflexivity).
  split; [exact created_128_128_init|]. split; [exact P|].
  exact (encipher_without_key_expansion false sample_sboxes_enc sample_sboxes_dec
           sample_mds_matrix sample_mds_inv_matrix
           sample_sboxes_enc_bytes sample_sboxes_dec_bytes
           sample_mds_matrix_bytes sample_mds_inv_matrix_bytes
           always 128 128 created_128_128 sample_plaintext_128 [0; 0]
           created_128_128_init P eq_refl).
Defined.

(** C9, as the specification words it, fails.  On the context that
    [KalynaInit] has just returned for 128/128, whose round keys are all
    zero, [KalynaEncipher] and [KalynaDecipher] report nothing and write a
    block to the output buffer. *)
Lemma created_context_not_rejected_counterexample :
  KalynaInit always 128 128 = Some created_128_128 /\
  round_keys created_128_128 = repeat [0; 0] 11 /\
  fst (KalynaEncipher false sample_sboxes_enc sample_mds_matrix
         sample_plaintext_128 created_128_128 [0; 0]) =
    [14324754571714905078; 17876988317242770263] /\
  fst (KalynaDecipher false sample_sboxes_dec sample_mds_inv_matrix
         sample_plaintext_128 created_128_128 [0; 0]) =
    [633789548336052872; 7702733415789289531].
Proof.
  repeat split; vm_compute; reflexivity.
Qed.

Lemma output_independent_of_prior_state_witness :
  frame created_128_128 used_128_128 /\
  length (state created_128_128) = 2%nat /\ length (state used_128_128) = 2%nat /\
  (2 <= length sample_plaintext_128)%nat /\
  fst (KalynaEncipher false sample_sboxes_enc sample_mds_matrix
         sample_plaintext_128 created_128_128 [0; 0]) =
  fst (KalynaEncipher false sample_sboxes_enc sample_mds_matrix
         sample_plaintext_128 used_128_128 [0; 0]) /\
  fst (KalynaDecipher false sample_sboxes_dec sample_mds_inv_matrix
         sample_plaintext_128 created_128_128 [0; 0]) =
  fst (KalynaDecipher false sample_sboxes_dec sample_mds_inv_matrix
         sample_plaintext_128 used_128_128 [0; 0]).
Proof.
  assert (F : frame created_128_128 used_128_128) by (repeat split).
  split; [exact F|]. split; [reflexivity|]. split; [reflexivity|].
  split; [apply le_n|].
  exact (output_independent_of_prior_state false sample_sboxes_enc sample_sboxes_dec
           sample_mds_matrix sample_mds_inv_matrix
           created_128_128 used_128_128 sample_plaintext_128 [0; 0]
           F eq_refl eq_refl (le_n 2)).
Defined.


(** ** Allocation and release *)

Lemma same_but_blocks_refl (w : Allocation.world) : same_but_blocks w w.
Proof. repeat split. Qed.

Lemma same_but_blocks_trans (a b c : Allocation.world) :
  same_but_blocks a b -> same_but_blocks b c -> same_but_blocks a c.
Proof.
  unfold same_but_blocks. intros (A1 & A2 & A3) (B1 & B2 & B3).
  repeat split; congruence.
Qed.

Lemma existsb_eqb_In (p : nat) (l : list nat) :
  In p l -> existsb (Nat.eqb p) l = true.
Proof.
  intros H. apply existsb_exists. exists p. split; [exact H | apply Nat.eqb_refl].
Qed.

Lemma NoDup_remove_list (p : nat) (l : list nat) :
  NoDup l -> NoDup (remove Nat.eq_dec p l).
Proof.
  induction 1 as [|x l Hx Hl IH]; [constructor|].
  cbn [remove]. destruct (Nat.eq_dec p x); [exact IH|].
  constructor; [|exact IH]. intros H. apply in_remove in H. tauto.
Qed.

(** Freeing a block that the call owns takes it out of what it owns. *)
Lemma free_owned (w : Allocation.world) (mine rest : list nat) (p : nat) :
  owns w mine rest -> In p mine ->
  owns (Allocation.free p w) (remove Nat.eq_dec p mine) rest /\
  same_but_blocks w (Allocation.free p w).
Proof.
  intros (A & N & D) Hp. unfold Allocation.free. cbv zeta.
  rewrite existsb_eqb_In by (rewrite A; apply in_or_app; left; exact Hp).
  split; [|repeat split].
  unfold owns. cbn [Allocation.memory Allocation.allocated]. split; [|split].
  - rewrite A, remove_app. f_equal. apply notin_remove. apply D, Hp.
  - apply NoDup_remove_list, N.
  - intros q Hq. apply in_remove in Hq. apply D, Hq.
Qed.

Lemma in_without (ps l : list nat) (x : nat) :
  In x (without ps l) <-> In x l /\ ~ In x ps.
Proof.
  unfold without. revert l. induction ps as [|p ps IH]; intros l; cbn [fold_left].
  - cbn [In]. tauto.
  - rewrite IH. cbn [In]. split.
    + intros [H1 H2]. apply in_remove in H1. intuition congruence.
    + intros [H1 H2]. split; [|tauto]. apply in_in_remove; [|exact H1].
      intros E. apply H2. left. congruence.
Qed.

Lemma free_all (ps : list nat) :
  forall (w : Allocation.world) (mine rest : list nat),
  owns w mine rest -> NoDup ps -> (forall p, In p ps -> In p mine) ->
  owns (fold_left (fun w p => Allocation.free p w) ps w) (without ps mine) rest /\
  same_but_blocks w (fold_left (fun w p => Allocation.free p w) ps w).
Proof.
  induction ps as [|p ps IH]; intros w mine rest O N I.
  - split; [exact O | apply same_but_blocks_refl].
  - cbn [fold_left]. unfold without. cbn [fold_left].
    destruct (free_owned w mine rest p O (I p (or_introl eq_refl))) as [O1 S1].
    inversion N as [|? ? Np Nps]; subst.
    destruct (IH (Allocation.free p w) (remove Nat.eq_dec p mine) rest O1 Nps) as [O2 S2].
    + intros q Hq. apply in_in_remove; [|apply I; right; exact Hq].
      intros E. subst q. contradiction.
    + split; [exact O2 | eapply same_but_blocks_trans; eassumption].
Qed.

Lemma owns_nothing (w : Allocation.world) (mine rest : list nat) :
  owns w mine rest -> (forall p, ~ In p mine) ->
  Allocation.allocated (Allocation.memory w) = rest.
Proof.
  intros (A & _) H. destruct mine as [|x mine]; [exact A|].
  exfalso. apply (H x). left. reflexivity.
Qed.

(** The loops that free [keys[j]], for [j] below the length of [keys]. *)
Lemma fold_left_ext_seq {T : Type} (f g : T -> nat -> T) (n : nat) :
  (forall a k, (k < n)%nat -> f a k = g a k) ->
  forall s, fold_left f (seq 0 n) s = fold_left g (seq 0 n) s.
Proof.
  intros H. induction n as [|n IH]; intros s; [reflexivity|].
  rewrite seq_S, !fold_left_app. cbn [fold_left Nat.add].
  rewrite IH by (intros; apply H; lia). apply H. lia.
Qed.

Lemma fold_left_seq_nth {T : Type} (g : nat -> T -> T) (keys : list nat) :
  forall s,
  fold_left (fun a k => g (nth k keys 0%nat) a) (seq 0 (length keys)) s =
  fold_left (fun a p => g p a) keys s.
Proof.
  induction keys as [|x l IH] using rev_ind; intros s; [reflexivity|].
  rewrite length_app. cbn [length]. rewrite Nat.add_1_r, seq_S, !fold_left_app.
  cbn [fold_left Nat.add]. rewrite app_nth2, Nat.sub_diag by lia. cbn [nth].
  f_equal. rewrite <- IH. apply fold_left_ext_seq. intros a k Hk.
  now rewrite app_nth1 by exact Hk.
Qed.

Lemma free_loop (keys : list nat) (w : Allocation.world) :
  for_loop 0 (length keys) (fun j w => Allocation.free (nth j keys 0%nat) w) w =
  fold_left (fun w p => Allocation.free p w) keys w.
Proof.
  unfold for_loop. rewrite Nat.sub_0_r, for_from_fold.
  apply (fold_left_seq_nth (fun p w => Allocation.free p w)).
Qed.

Lemma free_loop_handles (keys : list nat) (w : Allocation.world) :
  for_loop 0 (length keys)
    (fun i w =>
       match nth i (map Some keys) None with
       | Some q => Allocation.free q w
       | None => w
       end) w =
  fold_left (fun w p => Allocation.free p w) keys w.
Proof.
  rewrite <- free_loop. unfold for_loop. rewrite Nat.sub_0_r, !for_from_fold.
  apply fold_left_ext_seq. intros a k Hk.
  rewrite (nth_indep _ None (Some 0%nat)) by (now rewrite length_map).
  now rewrite map_nth.
Qed.

Lemma allocate_some (f : nat -> bool) (w w' : Allocation.world) (p : nat) :
  Allocation.allocate f w = (Some p, w') ->
  f (Allocation.requests (Allocation.memory w)) = true /\
  p = Allocation.requests (Allocation.memory w) /\
  Allocation.allocated (Allocation.memory w') =
    p :: Allocation.allocated (Allocation.memory w) /\
  Allocation.requests (Allocation.memory w') =
    S (Allocation.requests (Allocation.memory w)) /\
  Allocation.damaged (Allocation.memory w') = Allocation.damaged (Allocation.memory w) /\
  Allocation.errors w' = Allocation.errors w.
Proof.
  unfold Allocation.allocate. cbv zeta.
  destruct (f (Allocation.requests (Allocation.memory w))); [|discriminate].
  intros H. injection H as <- <-. repeat split.
Qed.

Lemma allocate_none (f : nat -> bool) (w w' : Allocation.world) :
  Allocation.allocate f w = (None, w') ->
  f (Allocation.requests (Allocation.memory w)) = false /\
  Allocation.allocated (Allocation.memory w') = Allocation.allocated (Allocation.memory w) /\
  Allocation.requests (Allocation.memory w') =
    S (Allocation.requests (Allocation.memory w)) /\
  Allocation.damaged (Allocation.memory w') = Allocation.damaged (Allocation.memory w) /\
  Allocation.errors w' = Allocation.errors w.
Proof.
  unfold Allocation.allocate. cbv zeta.
  destruct (f (Allocation.requests (Allocation.memory w))); [discriminate|].
  intros H. injection H as <-. repeat split.
Qed.

Lemma holding_allocate (f : nat -> bool) (w w' : Allocation.world) (p : nat)
  (mine rest : list nat) :
  holding w mine rest -> Allocation.allocate f w = (Some p, w') ->
  holding w' (p :: mine) rest.
Proof.
  intros [(A & N & D) B] H.
  destruct (allocate_some f w w' p H) as (_ & Ep & Ea & Er & _).
  assert (Fresh : ~ In p (mine ++ rest)).
  { intros I. apply B in I. lia. }
  split; [split; [|split]|].
  - rewrite Ea, A. reflexivity.
  - constructor; [|exact N]. intros I. apply Fresh, in_or_app. left. exact I.
  - intros q [<- | Hq]; [|apply D, Hq].
    intros I. apply Fresh, in_or_app. right. exact I.
  - intros q [<- | Hq]; rewrite Er; [lia|]. apply B in Hq. lia.
Qed.

Lemma holding_failed (f : nat -> bool) (w w' : Allocation.world) (mine rest : list nat) :
  holding w mine rest -> Allocation.allocate f w = (None, w') ->
  owns w' mine rest.
Proof.
  intros [(A & N & D) B] H.
  destruct (allocate_none f w w' H) as (_ & Ea & _).
  split; [|split]; [rewrite Ea; exact A | exact N | exact D].
Qed.

Lemma owns_report (e : Allocation.event) (w : Allocation.world) (mine rest : list nat) :
  owns w mine rest -> owns (Allocation.report e w) mine rest.
Proof. intros H. exact H. Qed.

Lemma NoDup_app_disjoint (l1 l2 : list nat) (x : nat) :
  NoDup (l1 ++ l2) -> In x l1 -> In x l2 -> False.
Proof.
  induction l1 as [|y l1 IH]; intros N H1 H2; [contradiction|].
  cbn [app] in N. inversion N as [|? ? Hy N']; subst.
  destruct H1 as [-> | H1]; [|exact (IH N' H1 H2)].
  apply Hy, in_or_app. right. exact H2.
Qed.

(** Releasing the blocks of the round keys, then the three blocks below
    them, leaves the heap as it was before the call. *)
Lemma release_all (keys : list nat) (ctx state round_keys : nat)
  (w : Allocation.world) (rest : list nat) :
  owns w (rev keys ++ [round_keys; state; ctx]) rest ->
  let w1 := fold_left (fun w p => Allocation.free p w) keys w in
  let w2 := Allocation.free round_keys w1 in
  let w3 := Allocation.free state w2 in
  let w4 := Allocation.free ctx w3 in
  Allocation.allocated (Allocation.memory w4) = rest /\ same_but_blocks w w4 /\
  Allocation.allocated (Allocation.memory
     (Allocation.free ctx (Allocation.free round_keys
        (fold_left (fun w p => Allocation.free p w) keys (Allocation.free state w)))))
    = rest /\
  same_but_blocks w
    (Allocation.free ctx (Allocation.free round_keys
       (fold_left (fun w p => Allocation.free p w) keys (Allocation.free state w)))).
Proof.
  intros O. cbv zeta. pose proof O as (_ & N & _).
  assert (Nk : NoDup keys).
  { apply NoDup_app_remove_r in N. apply NoDup_rev in N.
    now rewrite rev_involutive in N. }
  assert (Ik : forall p, In p keys -> In p (rev keys ++ [round_keys; state; ctx])).
  { intros p Hp. apply in_or_app. left. apply in_rev in Hp. exact Hp. }
  assert (It : forall p, In p [round_keys; state; ctx] ->
                         In p (rev keys ++ [round_keys; state; ctx]))
    by (intros p Hp; apply in_or_app; right; exact Hp).
  assert (Dk : forall p, In p [round_keys; state; ctx] -> ~ In p keys).
  { intros p Hp Hk. apply in_rev in Hk.
    exact (NoDup_app_disjoint _ _ p N Hk Hp). }
  assert (Dt : round_keys <> state /\ round_keys <> ctx /\ state <> ctx).
  { apply NoDup_app_remove_l in N.
    inversion N as [|? ? H1 N1]; subst. inversion N1 as [|? ? H2 N2]; subst.
    cbn [In] in H1, H2. intuition congruence. }
  destruct Dt as (D1 & D2 & D3).
  split; [|split; [|split]].
  - destruct (free_all keys w _ rest O Nk Ik) as [O1 _].
    destruct (free_owned _ _ rest round_keys O1) as [O2 _].
    { apply in_without. split; [apply It; cbn; auto | apply Dk; cbn; auto]. }
    destruct (free_owned _ _ rest state O2) as [O3 _].
    { apply in_in_remove; [congruence|].
      apply in_without. split; [apply It; cbn; auto | apply Dk; cbn; auto]. }
    destruct (free_owned _ _ rest ctx O3) as [O4 _].
    { apply in_in_remove; [congruence|]. apply in_in_remove; [congruence|].
      apply in_without. split; [apply It; cbn; auto | apply Dk; cbn; auto]. }
    apply (owns_nothing _ _ rest O4). intros p Hp.
    apply in_remove in Hp. destruct Hp as [Hp Hc].
    apply in_remove in Hp. destruct Hp as [Hp Hs].
    apply in_remove in Hp. destruct Hp as [Hp Hr].
    apply in_without in Hp. destruct Hp as [Hp Hn].
    apply in_app_or in Hp. destruct Hp as [Hp | Hp].
    + apply Hn. apply in_rev. exact Hp.
    + cbn [In] in Hp. intuition congruence.
  - destruct (free_all keys w _ rest O Nk Ik) as [O1 S1].
    destruct (free_owned _ _ rest round_keys O1) as [O2 S2].
    { apply in_without. split; [apply It; cbn; auto | apply Dk; cbn; auto]. }
    destruct (free_owned _ _ rest state O2) as [O3 S3].
    { apply in_in_remove; [congruence|].
      apply in_without. split; [apply It; cbn; auto | apply Dk; cbn; auto]. }
    destruct (free_owned _ _ rest ctx O3) as [O4 S4].
    { apply in_in_remove; [congruence|]. apply in_in_remove; [congruence|].
      apply in_without. split; [apply It; cbn; auto | apply Dk; cbn; auto]. }
    eapply same_but_blocks_trans; [exact S1|].
    eapply same_but_blocks_trans; [exact S2|].
    eapply same_but_blocks_trans; [exact S3 | exact S4].
  - destruct (free_owned w _ rest state O) as [O1 _]; [apply It; cbn; auto|].
    destruct (free_all keys _ _ rest O1 Nk) as [O2 _].
    { intros p Hp. apply in_in_remove; [|apply Ik, Hp].
      intros E. subst p. apply (Dk state); cbn; auto. }
    destruct (free_owned _ _ rest round_keys O2) as [O3 _].
    { apply in_without. split; [|apply Dk; cbn; auto].
      apply in_in_remove; [congruence | apply It; cbn; auto]. }
    destruct (free_owned _ _ rest ctx O3) as [O4 _].
    { apply in_in_remove; [congruence|].
      apply in_without. split; [|apply Dk; cbn; auto].
      apply in_in_remove; [congruence | apply It; cbn; auto]. }
    apply (owns_nothing _ _ rest O4). intros p Hp.
    apply in_remove in Hp. destruct Hp as [Hp Hc].
    apply in_remove in Hp. destruct Hp as [Hp Hr].
    apply in_without in Hp. destruct Hp as [Hp Hn].
    apply in_remove in Hp. destruct Hp as [Hp Hs].
    apply in_app_or in Hp. destruct Hp as [Hp | Hp].
    + apply Hn. apply in_rev. exact Hp.
    + cbn [In] in Hp. intuition congruence.
  - destruct (free_owned w _ rest state O) as [O1 S1]; [apply It; cbn; auto|].
    destruct (free_all keys _ _ rest O1 Nk) as [O2 S2].
    { intros p Hp. apply in_in_remove; [|apply Ik, Hp].
      intros E. subst p. apply (Dk state); cbn; auto. }
    destruct (free_owned _ _ rest round_keys O2) as [O3 S3].
    { apply in_without. split; [|apply Dk; cbn; auto].
      apply in_in_remove; [congruence | apply It; cbn; auto]. }
    destruct (free_owned _ _ rest ctx O3) as [O4 S4].
    { apply in_in_remove; [congruence|].
      apply in_without. split; [|apply Dk; cbn; auto].
      apply in_in_remove; [congruence | apply It; cbn; auto]. }
    eapply same_but_blocks_trans; [exact S1|].
    eapply same_but_blocks_trans; [exact S2|].
    eapply same_but_blocks_trans; [exact S3 | exact S4].
Qed.

Lemma allocate_round_keys_spec
  (f : nat -> bool) (ctx state round_keys : nat) (rest : list nat) (count : nat) :
  forall (i : nat) (keys : list nat) (w : Allocation.world),
  length keys = i ->
  holding w (rev keys ++ [round_keys; state; ctx]) rest ->
  match Allocation.allocate_round_keys f ctx state round_keys i count keys w with
  | (Some keys', w') =>
      holding w' (rev keys' ++ [round_keys; state; ctx]) rest /\
      length keys' = (i + count)%nat /\
      Allocation.damaged (Allocation.memory w') =
        Allocation.damaged (Allocation.memory w) /\
      Allocation.errors w' = Allocation.errors w /\
      forall j, (j < count)%nat ->
        f (Allocation.requests (Allocation.memory w) + j)%nat = true
  | (None, w') =>
      Allocation.allocated (Allocation.memory w') = rest /\
      Allocation.damaged (Allocation.memory w') =
        Allocation.damaged (Allocation.memory w) /\
      Allocation.errors w' =
        Allocation.errors w ++ [Allocation.to_perror Allocation.no_memory_for_round_keys]
  end.
Proof.
  induction count as [|c IH]; intros i keys w L H.
  - cbn [Allocation.allocate_round_keys]. rewrite Nat.add_0_r.
    repeat split; try assumption; try apply H. intros j Hj. lia.
  - cbn [Allocation.allocate_round_keys].
    destruct (Allocation.allocate f w) as [[p|] w1] eqn:E.
    + destruct (allocate_some f w w1 p E) as (Fp & Ep & Ea & Er & Ed & Ee).
      pose proof (holding_allocate f w w1 p _ rest H E) as H1.
      specialize (IH (S i) (keys ++ [p]) w1).
      rewrite rev_unit in IH. cbn [app] in IH.
      specialize (IH ltac:(rewrite length_app; cbn [length]; lia) H1).
      destruct (Allocation.allocate_round_keys f ctx state round_keys (S i) c
                  (keys ++ [p]) w1) as [[keys'|] w'].
      * destruct IH as (I1 & I2 & I3 & I4 & I5).
        split; [exact I1|]. split; [lia|]. split; [congruence|].
        split; [congruence|]. intros [|j] Hj.
        -- rewrite Nat.add_0_r. exact Fp.
        -- rewrite Er in I5. specialize (I5 j ltac:(lia)).
           replace (Allocation.requests (Allocation.memory w) + S j)%nat
             with (S (Allocation.requests (Allocation.memory w)) + j)%nat by lia.
           exact I5.
      * destruct IH as (I1 & I2 & I3). split; [exact I1|].
        split; [congruence|]. rewrite I3, Ee. reflexivity.
    + destruct (allocate_none f w w1 E) as (_ & Ea & Er & Ed & Ee).
      pose proof (holding_failed f w w1 _ rest H E) as O1.
      subst i. rewrite free_loop.
      destruct (release_all keys ctx state round_keys
                  (Allocation.report
                     (Allocation.to_perror Allocation.no_memory_for_round_keys) w1)
                  rest O1) as (A & (_ & Sd & Se) & _).
      split; [exact A|]. split.
      * rewrite Sd. exact Ed.
      * rewrite Se. cbn [Allocation.report Allocation.errors]. now rewrite Ee.
Qed.

Lemma heap_ok_holding (w : Allocation.world) :
  heap_ok (Allocation.memory w) ->
  holding w [] (Allocation.allocated (Allocation.memory w)).
Proof.
  intros [N B]. split; [split; [reflexivity | split; [constructor | intros p []]]|].
  exact B.
Qed.

(** What a call of [KalynaInit] leaves: on failure the heap as it was, on
    success a handle that owns [nr + 4] blocks. *)
Lemma KalynaInit_spec (f : nat -> bool) (block_size key_size : Z) (w : Allocation.world) :
  heap_ok (Allocation.memory w) ->
  match Allocation.KalynaInit f block_size key_size w with
  | (None, w') =>
      Allocation.allocated (Allocation.memory w') =
        Allocation.allocated (Allocation.memory w) /\
      Allocation.damaged (Allocation.memory w') =
        Allocation.damaged (Allocation.memory w)
  | (Some h, w') =>
      exists ctx state round_keys keys n k r,
        h = Allocation.mk_handle ctx (Some state) (Some round_keys) (map Some keys)
              (mk_kalyna n k r (repeat 0 n) (map (fun _ => repeat 0 n) keys)) /\
        Allocation.select block_size key_size = inl (n, k, r) /\
        length keys = (r + 1)%nat /\
        owns w' (rev keys ++ [round_keys; state; ctx])
          (Allocation.allocated (Allocation.memory w)) /\
        Allocation.damaged (Allocation.memory w') =
          Allocation.damaged (Allocation.memory w) /\
        Allocation.errors w' = Allocation.errors w /\
        forall j, (j < r + 4)%nat ->
          f (Allocation.requests (Allocation.memory w) + j)%nat = true
  end.
Proof.
  intros Hw. pose proof (heap_ok_holding w Hw) as H0.
  set (rest := Allocation.allocated (Allocation.memory w)) in *.
  unfold Allocation.KalynaInit.
  destruct (Allocation.allocate f w) as [[ctx|] w1] eqn:E1.
  2:{ destruct (allocate_none f w w1 E1) as (_ & Ea & _ & Ed & _). auto. }
  destruct (allocate_some f w w1 ctx E1) as (F1 & _ & _ & R1 & D1 & X1).
  pose proof (holding_allocate f w w1 ctx _ rest H0 E1) as H1.
  destruct (Allocation.select block_size key_size) as [[[n k] r]|text] eqn:Es.
  2:{ cbv zeta.
      destruct (free_owned (Allocation.report (Allocation.to_stderr text) w1) [ctx] rest ctx)
        as [O (_ & Sd & _)]; [apply H1 | left; reflexivity |].
      split; [|rewrite Sd; exact D1].
      apply (owns_nothing _ _ rest O). intros p Hp. apply in_remove in Hp.
      cbn [In] in Hp. intuition congruence. }
  destruct (Allocation.allocate f w1) as [[state|] w2] eqn:E2.
  2:{ cbv zeta. destruct (allocate_none f w1 w2 E2) as (_ & _ & _ & D2 & _).
      pose proof (holding_failed f w1 w2 _ rest H1 E2) as O2.
      destruct (free_owned
                  (Allocation.report (Allocation.to_perror Allocation.no_memory_for_state) w2)
                  [ctx] rest ctx) as [O (_ & Sd & _)]; [exact O2 | left; reflexivity |].
      split; [|rewrite Sd; cbn [Allocation.report Allocation.memory]; congruence].
      apply (owns_nothing _ _ rest O). intros p Hp. apply in_remove in Hp.
      cbn [In] in Hp. intuition congruence. }
  destruct (allocate_some f w1 w2 state E2) as (F2 & _ & _ & R2 & D2 & X2).
  pose proof (holding_allocate f w1 w2 state _ rest H1 E2) as H2.
  destruct (Allocation.allocate f w2) as [[round_keys|] w3] eqn:E3.
  2:{ cbv zeta. destruct (allocate_none f w2 w3 E3) as (_ & _ & _ & D3 & _).
      pose proof (holding_failed f w2 w3 _ rest H2 E3) as O3.
      assert (Ne : state <> ctx).
      { destruct O3 as (_ & N & _). inversion N as [|? ? Hn _]; subst.
        cbn [In] in Hn. intuition congruence. }
      destruct (free_owned
                  (Allocation.report
                     (Allocation.to_perror Allocation.no_memory_for_round_keys) w3)
                  [state; ctx] rest state) as [O4 (_ & Sd4 & _)];
        [exact O3 | left; reflexivity |].
      destruct (free_owned _ _ rest ctx O4) as [O5 (_ & Sd5 & _)].
      { apply in_in_remove; [congruence | right; left; reflexivity]. }
      split; [|rewrite Sd5, Sd4; cbn [Allocation.report Allocation.memory]; congruence].
      apply (owns_nothing _ _ rest O5). intros p Hp.
      apply in_remove in Hp. destruct Hp as [Hp Hc].
      apply in_remove in Hp. cbn [In] in Hp. intuition congruence. }
  destruct (allocate_some f w2 w3 round_keys E3) as (F3 & _ & _ & R3 & D3 & X3).
  pose proof (holding_allocate f w2 w3 round_keys _ rest H2 E3) as H3.
  pose proof (allocate_round_keys_spec f ctx state round_keys rest (r + 1) 0 [] w3
                eq_refl H3) as Hk.
  destruct (Allocation.allocate_round_keys f ctx state round_keys 0 (r + 1) [] w3)
    as [[keys|] w4].
  - destruct Hk as (K1 & K2 & K3 & K4 & K5).
    exists ctx, state, round_keys, keys, n, k, r.
    split; [reflexivity|]. split; [reflexivity|]. split; [exact K2|].
    split; [apply K1|]. split; [congruence|]. split; [congruence|].
    intros j Hj. destruct j as [|[|[|j]]].
    + rewrite Nat.add_0_r. exact F1.
    + rewrite R1 in F2. rewrite Nat.add_1_r. exact F2.
    + rewrite R2, R1 in F3.
      replace (Allocation.requests (Allocation.memory w) + 2)%nat
        with (S (S (Allocation.requests (Allocation.memory w)))) by lia. exact F3.
    + rewrite R3, R2, R1 in K5. specialize (K5 j ltac:(lia)).
      replace (Allocation.requests (Allocation.memory w) + S (S (S j)))%nat
        with (S (S (S (Allocation.requests (Allocation.memory w)))) + j)%nat by lia.
      exact K5.
  - destruct Hk as (K1 & K2 & _). split; [exact K1 | congruence].
Qed.

Lemma select_select_parameters (block_size key_size : Z) (p : nat * nat * nat) :
  Allocation.select block_size key_size = inl p ->
  select_parameters block_size key_size = Some p.
Proof.
  unfold Allocation.select, select_parameters.
  repeat match goal with
         | |- context [if ?c then _ else _] => destruct c
         end; intros H; try discriminate H; injection H as <-; reflexivity.
Qed.

Lemma alloc_round_keys_prefix (f : nat -> bool) (n count : nat) :
  forall i,
  (forall j, (j < count)%nat -> f (3 + i + j)%nat = true) ->
  alloc_round_keys f n i count = Some (repeat (repeat 0 n) count).
Proof.
  induction count as [|c IH]; intros i H; [reflexivity|].
  cbn [alloc_round_keys repeat].
  pose proof (H 0%nat ltac:(lia)) as H0. rewrite Nat.add_0_r in H0. rewrite H0.
  rewrite IH; [reflexivity|]. intros j Hj.
  replace (3 + S i + j)%nat with (3 + i + S j)%nat by lia. apply H. lia.
Qed.

(** ** Properties of the allocation *)

(** X23.  [KalynaInit] leaks nothing: whenever it returns [NULL], for an
    unsupported size or because a request for memory fails at any point,
    it has freed every block that it had allocated, and no other: the
    allocated blocks are those of before the call. *)
Theorem KalynaInit_failure_frees
  (alloc_ok : nat -> bool) (block_size key_size : Z) (w w' : Allocation.world) :
  heap_ok (Allocation.memory w) ->
  Allocation.KalynaInit alloc_ok block_size key_size w = (None, w') ->
  Allocation.allocated (Allocation.memory w') =
    Allocation.allocated (Allocation.memory w) /\
  Allocation.damaged (Allocation.memory w') = Allocation.damaged (Allocation.memory w).
Proof.
  intros Hw E. pose proof (KalynaInit_spec alloc_ok block_size key_size w Hw) as S.
  rewrite E in S. exact S.
Qed.

(** X24.  A context that [KalynaInit] returns holds [nr + 4] blocks: the
    structure, the state, the array of round-key pointers and [nr + 1]
    round keys.  [KalynaDelete] returns 0 and frees each of them once, and
    nothing else: the allocated blocks are again those of before
    [KalynaInit].  The context is the one that the [KalynaInit] without a
    heap gives for the same answers of the allocator.  On [NULL],
    [KalynaDelete] returns 0 and does nothing. *)
Theorem KalynaDelete_frees_context
  (alloc_ok : nat -> bool) (block_size key_size : Z)
  (w w1 : Allocation.world) (h : Allocation.handle) :
  heap_ok (Allocation.memory w) ->
  Allocation.KalynaInit alloc_ok block_size key_size w = (Some h, w1) ->
  length (Allocation.allocated (Allocation.memory w1)) =
    (nr (Allocation.value h) + 4 + length (Allocation.allocated (Allocation.memory w)))%nat /\
  KalynaInit (fun k => alloc_ok (Allocation.requests (Allocation.memory w) + k)%nat)
    block_size key_size = Some (Allocation.value h) /\
  fst (Allocation.KalynaDelete (Some h) w1) = 0 /\
  Allocation.allocated (Allocation.memory (snd (Allocation.KalynaDelete (Some h) w1))) =
    Allocation.allocated (Allocation.memory w) /\
  Allocation.damaged (Allocation.memory (snd (Allocation.KalynaDelete (Some h) w1))) =
    Allocation.damaged (Allocation.memory w) /\
  Allocation.KalynaDelete None w1 = (0, w1).
Proof.
  intros Hw E. pose proof (KalynaInit_spec alloc_ok block_size key_size w Hw) as S.
  rewrite E in S.
  destruct S as (ctx & state & round_keys & keys & n & k & r & -> & Es & Lk & O & D & X & F).
  cbn [Allocation.value nr].
  split; [|split; [|split; [|split; [|split]]]].
  - destruct O as (-> & _). rewrite !length_app, length_rev, Lk. cbn [length]. lia.
  - unfold KalynaInit. rewrite (select_select_parameters _ _ _ Es).
    pose proof (F 0%nat ltac:(lia)) as F0. pose proof (F 1%nat ltac:(lia)) as F1.
    pose proof (F 2%nat ltac:(lia)) as F2. rewrite F0, F1, F2. cbn [negb].
    rewrite (alloc_round_keys_prefix _ n (r + 1) 0)
      by (intros j Hj; rewrite <- F with (j := (3 + 0 + j)%nat) by lia; reflexivity).
    rewrite map_const, Lk. reflexivity.
  - reflexivity.
  - unfold Allocation.KalynaDelete.
    cbn [Allocation.state_block Allocation.round_keys_block Allocation.round_key_blocks
         Allocation.ctx_block Allocation.value nr snd].
    rewrite <- Lk, free_loop_handles.
    destruct (release_all keys ctx state round_keys w1 _ O) as (_ & _ & A & _).
    exact A.
  - unfold Allocation.KalynaDelete.
    cbn [Allocation.state_block Allocation.round_keys_block Allocation.round_key_blocks
         Allocation.ctx_block Allocation.value nr snd].
    rewrite <- Lk, free_loop_handles.
    destruct (release_all keys ctx state round_keys w1 _ O) as (_ & _ & _ & (_ & Sd & _)).
    rewrite Sd. exact D.
  - reflexivity.
Qed.

(** X25.  What [KalynaInit] reports.  When the first request for memory
    fails it returns [NULL] without a message.  Otherwise, for a block
    size other than 128, 256 and 512 it writes "Error: unsupported block
    size." to [stderr], whatever the key size is; for one of these block
    sizes with a key size that does not go with it, it writes "Error:
    unsupported key size.".  In both cases it returns [NULL], having made
    no request for memory but the first. *)
Theorem KalynaInit_reports
  (alloc_ok : nat -> bool) (block_size key_size : Z) (w : Allocation.world) :
  (alloc_ok (Allocation.requests (Allocation.memory w)) = false ->
   fst (Allocation.KalynaInit alloc_ok block_size key_size w) = None /\
   Allocation.errors (snd (Allocation.KalynaInit alloc_ok block_size key_size w)) =
     Allocation.errors w) /\
  (alloc_ok (Allocation.requests (Allocation.memory w)) = true ->
   ~ supported block_size key_size ->
   fst (Allocation.KalynaInit alloc_ok block_size key_size w) = None /\
   Allocation.requests
     (Allocation.memory (snd (Allocation.KalynaInit alloc_ok block_size key_size w))) =
     S (Allocation.requests (Allocation.memory w)) /\
   Allocation.errors (snd (Allocation.KalynaInit alloc_ok block_size key_size w)) =
     Allocation.errors w ++
     [Allocation.to_stderr
        (if (block_size =? 128) || (block_size =? 256) || (block_size =? 512)
         then Allocation.unsupported_key_size
         else Allocation.unsupported_block_size)]).
Proof.
  split.
  - intros F. unfold Allocation.KalynaInit, Allocation.allocate. cbv zeta.
    rewrite F. split; reflexivity.
  - intros F Hn. unfold Allocation.KalynaInit, Allocation.allocate. cbv zeta.
    rewrite F.
    assert (Es : Allocation.select block_size key_size =
                 inr (if (block_size =? 128) || (block_size =? 256) || (block_size =? 512)
                      then Allocation.unsupported_key_size
                      else Allocation.unsupported_block_size)).
    { unfold Allocation.select.
      change kBLOCK_128 with 128. change kBLOCK_512 with 512.
      change kKEY_128 with 128. change kKEY_256 with 256. change kKEY_512 with 512.
      unfold supported in Hn.
      destruct (Z.eqb_spec block_size 128) as [B1|B1];
        [|destruct (Z.eqb_spec block_size 256) as [B2|B2];
          [|destruct (Z.eqb_spec block_size 512) as [B3|B3]]];
        cbn [orb];
        repeat match goal with
               | |- context [key_size =? ?c] => destruct (Z.eqb_spec key_size c)
               end; try reflexivity; exfalso; apply Hn; tauto. }
    rewrite Es. cbv zeta.
    unfold Allocation.free, Allocation.report. cbv zeta.
    cbn [Allocation.memory Allocation.allocated Allocation.requests Allocation.errors
         existsb]. rewrite Nat.eqb_refl. cbn [orb fst snd Allocation.memory
         Allocation.requests Allocation.errors]. repeat split.
Qed.


(** ** Printing *)

Lemma digit_value_hex (d : Z) :
  0 <= d < 16 -> digit_value (nth (Z.to_nat d) hex_digits "0"%char) = d.
Proof.
  intros H.
  assert (C : forallb (fun d => digit_value (nth (Z.to_nat d) hex_digits "0"%char) =? d)
                (map Z.of_nat (seq 0 16)) = true) by (vm_compute; reflexivity).
  rewrite forallb_forall in C. apply Z.eqb_eq, C.
  replace d with (Z.of_nat (Z.to_nat d)) by lia. apply in_map, in_seq. lia.
Qed.

Lemma hex_value_shift (s : string) :
  forall acc, hex_value acc s = acc * 16 ^ Z.of_nat (String.length s) + hex_value 0 s.
Proof.
  induction s as [|c s IH]; intros acc.
  - cbn [hex_value String.length]. change (16 ^ Z.of_nat 0) with 1. lia.
  - cbn [hex_value String.length]. rewrite IH, (IH (16 * 0 + digit_value c)).
    rewrite Nat2Z.inj_succ, Z.pow_succ_r by lia. lia.
Qed.

Lemma hex_value_app (s t : string) (acc : Z) :
  hex_value acc (s ++ t) = hex_value (hex_value acc s) t.
Proof.
  revert acc. induction s as [|c s IH]; intros acc; [reflexivity|].
  cbn [append hex_value]. apply IH.
Qed.

Lemma length_app_string (s t : string) :
  String.length (s ++ t) = (String.length s + String.length t)%nat.
Proof. induction s as [|c s IH]; cbn [append String.length]; [reflexivity | now rewrite IH]. Qed.

Lemma hex_value_zeros (n : nat) : hex_value 0 (zeros n) = 0.
Proof.
  induction n as [|n IH]; [reflexivity|].
  cbn [zeros hex_value]. exact IH.
Qed.

Lemma zeros_length (n : nat) : String.length (zeros n) = n.
Proof. induction n as [|n IH]; cbn [zeros String.length]; [reflexivity | now rewrite IH]. Qed.

Lemma hex_numeral_app (s t : string) :
  hex_numeral s -> hex_numeral t -> hex_numeral (s ++ t).
Proof.
  unfold hex_numeral. intros Hs Ht.
  induction s as [|c s IH]; cbn [append list_ascii_of_string]; [exact Ht|].
  cbn [list_ascii_of_string] in Hs. inversion Hs as [|? ? Hc Hr]; subst.
  constructor; [exact Hc | apply IH, Hr].
Qed.

Lemma zeros_numeral (n : nat) : hex_numeral (zeros n).
Proof.
  unfold hex_numeral. induction n as [|n IH]; cbn [zeros list_ascii_of_string].
  - constructor.
  - constructor; [left; reflexivity | exact IH].
Qed.

Lemma hex_digit_In (d : nat) : In (nth d hex_digits "0"%char) hex_digits.
Proof.
  destruct (Nat.lt_ge_cases d (length hex_digits)) as [H|H].
  - apply nth_In, H.
  - rewrite nth_overflow by exact H. left. reflexivity.
Qed.

Lemma hexadecimal_numeral (fuel : nat) :
  forall (w : Z) (acc : string),
  hex_numeral acc -> hex_numeral (hexadecimal fuel w acc).
Proof.
  induction fuel as [|fuel IH]; intros w acc Ha; cbn [hexadecimal]; [exact Ha|].
  destruct (w =? 0); [exact Ha|].
  apply IH. unfold hex_numeral. cbn [list_ascii_of_string].
  constructor; [apply hex_digit_In | exact Ha].
Qed.

Lemma hexadecimal_spec (fuel : nat) :
  forall (w : Z) (acc : string),
  0 <= w < 16 ^ Z.of_nat fuel ->
  hex_value 0 (hexadecimal fuel w acc) =
    w * 16 ^ Z.of_nat (String.length acc) + hex_value 0 acc /\
  (String.length (hexadecimal fuel w acc) <= fuel + String.length acc)%nat.
Proof.
  induction fuel as [|fuel IH]; intros w acc Hw.
  - change (16 ^ Z.of_nat 0) with 1 in Hw. assert (w = 0) as -> by lia.
    cbn [hexadecimal]. split; [lia | lia].
  - cbn [hexadecimal]. destruct (Z.eqb_spec w 0) as [->|Hn]; [split; lia|].
    rewrite Nat2Z.inj_succ, Z.pow_succ_r in Hw by lia.
    assert (Hd : 0 <= w / 16 < 16 ^ Z.of_nat fuel).
    { split; [apply Z.div_pos; lia | apply Z.div_lt_upper_bound; lia]. }
    assert (Hm : 0 <= w mod 16 < 16) by (apply Z.mod_pos_bound; lia).
    destruct (IH (w / 16)
                (String (nth (Z.to_nat (w mod 16)) hex_digits "0"%char) acc) Hd)
      as [V L].
    split.
    + rewrite V. cbn [String.length hex_value].
      rewrite (hex_value_shift acc), digit_value_hex by exact Hm.
      rewrite Nat2Z.inj_succ, Z.pow_succ_r by lia.
      pose proof (Z.div_mod w 16 ltac:(lia)) as E.
      set (P := 16 ^ Z.of_nat (String.length acc)) in *.
      set (q := w / 16) in *. set (m := w mod 16) in *.
      rewrite E. ring.
    + cbn [String.length] in L. lia.
Qed.

(** What [printf] writes for a word: its sixteen digits. *)
Lemma printf_16_16llx_spec (w : Z) :
  u64 w ->
  hex_numeral (printf_16_16llx w) /\
  String.length (printf_16_16llx w) = 16%nat /\ hex_value 0 (printf_16_16llx w) = w.
Proof.
  intros Hw. unfold printf_16_16llx. cbv zeta.
  destruct (hexadecimal_spec 16 w EmptyString) as [V L].
  { unfold u64 in Hw. change (16 ^ Z.of_nat 16) with (2 ^ 64). exact Hw. }
  cbn [String.length] in L, V.
  split; [|split].
  - apply hex_numeral_app; [apply zeros_numeral|].
    apply hexadecimal_numeral. constructor.
  - rewrite length_app_string, zeros_length. lia.
  - rewrite hex_value_app, hex_value_zeros, V.
    change (16 ^ Z.of_nat 0) with 1. cbn [hex_value]. lia.
Qed.

Lemma words_value_app (a : list Z) (x : Z) :
  words_value (a ++ [x]) = words_value a + 2 ^ (64 * Z.of_nat (length a)) * x.
Proof.
  induction a as [|w a IH].
  - cbn [app words_value length]. change (2 ^ (64 * Z.of_nat 0)) with 1. lia.
  - cbn [app words_value length]. rewrite IH.
    rewrite Nat2Z.inj_succ.
    replace (64 * Z.succ (Z.of_nat (length a))) with (64 + 64 * Z.of_nat (length a)) by lia.
    rewrite Z.pow_add_r by lia. ring.
Qed.

Lemma for_down_ext {T : Type} (f g : nat -> T -> T) (lo : nat) :
  forall n s,
  (forall i a, (lo <= i < lo + n)%nat -> f i a = g i a) ->
  for_down lo n f s = for_down lo n g s.
Proof.
  induction n as [|n IH]; intros s H; [reflexivity|].
  rewrite !for_down_S. rewrite (H (lo + n)%nat) by lia.
  apply IH. intros i a Hi. apply H. lia.
Qed.

(** The digits that the loop of [PrintState] writes. *)
Lemma PrintState_loop (state : list Z) :
  Forall u64 state ->
  forall stdout,
  exists digits,
    for_down 1 (length state)
      (fun i stdout => (stdout ++ printf_16_16llx (nth (i - 1) state 0))%string)
      stdout = (stdout ++ digits)%string /\
    hex_numeral digits /\
    String.length digits = (16 * length state)%nat /\
    hex_value 0 digits = words_value state.
Proof.
  induction state as [|x a IH] using rev_ind; intros U stdout.
  - exists EmptyString. cbn [length for_down].
    split; [|split; [constructor | split; reflexivity]].
    induction stdout as [|c s IHs]; cbn [append]; [reflexivity | now rewrite <- IHs].
  - apply Forall_app in U. destruct U as [Ua Ux]. inversion Ux as [|? ? Hx _]; subst.
    rewrite length_app. cbn [length]. rewrite Nat.add_1_r, for_down_S.
    replace (1 + length a - 1)%nat with (length a) by lia.
    rewrite app_nth2, Nat.sub_diag by lia. cbn [nth].
    rewrite (for_down_ext _
               (fun i stdout => (stdout ++ printf_16_16llx (nth (i - 1) a 0))%string)).
    2:{ intros i s Hi. now rewrite app_nth1 by lia. }
    destruct (IH Ua (stdout ++ printf_16_16llx x)%string) as (d & E & N & L & V).
    destruct (printf_16_16llx_spec x Hx) as (Nx & Lx & Vx).
    exists (printf_16_16llx x ++ d)%string. split; [|split; [|split]].
    + rewrite E. clear. induction stdout as [|c s IHs]; cbn [append];
        [reflexivity | now rewrite IHs].
    + apply hex_numeral_app; assumption.
    + rewrite length_app_string, Lx, L. lia.
    + rewrite hex_value_app, hex_value_shift, Vx, V, L, words_value_app.
      replace (16 ^ Z.of_nat (16 * length a)) with (2 ^ (64 * Z.of_nat (length a))).
      * ring.
      * rewrite Nat2Z.inj_mul. change (Z.of_nat 16) with 16.
        change (16 ^ (16 * Z.of_nat (length a))) with ((2 ^ 4) ^ (16 * Z.of_nat (length a))).
        rewrite <- Z.pow_mul_r by lia. f_equal. lia.
Qed.

(** X26.  [PrintState] writes one line and nothing else: [16 * length]
    characters, each of them one of the lower-case hexadecimal digits
    [0 .. 9] and [a .. f], and a newline.  The digits are those of the
    words from the last to the first: read as one numeral, the line is the
    number whose 64-bit digits are the words, least significant first. *)
Theorem PrintState_line (state : list Z) (stdout : string) :
  Forall u64 state ->
  exists digits,
    PrintState (length state) state stdout =
      (stdout ++ digits ++ Allocation.newline)%string /\
    hex_numeral digits /\
    String.length digits = (16 * length state)%nat /\
    hex_value 0 digits = words_value state.
Proof.
  intros U. destruct (PrintState_loop state U stdout) as (d & E & N & L & V).
  exists d. split; [|split; [|split]; assumption].
  unfold PrintState. cbv zeta. rewrite E. clear.
  induction stdout as [|c s IH]; cbn [append]; [reflexivity | now rewrite IH].
Qed.

Lemma PrintState_line_witness :
  Forall u64 [0x0706050403020100; 0x0f0e0d0c0b0a0908] /\
  exists digits,
    PrintState 2 [0x0706050403020100; 0x0f0e0d0c0b0a0908] EmptyString =
      (digits ++ Allocation.newline)%string /\
    hex_numeral digits /\
    String.length digits = 32%nat /\
    hex_value 0 digits = words_value [0x0706050403020100; 0x0f0e0d0c0b0a0908].
Proof.
  assert (U : Forall u64 [0x0706050403020100; 0x0f0e0d0c0b0a0908]).
  { repeat constructor; unfold u64; lia. }
  split; [exact U|].
  exact (PrintState_line [0x0706050403020100; 0x0f0e0d0c0b0a0908] EmptyString U).
Defined.


(** ** The further properties on the sample inputs *)

Lemma created_128_128_ok : context_ok created_128_128.
Proof. exact (KalynaInit_context_ok always 128 128 _ created_128_128_init). Qed.

Lemma loaded_128_128_ok : context_ok loaded_128_128.
Proof.
  destruct created_128_128_ok as ((B & _ & K) & S & P).
  split; [|split; [exact S | exact P]].
  split; [exact B|]. split; [|exact K]. apply sample_words_ok. reflexivity.
Qed.

Lemma used_128_128_ok : context_ok used_128_128.
Proof.
  destruct created_128_128_ok as ((B & _ & K) & S & P).
  split; [|split; [exact S | exact P]].
  split; [exact B|]. split; [|exact K]. apply sample_words_ok. reflexivity.
Qed.


Lemma encipher_decipher_round_trip_witness :
  ctx_ok created_128_128 /\ words_ok 2 sample_plaintext_128 /\
  fst (KalynaEncipher false sample_sboxes_enc sample_mds_matrix
         (fst (KalynaDecipher false sample_sboxes_dec sample_mds_inv_matrix
                 sample_plaintext_128 created_128_128 [0; 0]))
         (snd (KalynaDecipher false sample_sboxes_dec sample_mds_inv_matrix
                 sample_plaintext_128 created_128_128 [0; 0])) [0; 0])
  = sample_plaintext_128.
Proof.
  assert (C : ctx_ok created_128_128) by exact (proj1 created_128_128_ok).
  assert (P : words_ok 2 sample_plaintext_128) by (apply sample_words_ok; reflexivity).
  split; [exact C|]. split; [exact P|].
  exact (encipher_decipher_round_trip false sample_sboxes_enc sample_sboxes_dec
           sample_mds_matrix sample_mds_inv_matrix
           sample_sboxes_enc_bytes sample_sboxes_dec_bytes sample_sboxes_inverse
           sample_mds_matrix_bytes sample_mds_inv_matrix_bytes
           sample_mds_inverse_r
           created_128_128 sample_plaintext_128 [0; 0] [0; 0]
           C P eq_refl eq_refl).
Defined.

Lemma driver_calls_independent_witness :
  length (state created_128_128) = nb created_128_128 /\
  (nb created_128_128 <= length sample_key_128)%nat /\
  (nb created_128_128 <= length sample_plaintext_128)%nat /\
  fst (KalynaEncipher false sample_sboxes_enc sample_mds_matrix sample_plaintext_128
         (snd (KalynaEncipher false sample_sboxes_enc sample_mds_matrix
                 sample_key_128 created_128_128 [0; 0])) [0; 0]) =
    fst (KalynaEncipher false sample_sboxes_enc sample_mds_matrix
           sample_plaintext_128 created_128_128 [0; 0]).
Proof.
  split; [reflexivity|]. split; [apply le_n|]. split; [apply le_n|].
  exact (proj1 (driver_calls_independent false sample_sboxes_enc sample_sboxes_dec
                  sample_mds_matrix sample_mds_inv_matrix
                  created_128_128 sample_key_128 sample_plaintext_128 [0; 0] [0; 0]
                  eq_refl (le_n 2) (le_n 2))).
Defined.

Lemma ReverseWord_reverses_bytes_witness :
  u64 0x0102030405060708 /\
  le_bytes 8 (ReverseWord true 0x0102030405060708) = rev (le_bytes 8 0x0102030405060708) /\
  u64 (ReverseWord true 0x0102030405060708) /\
  ReverseWord true (ReverseWord true 0x0102030405060708) = 0x0102030405060708.
Proof.
  assert (U : u64 0x0102030405060708) by (unfold u64; lia).
  split; [exact U|]. exact (ReverseWord_reverses_bytes true 0x0102030405060708 U).
Defined.

Lemma WordsToBytes_Inline_layout_witness :
  (2 <= length sample_plaintext_128)%nat /\ (1 < 2)%nat /\ (3 < 8)%nat /\
  length (WordsToBytes_Inline true 2 sample_plaintext_128) = (8 * 2)%nat /\
  nth (8 * 1 + 3) (WordsToBytes_Inline true 2 sample_plaintext_128) 0 =
    Z.land (Z.shiftr (nth 1 sample_plaintext_128 0) (8 * Z.of_nat 3)) 0xFF.
Proof.
  assert (A : (2 <= length sample_plaintext_128)%nat) by apply le_n.
  assert (B : (1 < 2)%nat) by lia.
  assert (C : (3 < 8)%nat) by lia.
  split; [exact A|]. split; [exact B|]. split; [exact C|].
  exact (WordsToBytes_Inline_layout true 2 sample_plaintext_128 1 3 A B C).
Defined.

Lemma inline_codec_round_trip_witness :
  words_ok 2 sample_plaintext_128 /\
  Forall u8 (canonical_bytes sample_key_128) /\
  length (canonical_bytes sample_key_128) = (8 * 2)%nat /\
  BytesToWords_Inline true 2 (WordsToBytes_Inline true 2 sample_plaintext_128) [0; 0] =
    sample_plaintext_128 /\
  WordsToBytes_Inline true 2
    (BytesToWords_Inline true 2 (canonical_bytes sample_key_128) [0; 0]) =
    canonical_bytes sample_key_128.
Proof.
  assert (P : words_ok 2 sample_plaintext_128) by (apply sample_words_ok; reflexivity).
  assert (U : Forall u8 (canonical_bytes sample_key_128)) by apply canonical_bytes_u8.
  split; [exact P|]. split; [exact U|]. split; [reflexivity|].
  exact (inline_codec_round_trip true 2 sample_plaintext_128
           (canonical_bytes sample_key_128) [0; 0] P U eq_refl eq_refl).
Defined.

Lemma BytesToWords_WordsToBytes_witness :
  Forall u64 sample_plaintext_128 /\
  fst (BytesToWords true (8 * 2) (fst (WordsToBytes true 2 sample_plaintext_128))) =
    sample_plaintext_128 /\
  fst (BytesToWords true 2 (fst (WordsToBytes true 2 sample_plaintext_128))) =
    map (ReverseWord true) sample_plaintext_128.
Proof.
  assert (P : Forall u64 sample_plaintext_128)
    by (apply (sample_words_ok 2); reflexivity).
  split; [exact P|].
  destruct (BytesToWords_WordsToBytes true sample_plaintext_128 P) as [A B].
  split; [exact A|]. apply B. cbn [length sample_plaintext_128]. lia.
Defined.

Lemma SubBytes_bytewise_witness :
  length (state loaded_128_128) = nb loaded_128_128 /\ (5 < 8 * nb loaded_128_128)%nat /\
  nth 5 (canonical_bytes (state (SubBytes sample_sboxes_enc loaded_128_128))) 0 =
    lookup sample_sboxes_enc (5 mod 4) (nth 5 (canonical_bytes (state loaded_128_128)) 0) /\
  nth 5 (canonical_bytes (state (InvSubBytes sample_sboxes_dec loaded_128_128))) 0 =
    lookup sample_sboxes_dec (5 mod 4) (nth 5 (canonical_bytes (state loaded_128_128)) 0).
Proof.
  assert (K : (5 < 8 * nb loaded_128_128)%nat) by (cbn [nb loaded_128_128 set_state created_128_128]; lia).
  split; [reflexivity|]. split; [exact K|].
  exact (SubBytes_bytewise sample_sboxes_enc sample_sboxes_dec
           sample_sboxes_enc_bytes sample_sboxes_dec_bytes loaded_128_128 5 eq_refl K).
Defined.

Lemma SubBytes_InvSubBytes_inverse_witness :
  words_ok (nb loaded_128_128) (state loaded_128_128) /\
  InvSubBytes sample_sboxes_dec (SubBytes sample_sboxes_enc loaded_128_128) =
    loaded_128_128 /\
  SubBytes sample_sboxes_enc (InvSubBytes sample_sboxes_dec loaded_128_128) =
    loaded_128_128.
Proof.
  assert (W : words_ok (nb loaded_128_128) (state loaded_128_128))
    by (apply sample_words_ok; reflexivity).
  split; [exact W|].
  exact (SubBytes_InvSubBytes_inverse sample_sboxes_enc sample_sboxes_dec
           sample_sboxes_enc_bytes sample_sboxes_dec_bytes sample_sboxes_inverse
           loaded_128_128 W).
Defined.

Lemma ShiftRows_rotates_rows_witness :
  block_words (nb loaded_128_128) /\
  length (state loaded_128_128) = nb loaded_128_128 /\
  (5 < 8)%nat /\ (1 < nb loaded_128_128)%nat /\
  nth (5 + (1 + 5 / (8 / 2)) mod 2 * 8)
      (canonical_bytes (state (ShiftRows false loaded_128_128))) 0 =
    nth (5 + 1 * 8) (canonical_bytes (state loaded_128_128)) 0 /\
  nth (5 + 1 * 8) (canonical_bytes (state (InvShiftRows false loaded_128_128))) 0 =
    nth (5 + (1 + 5 / (8 / 2)) mod 2 * 8) (canonical_bytes (state loaded_128_128)) 0.
Proof.
  assert (B : block_words (nb loaded_128_128)) by (left; reflexivity).
  assert (R : (5 < 8)%nat) by lia.
  assert (C : (1 < nb loaded_128_128)%nat) by apply le_n.
  split; [exact B|]. split; [reflexivity|]. split; [exact R|]. split; [exact C|].
  exact (ShiftRows_rotates_rows false loaded_128_128 5 1 B eq_refl R C).
Defined.

Lemma ShiftRows_SubBytes_commute_witness :
  block_words (nb loaded_128_128) /\
  length (state loaded_128_128) = nb loaded_128_128 /\
  ShiftRows false (SubBytes sample_sboxes_enc loaded_128_128) =
    SubBytes sample_sboxes_enc (ShiftRows false loaded_128_128) /\
  InvShiftRows false (InvSubBytes sample_sboxes_dec loaded_128_128) =
    InvSubBytes sample_sboxes_dec (InvShiftRows false loaded_128_128).
Proof.
  assert (B : block_words (nb loaded_128_128)) by (left; reflexivity).
  split; [exact B|]. split; [reflexivity|].
  exact (ShiftRows_SubBytes_commute false sample_sboxes_enc sample_sboxes_dec
           sample_sboxes_enc_bytes sample_sboxes_dec_bytes loaded_128_128 B eq_refl).
Defined.

Lemma MatrixMultiply_columns_witness :
  table_bytes sample_mds_matrix 8 8 /\
  length (state loaded_128_128) = nb loaded_128_128 /\
  (2 < 8)%nat /\ (1 < nb loaded_128_128)%nat /\
  nth (2 + 1 * 8)
      (canonical_bytes (state (MatrixMultiply false loaded_128_128 sample_mds_matrix))) 0 =
  xor_sum (map (fun b => MultiplyGF (nth (b + 1 * 8) (canonical_bytes (state loaded_128_128)) 0)
                                    (lookup sample_mds_matrix 2 (Z.of_nat b)))
               (seq 0 8)).
Proof.
  assert (R : (2 < 8)%nat) by lia.
  assert (C : (1 < nb loaded_128_128)%nat) by apply le_n.
  split; [exact sample_mds_matrix_bytes|]. split; [reflexivity|].
  split; [exact R|]. split; [exact C|].
  exact (MatrixMultiply_columns false loaded_128_128 sample_mds_matrix 2 1
           sample_mds_matrix_bytes eq_refl R C).
Defined.

Lemma MatrixMultiply_linear_witness :
  table_bytes sample_mds_matrix 8 8 /\
  length (state loaded_128_128) = nb loaded_128_128 /\
  length sample_key_128 = nb loaded_128_128 /\
  MatrixMultiply false (XorRoundKeyExpand sample_key_128 loaded_128_128) sample_mds_matrix =
  XorRoundKeyExpand
    (state (MatrixMultiply false (set_state loaded_128_128 sample_key_128) sample_mds_matrix))
    (MatrixMultiply false loaded_128_128 sample_mds_matrix).
Proof.
  split; [exact sample_mds_matrix_bytes|]. split; [reflexivity|]. split; [reflexivity|].
  exact (MatrixMultiply_linear false loaded_128_128 sample_mds_matrix sample_key_128
           sample_mds_matrix_bytes eq_refl eq_refl).
Defined.

Lemma MixColumns_InvMixColumns_inverse_witness :
  words_ok (nb loaded_128_128) (state loaded_128_128) /\
  InvMixColumns false sample_mds_inv_matrix (MixColumns false sample_mds_matrix loaded_128_128) =
    loaded_128_128 /\
  MixColumns false sample_mds_matrix (InvMixColumns false sample_mds_inv_matrix loaded_128_128) =
    loaded_128_128.
Proof.
  assert (W : words_ok (nb loaded_128_128) (state loaded_128_128))
    by (apply sample_words_ok; reflexivity).
  split; [exact W|].
  exact (MixColumns_InvMixColumns_inverse false sample_mds_matrix sample_mds_inv_matrix
           sample_mds_matrix_bytes sample_mds_inv_matrix_bytes
           sample_mds_inverse sample_mds_inverse_r loaded_128_128 W).
Defined.

Lemma KeyExpandKt_intermediate_key_witness :
  context_ok created_128_128 /\ Forall u64 sample_key_128 /\
  KeyExpandKt false sample_sboxes_enc sample_mds_matrix sample_key_128 created_128_128 =
  (intermediate_key false sample_sboxes_enc sample_mds_matrix 2 2 sample_key_128,
   set_state created_128_128
     (intermediate_key false sample_sboxes_enc sample_mds_matrix 2 2 sample_key_128)).
Proof.
  assert (K : Forall u64 sample_key_128) by (apply (sample_words_ok 2); reflexivity).
  split; [exact created_128_128_ok|]. split; [exact K|].
  exact (KeyExpandKt_intermediate_key false sample_sboxes_enc sample_mds_matrix
           sample_sboxes_enc_bytes sample_mds_matrix_bytes
           sample_key_128 created_128_128 created_128_128_ok K).
Defined.

Lemma even_round_keys_closed_form_witness :
  context_ok created_128_256 /\ words_ok (nk created_128_256) sample_key_256 /\
  (2 * 3 <= nr created_128_256)%nat /\
  exists expanded,
    KalynaKeyExpand false sample_sboxes_enc sample_mds_matrix
      sample_key_256 created_128_256 = Some expanded /\
    round_key expanded (2 * 3) =
      even_round_key false sample_sboxes_enc sample_mds_matrix 2
        (intermediate_key false sample_sboxes_enc sample_mds_matrix 2 4 sample_key_256)
        (repeat (Nat.iter 3 shift_word 0x0001000100010001) 2)
        (key_window sample_key_256 2 (3 / (4 / 2) + 3 mod (4 / 2) * 2)).
Proof.
  assert (C : context_ok created_128_256)
    by exact (KalynaInit_context_ok always 128 256 _ created_128_256_init).
  assert (K : words_ok (nk created_128_256) sample_key_256)
    by (apply sample_words_ok; reflexivity).
  assert (J : (2 * 3 <= nr created_128_256)%nat)
    by (cbn [nr created_128_256]; lia).
  split; [exact C|]. split; [exact K|]. split; [exact J|].
  exact (even_round_keys_closed_form false sample_sboxes_enc sample_mds_matrix
           sample_sboxes_enc_bytes sample_mds_matrix_bytes
           sample_key_256 created_128_256 3 C K J).
Defined.

Lemma KalynaKeyExpand_rekey_witness :
  context_ok created_128_128 /\ context_ok used_128_128 /\
  words_ok (nk created_128_128) sample_key_128 /\
  exists expanded,
    KalynaKeyExpand false sample_sboxes_enc sample_mds_matrix
      sample_key_128 created_128_128 = Some expanded /\
    KalynaKeyExpand false sample_sboxes_enc sample_mds_matrix
      sample_key_128 used_128_128 = Some expanded /\
    KalynaKeyExpand false sample_sboxes_enc sample_mds_matrix
      sample_key_128 expanded = Some expanded.
Proof.
  assert (K : words_ok (nk created_128_128) sample_key_128)
    by (apply sample_words_ok; reflexivity).
  split; [exact created_128_128_ok|]. split; [exact used_128_128_ok|].
  split; [exact K|].
  exact (KalynaKeyExpand_rekey false sample_sboxes_enc sample_mds_matrix
           sample_sboxes_enc_bytes sample_mds_matrix_bytes
           sample_key_128 created_128_128 used_128_128
           created_128_128_ok used_128_128_ok eq_refl eq_refl eq_refl K).
Defined.

Lemma KalynaKeyExpand_keeps_context_witness :
  context_ok created_128_128 /\ words_ok (nk created_128_128) sample_key_128 /\
  exists expanded,
    KalynaKeyExpand false sample_sboxes_enc sample_mds_matrix
      sample_key_128 created_128_128 = Some expanded /\
    nb expanded = 2%nat /\ nk expanded = 2%nat /\ nr expanded = 10%nat /\
    length (round_keys expanded) = 11%nat /\
    Forall (words_ok 2) (round_keys expanded) /\
    state expanded = round_key expanded 10.
Proof.
  assert (K : words_ok (nk created_128_128) sample_key_128)
    by (apply sample_words_ok; reflexivity).
  split; [exact created_128_128_ok|]. split; [exact K|].
  exact (KalynaKeyExpand_keeps_context false sample_sboxes_enc sample_mds_matrix
           sample_sboxes_enc_bytes sample_mds_matrix_bytes
           sample_key_128 created_128_128 created_128_128_ok K).
Defined.

Lemma MultiplyGF_ring_witness :
  u8 0x53 /\ u8 0xCA /\ u8 0x07 /\
  u8 (MultiplyGF 0x53 0xCA) /\
  MultiplyGF (MultiplyGF 0x53 0xCA) 0x07 = MultiplyGF 0x53 (MultiplyGF 0xCA 0x07) /\
  MultiplyGF 0x53 (Z.lxor 0xCA 0x07) =
    Z.lxor (MultiplyGF 0x53 0xCA) (MultiplyGF 0x53 0x07) /\
  MultiplyGF (Z.lxor 0x53 0xCA) 0x07 =
    Z.lxor (MultiplyGF 0x53 0x07) (MultiplyGF 0xCA 0x07).
Proof.
  assert (A : u8 0x53) by (unfold u8; lia).
  assert (B : u8 0xCA) by (unfold u8; lia).
  assert (C : u8 0x07) by (unfold u8; lia).
  split; [exact A|]. split; [exact B|]. split; [exact C|].
  exact (MultiplyGF_ring 0x53 0xCA 0x07 A B C).
Defined.

Lemma MultiplyGF_field_witness :
  u8 0x53 /\ u8 0xCA /\
  (0x53 <> 0 -> exists i, u8 i /\ MultiplyGF 0x53 i = 1) /\
  (MultiplyGF 0x53 0xCA = 0 -> 0x53 = 0 \/ 0xCA = 0).
Proof.
  assert (A : u8 0x53) by (unfold u8; lia).
  assert (B : u8 0xCA) by (unfold u8; lia).
  split; [exact A|]. split; [exact B|].
  exact (MultiplyGF_field 0x53 0xCA A B).
Defined.

Lemma XorRoundKey_self_inverse_witness :
  length (state wrapping_context) = nb wrapping_context /\
  XorRoundKey 1 (XorRoundKey 1 wrapping_context) = wrapping_context /\
  XorRoundKeyExpand sample_key_128 (XorRoundKeyExpand sample_key_128 wrapping_context) =
    wrapping_context.
Proof.
  split; [reflexivity|].
  exact (XorRoundKey_self_inverse 1 sample_key_128 wrapping_context eq_refl).
Defined.

Lemma fresh_world_ok : heap_ok (Allocation.memory fresh_world).
Proof. split; [constructor | intros p []]. Qed.

Lemma KalynaInit_failure_frees_witness :
  heap_ok (Allocation.memory fresh_world) /\
  Allocation.KalynaInit (fails_at 5) 128 128 fresh_world = (None, after_failed_init) /\
  Allocation.allocated (Allocation.memory after_failed_init) =
    Allocation.allocated (Allocation.memory fresh_world) /\
  Allocation.damaged (Allocation.memory after_failed_init) =
    Allocation.damaged (Allocation.memory fresh_world).
Proof.
  assert (E : Allocation.KalynaInit (fails_at 5) 128 128 fresh_world =
              (None, after_failed_init)) by (vm_compute; reflexivity).
  split; [exact fresh_world_ok|]. split; [exact E|].
  exact (KalynaInit_failure_frees (fails_at 5) 128 128 fresh_world after_failed_init
           fresh_world_ok E).
Defined.

Lemma KalynaDelete_frees_context_witness :
  heap_ok (Allocation.memory fresh_world) /\
  Allocation.KalynaInit always 128 128 fresh_world = (Some created_handle, after_init) /\
  length (Allocation.allocated (Allocation.memory after_init)) = 14%nat /\
  KalynaInit always 128 128 = Some (Allocation.value created_handle) /\
  fst (Allocation.KalynaDelete (Some created_handle) after_init) = 0 /\
  Allocation.allocated
    (Allocation.memory (snd (Allocation.KalynaDelete (Some created_handle) after_init))) = [] /\
  Allocation.damaged
    (Allocation.memory (snd (Allocation.KalynaDelete (Some created_handle) after_init))) =
    false /\
  Allocation.KalynaDelete None after_init = (0, after_init).
Proof.
  assert (E : Allocation.KalynaInit always 128 128 fresh_world =
              (Some created_handle, after_init)) by (vm_compute; reflexivity).
  split; [exact fresh_world_ok|]. split; [exact E|].
  exact (KalynaDelete_frees_context always 128 128 fresh_world after_init created_handle
           fresh_world_ok E).
Defined.
